(** * Guided speaker diarization: targets, speaker budget, guides and loss

    A shallow embedding of
    [pyannote/audio/tasks/segmentation/guided_speaker_diarization.py]:
    the guide transforms ([BaseGuide] and its strategies), [prepare_chunk],
    [collate_y] and [training_step], together with the properties the
    specification states about them.

    Conventions.
    - Times, losses and the float intermediates of the guide transform are
      exact rationals ([Q]); every float the guide transform produces on
      binary targets (0, 0.5, 1, -1) is exactly representable.
    - Fixed-width integers are [Z] with the wrap-around written out.
    - Tensors are nested lists, outermost dimension first; where the code
      reads a shape ([targets.shape], the axes of a numpy matrix) the
      shape is stored with the entries, so that empty tensors keep their
      dimensions.
    - numpy arrays are objects in a store: a sample holds a reference to
      its target array, and an in-place update is seen through every
      reference to it.
    - Python's [random], numpy's [np.random] and torch's generator are
      explicit random sources threaded through the code that draws from
      them.
    - [np.argsort] is any permutation that sorts its keys: the order of
      equal keys is left to the sorting algorithm.
    - A guide strategy is called the way torch-audiomentations calls a
      per-example transform built with probability [p]: it is applied to
      the samples a Bernoulli draw selects and leaves the others as they
      are. *)

From Stdlib Require Import ssreflect QArith Qround Qminmax Lqa.
From stdpp Require Import base option list sorting gmap strings.

#[local] Set Warnings "-clear-no-such-hyp".

Local Open Scope general_if_scope.
Local Open Scope Z_scope.

(** Comparison of times is decidable. *)
#[global] Instance Qlt_decision (x y : Q) : Decision (x < y)%Q.
Proof. unfold Qlt. apply _. Defined.

(** ** Errors and random sources *)

(** Code that reads and updates a state (a random source, a store of
    arrays) and may raise: a state monad whose result is [None] when an
    exception propagates. *)
Definition Eff (S A : Type) : Type := S → option (A * S).

Definition eff_ret {S A} (a : A) : Eff S A := λ s, Some (a, s).

Definition eff_bind {S A B} (m : Eff S A) (k : A → Eff S B) : Eff S B :=
  λ s, match m s with
       | Some (a, s') => k a s'
       | None => None
       end.

Definition raise {S A} : Eff S A := λ _, None.

Fixpoint eff_mapM {S A B} (f : A → Eff S B) (l : list A) : Eff S (list B) :=
  match l with
  | [] => eff_ret []
  | a :: l' => eff_bind (f a) (λ b, eff_bind (eff_mapM f l') (λ bs, eff_ret (b :: bs)))
  end.

Notation "x ←$ m ; k" := (eff_bind m (λ x, k))
  (at level 20, m at level 100, k at level 200, right associativity,
   format "x  ←$  m ;  '/' k").

(** A seedable generator: [randbelow g n] is a draw from [0, n). *)
Class RandomSource (G : Type) := {
  randbelow : G → nat → nat * G;
  randbelow_lt : ∀ g n, (0 < n)%nat → ((randbelow g n).1 < n)%nat
}.

(** A generator that replays a fixed tape of raw draws (reduced modulo the
    bound), then zeros: the seeded generator of the examples. *)
Definition tape := list nat.

Definition tape_randbelow (g : tape) (n : nat) : nat * tape :=
  match g with
  | [] => (0%nat, [])
  | r :: g' => ((r `mod` n)%nat, g')
  end.

#[global] Program Instance tape_source : RandomSource tape :=
  {| randbelow := tape_randbelow |}.
Next Obligation.
  intros [|r g] n Hn; simpl; [lia|].
  apply Nat.mod_upper_bound. lia.
Qed.

(** torch's generator: [uniform t] is a float drawn from [0, 1). *)
Class UniformSource (T : Type) := {
  uniform : T → Q * T;
  uniform_range : ∀ t, (0 <= (uniform t).1)%Q ∧ ((uniform t).1 < 1)%Q
}.

(** A generator that replays a fixed tape of percentages (reduced modulo
    100), then zeros. *)
Definition percent_tape := list nat.

Definition percent_uniform (t : percent_tape) : Q * percent_tape :=
  match t with
  | [] => (0%Q, [])
  | r :: t' => ((inject_Z (Z.of_nat (r `mod` 100)%nat) / 100)%Q, t')
  end.

#[global] Program Instance percent_source : UniformSource percent_tape :=
  {| uniform := percent_uniform |}.
Next Obligation.
  intros [|r t]; simpl; [done|].
  pose proof (Nat.mod_upper_bound r 100 ltac:(lia)) as Hr.
  split.
  - apply Qle_shift_div_l; [done|]. rw Qmult_0_l.
    change 0%Q with (inject_Z 0). rw -Zle_Qle. lia.
  - apply Qlt_shift_div_r; [done|]. rw Qmult_1_l.
    change 100%Q with (inject_Z 100). rw -Zlt_Qlt. lia.
Qed.

(** [Bernoulli(probs=p).sample((n,))]: one uniform draw per entry, the
    entry is set when the draw falls below [p]. *)
Fixpoint bernoulli {T} `{UniformSource T} (p : Q) (n : nat) (t : T)
  : list bool * T :=
  match n with
  | O => ([], t)
  | S n' => let '(u, t') := uniform t in
            let '(rest, t'') := bernoulli p n' t' in
            (bool_decide (u < p)%Q :: rest, t'')
  end.

Section Random.
Context {G : Type} `{RandomSource G}.

(** [random.randint(a, b)]: an integer in [a, b], both ends included;
    [ValueError] on an empty range. *)
Definition randint (a b : Z) : Eff G Z :=
  λ g, if decide (b < a) then None
       else let '(r, g') := randbelow g (Z.to_nat (b - a + 1)) in
            Some (a + Z.of_nat r, g').

(** [random.sample(population, k)]: [k] elements drawn without
    replacement; [ValueError] when [k] is negative or exceeds the
    population. Each draw removes the chosen element from the pool. *)
Fixpoint sample_from {A} (pool : list A) (k : nat) : Eff G (list A) :=
  match k with
  | O => eff_ret []
  | S k' =>
      λ g, let '(j, g') := randbelow g (length pool) in
           match pool !! j with
           | Some x => (rest ←$ sample_from (delete j pool) k'; eff_ret (x :: rest)) g'
           | None => None
           end
  end.

Definition sample {A} (population : list A) (k : Z) : Eff G (list A) :=
  if decide (0 ≤ k ≤ Z.of_nat (length population))
  then sample_from population (Z.to_nat k)
  else raise.

(** [np.random.shuffle(x)]: in-place Fisher-Yates over the first axis,
    from the last position down to position 1. *)
Definition swap {A} (i j : nat) (l : list A) : list A :=
  match l !! i, l !! j with
  | Some x, Some y => <[i := y]> (<[j := x]> l)
  | _, _ => l
  end.

Fixpoint shuffle_from {A} (i : nat) (l : list A) (g : G) : list A * G :=
  match i with
  | O => (l, g)
  | S i' => let '(j, g') := randbelow g (S i) in
            shuffle_from i' (swap i j l) g'
  end.

Definition shuffle {A} (l : list A) (g : G) : list A * G :=
  shuffle_from (length l - 1) l g.
End Random.

(** ** Tensors *)

Abbreviation tensor3 A := (list (list (list A))).

(** A four-dimensional tensor with its [shape]; the entries are nested
    lists, outermost dimension first. *)
Record tensor4 (A : Type) := Tensor4 {
  shape4 : nat * nat * nat * nat;
  data4 : list (list (list (list A)))
}.
Arguments Tensor4 {A} _ _.
Arguments shape4 {A} _.
Arguments data4 {A} _.

Definition get3 {A} (t : tensor3 A) (b c f : nat) : option A :=
  chan ← t !! b; row ← chan !! c; row !! f.

Definition get4 {A} (t : tensor4 A) (b c f s : nat) : option A :=
  chan ← data4 t !! b; frames ← chan !! c; row ← frames !! f; row !! s.

(** [shaped P n l]: [l] has [n] entries, each satisfying [P]. *)
Definition shaped {A} (P : A → Prop) (n : nat) (l : list A) : Prop :=
  length l = n ∧ Forall P l.

Definition has_shape3 {A} (B C F : nat) (t : tensor3 A) : Prop :=
  shaped (shaped (λ row, length row = F) C) B t.

(** A tensor of shape [(B, C, F, S)] whose entries fill that shape. *)
Definition has_shape4 {A} (B C F S : nat) (t : tensor4 A) : Prop :=
  shape4 t = (B, C, F, S)
  ∧ shaped (shaped (shaped (λ row, length row = S) F) C) B (data4 t).

Definition tmap3 {A B} (f : A → B) (t : tensor3 A) : tensor3 B :=
  fmap (M := list) (fmap (M := list) (fmap (M := list) f)) t.

Definition tmap4 {A B} (f : A → B) (t : tensor4 A) : tensor4 B :=
  Tensor4 (shape4 t) (fmap (M := list) (tmap3 f) (data4 t)).

(** [torch.zeros(shape)] and [torch.ones(shape)] with a boolean dtype. *)
Definition full3 {A} (B C F : nat) (v : A) : tensor3 A :=
  replicate B (replicate C (replicate F v)).

(** Pairing two lists entry by entry; lists of different lengths are a shape
    mismatch, which torch rejects with an [IndexError]. *)
Fixpoint zip_exact {A B C} (f : A → B → option C) (l : list A) (k : list B)
  : option (list C) :=
  match l, k with
  | [], [] => Some []
  | a :: l', b :: k' =>
      c ← f a b; r ← zip_exact f l' k'; Some (c :: r)
  | _, _ => None
  end.

(** ** Guide transforms *)

Module Guide.

(** [targets - 0.5] then [2 * _]: an int8 target promoted to float. *)
Definition to_guide_space (t : Z) : Q := (2 * (inject_Z t - (1 # 2)))%Q.

(** [guides.type(targets.dtype)]: [collate_fn] passes int8 targets, and the
    conversion of a float to an integer truncates towards zero. *)
Definition Qtruncate (q : Q) : Z :=
  if Qlt_le_dec q 0 then Qceiling q else Qfloor q.

Definition int8_wrap (z : Z) : Z := (z + 128) `mod` 256 - 128.

Definition as_int8 (q : Q) : Z := int8_wrap (Qtruncate q).

(** [guides[~guided] = 0.0]: the mask has the leading three dimensions of
    [guides]; every speaker entry of an unguided frame is zeroed. *)
Definition mask_frame (row : list Q) (g : bool) : option (list Q) :=
  Some (if negb g then (λ _, 0%Q) <$> row else row).

Definition mask_unguided (guides : tensor4 Q) (guided : tensor3 bool)
  : option (tensor4 Q) :=
  Tensor4 (shape4 guides)
    <$> zip_exact (zip_exact (zip_exact mask_frame)) (data4 guides) guided.

(** [BaseGuide.apply_transform]; only the [targets] field of the returned
    [ObjectDict] is modelled, the other fields are passed through. *)
Definition apply_transform (guided : tensor3 bool) (targets : tensor4 Z)
  : option (tensor4 Z) :=
  (* convert from target space {0, 1} to guide space {-1, 1} *)
  let guides := tmap4 to_guide_space targets in
  (* mark unguided frames as 0.0 *)
  guides' ← mask_unguided guides guided;
  Some (tmap4 as_int8 guides').

(** The guide strategies: the base class and its four subclasses, which
    only override [randomize_parameters]. *)
Inductive strategy :=
  | BaseGuide
  | NoGuide
  | FullGuide
  | FirstHalfGuide
  | RandomFrameGuide (min_frames max_frames : Z).

Section Strategies.
Context {T G : Type} `{UniformSource T} `{RandomSource G}.

(** [guided[:, :, : (num_frames // 2)] = 1] *)
Definition set_first_frames (n : nat) (guided : tensor3 bool) : tensor3 bool :=
  fmap (M := list)
    (fmap (M := list) (imap (λ f v, if decide (f < n)%nat then true else v)))
    guided.

(** [row[guided_frames_idx] = 1] on one row of frames. *)
Definition mark (idx : list nat) (row : list bool) : list bool :=
  foldr (λ i r, <[i := true]> r) row idx.

(** [guided[b, :, guided_frames_idx] = 1] *)
Definition set_frames (b : nat) (idx : list nat) (guided : tensor3 bool)
  : tensor3 bool :=
  alter (fmap (M := list) (mark idx)) b guided.

(** The body of [for b in range(batch_size)] in
    [RandomFrameGuide.randomize_parameters]. *)
Fixpoint random_frames (min_frames max_frames : Z) (num_frames : nat)
    (bs : list nat) (guided : tensor3 bool) : Eff G (tensor3 bool) :=
  match bs with
  | [] => eff_ret guided
  | b :: bs' =>
      num_guided_frames ←$ randint min_frames max_frames;
      guided_frames_idx ←$ sample (seq 0 num_frames) num_guided_frames;
      random_frames min_frames max_frames num_frames bs'
        (set_frames b guided_frames_idx guided)
  end.

(** [randomize_parameters]: the value stored in
    [transform_parameters["guided"]]. *)
Definition randomize_parameters (st : strategy) (targets : tensor4 Z)
  : Eff G (tensor3 bool) :=
  let '(batch_size, num_channels, num_frames, _) := shape4 targets in
  match st with
  | BaseGuide | NoGuide =>
      eff_ret (full3 batch_size num_channels num_frames false)
  | FullGuide =>
      eff_ret (full3 batch_size num_channels num_frames true)
  | FirstHalfGuide =>
      let guided := full3 batch_size num_channels num_frames false in
      eff_ret (set_first_frames (num_frames / 2) guided)
  | RandomFrameGuide min_frames max_frames =>
      let guided := full3 batch_size num_channels num_frames false in
      random_frames min_frames max_frames num_frames (seq 0 batch_size) guided
  end.

(** [randomize_parameters] then [apply_transform], on the samples the
    transform is applied to. *)
Definition perturb (st : strategy) (targets : tensor4 Z) : Eff G (tensor4 Z) :=
  guided ←$ randomize_parameters st targets;
  λ g, match apply_transform guided targets with
       | Some guides => Some (guides, g)
       | None => None
       end.

(** [t[mask]]: the entries of the selected positions, in order. *)
Definition masked {A} (mask : list bool) (t : list A) : list A :=
  (filter (λ x, x.1 = true) (zip mask t)).*2.

(** [t[mask] = new]: the selected positions take the entries of [new] in
    order, the others keep theirs. *)
Fixpoint masked_assign {A} (mask : list bool) (new t : list A) : list A :=
  match mask, t with
  | true :: mask', x :: t' =>
      match new with
      | y :: new' => y :: masked_assign mask' new' t'
      | [] => x :: masked_assign mask' [] t'
      end
  | false :: mask', x :: t' => x :: masked_assign mask' new t'
  | _, _ => t
  end.

(** [targets[should_apply]]: the selected samples as a batch of their
    own. *)
Definition select_samples (should_apply : list bool) (targets : tensor4 Z)
  : tensor4 Z :=
  let '(_, num_channels, num_frames, num_speakers) := shape4 targets in
  let selected := masked should_apply (data4 targets) in
  Tensor4 (length selected, num_channels, num_frames, num_speakers) selected.

(** Calling a strategy built with probability [p] on a batch, in the
    per-example mode of [BaseWaveformTransform.forward] (the transform is
    in training mode): every sample is selected with probability [p]; the
    mask is drawn for the selected samples only and they alone are
    replaced by their guide. With no sample selected the input comes back
    as it is and nothing is drawn from [random]. *)
Definition guide (p : Q) (st : strategy) (targets : tensor4 Z)
  : Eff (T * G) (tensor4 Z) :=
  λ '(t, g),
    let '(batch_size, _, _, _) := shape4 targets in
    let '(should_apply, t') := bernoulli p batch_size t in
    if bool_decide (Exists (λ a, a = true) should_apply) then
      match perturb st (select_samples should_apply targets) g with
      | Some (perturbed, g') =>
          Some (Tensor4 (shape4 targets)
                  (masked_assign should_apply (data4 perturbed)
                     (data4 targets)),
                (t', g'))
      | None => None
      end
    else Some (targets, (t', g)).
End Strategies.

End Guide.

(** ** numpy matrices *)

(** Fixed-width unsigned arithmetic. *)
Definition uint64 (z : Z) : Z := z `mod` 2 ^ 64.

(** A two-dimensional [np.ndarray] of integers with its shape
    [(nrows, ncols)]; [rows a !! f] is [a[f, :]]. *)
Record ndarray := NdArray {
  nrows : nat;
  ncols : nat;
  rows : list (list Z)
}.

#[global] Instance ndarray_eq_dec : EqDecision ndarray.
Proof. solve_decision. Defined.

Definition wf_ndarray (a : ndarray) : Prop :=
  length (rows a) = nrows a ∧ Forall (λ r, length r = ncols a) (rows a).

Definition entry (a : ndarray) (f j : nat) : option Z :=
  r ← rows a !! f; r !! j.

(** [a[:, j]] *)
Definition column (a : ndarray) (j : nat) : list Z :=
  (λ r, r !!! j) <$> rows a.

(** [a.T], a view of [a] with the axes exchanged. *)
Definition transpose (a : ndarray) : ndarray :=
  NdArray (ncols a) (nrows a) (column a <$> seq 0 (ncols a)).

(** [np.zeros((n, m), dtype=np.uint8)] *)
Definition zeros (n m : nat) : ndarray :=
  NdArray n m (replicate n (replicate m 0)).

(** [np.sum(a, axis=0)] of a uint8 matrix: one uint64 sum per column. *)
Definition sum_axis0 (a : ndarray) : list Z :=
  (λ col, uint64 (foldr Z.add 0 col)) <$> rows (transpose a).

(** Unary minus on a uint64 vector wraps around. *)
Definition uint64_neg (v : list Z) : list Z := (λ x, uint64 (- x)) <$> v.

(** [np.argsort(v)]: the indices that sort [v] in ascending order. The
    default sort of numpy is not stable: which of two equal keys comes
    first is left to the implementation (on the numpy versions this code
    runs on, short vectors are sorted by insertion and keep equal keys in
    their order, longer ones are not). *)
Class Argsort := {
  argsort : list Z → list nat;
  argsort_Permutation : ∀ v, argsort v ≡ₚ seq 0 (length v);
  argsort_sorted : ∀ v, StronglySorted (λ i j, v !!! i ≤ v !!! j) (argsort v)
}.

(** The stable argsort, by insertion. *)
Fixpoint insert_by_key (x : Z * nat) (l : list (Z * nat)) : list (Z * nat) :=
  match l with
  | [] => [x]
  | y :: l' => if decide (x.1 < y.1) then x :: l else y :: insert_by_key x l'
  end.

Definition stable_argsort (v : list Z) : list nat :=
  (foldl (λ acc x, insert_by_key x acc) [] (zip v (seq 0 (length v)))).*2.

#[global] Program Instance insertion_argsort : Argsort :=
  {| argsort := stable_argsort |}.
Next Obligation.
  intros v. unfold stable_argsort.
  assert (∀ x ps, insert_by_key x ps ≡ₚ x :: ps) as Hins.
  { intros x ps. induction ps as [|y ps IH]; [done|]. simpl.
    case_decide; [done|]. rw IH. apply perm_swap. }
  assert (∀ ps acc, foldl (λ acc x, insert_by_key x acc) acc ps ≡ₚ ps ++ acc)
    as Hfold.
  { induction ps as [|x ps IH]; intros acc; [done|]. simpl.
    rw IH Hins. by rw Permutation_middle. }
  rw Hfold app_nil_r snd_zip //. by rw length_seq.
Qed.
Next Obligation.
  intros v. unfold stable_argsort.
  set (sorted := StronglySorted (λ p q : Z * nat, p.1 ≤ q.1)).
  assert (∀ x ps, insert_by_key x ps ≡ₚ x :: ps) as Hins.
  { intros x ps. induction ps as [|y ps IH]; [done|]. simpl.
    case_decide; [done|]. rw IH. apply perm_swap. }
  assert (∀ x ps, sorted ps → sorted (insert_by_key x ps)) as Hsorted.
  { intros x ps. induction 1 as [|y ps Hs IH Hy]; simpl.
    { repeat constructor. }
    case_decide as Hlt.
    - constructor; [by constructor|]. constructor; [lia|].
      eapply Forall_impl; [done|]. simpl. lia.
    - constructor; [done|]. rw Hins. constructor; [lia|done]. }
  assert (∀ ps acc, sorted acc →
            sorted (foldl (λ acc x, insert_by_key x acc) acc ps)
            ∧ foldl (λ acc x, insert_by_key x acc) acc ps ≡ₚ ps ++ acc)
    as Hfold.
  { induction ps as [|x ps IH]; intros acc Hacc; [done|]. simpl.
    destruct (IH (insert_by_key x acc)) as [Hs Hp]; [by apply Hsorted|].
    split; [done|]. rw Hp Hins. by rw Permutation_middle. }
  destruct (Hfold (zip v (seq 0 (length v))) []) as [Hs Hp]; [constructor|].
  rw app_nil_r in Hp.
  set (ps := foldl _ _ _) in *.
  assert (Forall (λ p, v !! p.2 = Some p.1) ps) as Hkey.
  { rw Hp. apply Forall_forall. intros p Hin.
    apply elem_of_lookup_zip_with in Hin as (k & x & z & -> & Hx & Hz).
    by apply lookup_seq in Hz as [-> _]. }
  clear Hp. induction Hs as [|p ps Hs IH Hall]; [constructor|].
  apply Forall_cons in Hkey as [Hp Hkey]. rw fmap_cons.
  constructor; [by apply IH|]. apply Forall_fmap, Forall_forall.
  intros q Hq. simpl.
  pose proof (proj1 (Forall_forall _ _) Hall q Hq) as Hle.
  pose proof (proj1 (Forall_forall _ _) Hkey q Hq) as Hqk. simpl in *.
  by rw (list_lookup_total_correct _ _ _ Hp) (list_lookup_total_correct _ _ _ Hqk).
Qed.

(** [a[:, idx]]: indexing with a list of column indices makes a copy. The
    indices come from [argsort] over the columns of [a] and are in range;
    numpy raises [IndexError] on any other index. *)
Definition select_columns (idx : list nat) (a : ndarray) : ndarray :=
  NdArray (nrows a) (length idx) ((λ r, (λ j, r !!! j) <$> idx) <$> rows a).

(** [np.pad(a, ((0, 0), (0, k)), mode="constant")] *)
Definition pad_columns (k : nat) (a : ndarray) : ndarray :=
  NdArray (nrows a) (ncols a + k) ((λ r, r ++ replicate k 0) <$> rows a).

(** Python slice bounds [start:stop] on an axis of length [n]: negative
    indices count from the end, and both ends are clipped to [0, n]. *)
Definition slice_index (i : Z) (n : nat) : nat :=
  let i' := if decide (i < 0) then i + Z.of_nat n else i in
  Z.to_nat (Z.max 0 (Z.min i' (Z.of_nat n))).

(** [a[start:stop, j] = v] *)
Definition set_column_slice (start stop : Z) (j : nat) (v : Z) (a : ndarray)
  : ndarray :=
  let lo := slice_index start (nrows a) in
  let hi := slice_index stop (nrows a) in
  NdArray (nrows a) (ncols a)
    (imap (λ f r, if decide (lo ≤ f < hi)%nat then <[j := v]> r else r) (rows a)).

(** ** The store of arrays *)

(** Arrays are objects: a sample holds a reference to its array, and
    in-place updates are seen through every reference. *)
Definition loc := nat.

Record store (G : Type) := Store {
  heap : gmap loc ndarray;
  rng : G
}.
Arguments Store {G} _ _.
Arguments heap {G} _.
Arguments rng {G} _.

Section StoreOps.
Context {G : Type} `{RandomSource G}.

Definition load (l : loc) : Eff (store G) ndarray :=
  λ σ, match heap σ !! l with
       | Some a => Some (a, σ)
       | None => None
       end.

Definition alloc (a : ndarray) : Eff (store G) loc :=
  λ σ, let l := fresh (dom (heap σ)) in
       Some (l, Store (<[l := a]> (heap σ)) (rng σ)).

(** [np.random.shuffle(y.T)]: the rows of the transposed view, that is
    the columns of [y], are shuffled in place. *)
Definition shuffle_columns (a : ndarray) (g : G) : ndarray * G :=
  let t := transpose a in
  let '(cols, g') := shuffle (rows t) g in
  (transpose (NdArray (nrows t) (ncols t) cols), g').

Definition shuffle_in_place (l : loc) : Eff (store G) () :=
  λ σ, match heap σ !! l with
       | Some a =>
           let '(a', g') := shuffle_columns a (rng σ) in
           Some ((), Store (<[l := a']> (heap σ)) g')
       | None => None
       end.
End StoreOps.

(** ** Speaker budget selector *)

Module Collate.

(** The ["y"] field of a sample: a [SlidingWindowFeature], whose [data] is
    a reference to the target array and whose [labels] name its columns. *)
Record SlidingWindowFeature := {
  data : loc;
  labels : list Z
}.

(** [np.stack(arrays)]: a new array holding the given ones; [ValueError]
    when there is nothing to stack or when the shapes differ. *)
Definition stack (arrays : list ndarray) : option (list ndarray) :=
  match arrays with
  | [] => None
  | a :: _ =>
      if decide (Forall (λ a', nrows a' = nrows a ∧ ncols a' = ncols a) arrays)
      then Some arrays else None
  end.

Section CollateY.
Context {G : Type} `{RandomSource G} {sorter : Argsort}.
Variable max_speakers_per_chunk : nat.

(** The body of [for b in batch]; the result is the array appended to
    [collated_y]. *)
Definition collate_sample (b : SlidingWindowFeature) : Eff (store G) loc :=
  let y := data b in
  let num_speakers := length (labels b) in
  y ←$ (if decide (max_speakers_per_chunk < num_speakers)%nat then
          (* keep only the most talkative speakers *)
          a ←$ load y;
          let indices := argsort (uint64_neg (sum_axis0 a)) in
          alloc (select_columns (take max_speakers_per_chunk indices) a)
        else if decide (num_speakers < max_speakers_per_chunk)%nat then
          (* create inactive speakers by zero padding *)
          a ←$ load y;
          alloc (pad_columns (max_speakers_per_chunk - num_speakers) a)
        else
          (* we have exactly the right number of speakers *)
          eff_ret y);
  (* shuffle speaker indices *)
  _ ←$ shuffle_in_place y;
  eff_ret y.

(** [collate_y]: the collated target, one matrix per sample. *)
Definition collate_y (batch : list SlidingWindowFeature)
  : Eff (store G) (list ndarray) :=
  collated_y ←$ eff_mapM collate_sample batch;
  arrays ←$ eff_mapM load collated_y;
  λ σ, match stack arrays with
       | Some t => Some (t, σ)
       | None => None
       end.
End CollateY.

End Collate.

(** ** Frame target discretizer *)

Module Chunk.

(** The scope of a file's labels: [Scopes = ["file", "database", "global"]]. *)
Inductive scope := ScopeFile | ScopeDatabase | ScopeGlobal.

(** One row of [self.annotations]. *)
Record annotation := {
  file_id : nat;
  start : Q;
  end_ : Q;
  file_label_idx : Z;
  database_label_idx : Z;
  global_label_idx : Z
}.

(** [annotation[f"{label_scope}_label_idx"]] *)
Definition label_idx (sc : scope) (a : annotation) : Z :=
  match sc with
  | ScopeFile => file_label_idx a
  | ScopeDatabase => database_label_idx a
  | ScopeGlobal => global_label_idx a
  end.

(** [Segment(start, end)] *)
Record Segment := { seg_start : Q; seg_end : Q }.

(** [np.unique]: the sorted distinct values. *)
Definition unique (l : list Z) : list Z := merge_sort Z.le (remove_dups l).

(** A [SlidingWindowFeature] as [prepare_chunk] builds it: the target
    matrix itself and the labels of its columns. *)
Record target := {
  y_data : ndarray;
  y_labels : list Z
}.

Section PrepareChunk.
(** The task: its annotations, the scope recorded for each file, and the
    frame grid [model.example_output] of the model. *)
Variable annotations : list annotation.
Variable metadata_scope : list scope.
Variable step : Q.
Variable num_frames : nat.

(** Annotations of the file with non-empty intersection with the chunk. *)
Definition chunk_annotations (file : nat) (chunk : Segment) : list annotation :=
  let annotations := filter (λ a, file_id a = file) annotations in
  filter (λ a, (start a < seg_end chunk)%Q ∧ (end_ a > seg_start chunk)%Q)
    annotations.

(** Discretization at the model output resolution. *)
Definition start_idx (chunk : Segment) (a : annotation) : Z :=
  let start := (Qmax (start a) (seg_start chunk) - seg_start chunk)%Q in
  Qfloor (start / step).

Definition end_idx (chunk : Segment) (a : annotation) : Z :=
  let end' := (Qmin (end_ a) (seg_end chunk) - seg_start chunk)%Q in
  Qceiling (end' / step).

(** The loop [for start, end, label in zip(...)]: [mapping[label]] raises
    [KeyError] on a label that has no column. *)
Fixpoint mark_annotations (sc : scope) (chunk : Segment)
    (mapping : gmap Z nat) (todo : list annotation) (y : ndarray)
  : option ndarray :=
  match todo with
  | [] => Some y
  | a :: todo' =>
      mapped_label ← mapping !! label_idx sc a;
      mark_annotations sc chunk mapping todo'
        (set_column_slice (start_idx chunk a) (end_idx chunk a)
           mapped_label 1 y)
  end.

(** [prepare_chunk]: the ["y"] entry of the sample. The waveform ["X"]
    (cropped by the audio reader) and the copied metadata are left out, and
    so is the branch [if num_labels > self.max_speakers_per_chunk: pass],
    which does nothing. [None] when [file_id] is not a file of the task. *)
Definition prepare_chunk (file : nat) (start_time duration : Q)
  : option target :=
  (* get label scope *)
  label_scope ← metadata_scope !! file;
  let chunk := {| seg_start := start_time;
                  seg_end := (start_time + duration)%Q |} in
  (* gather all annotations with non-empty intersection with current chunk *)
  let chunk_annotations := chunk_annotations file chunk in
  (* get list and number of labels for current scope *)
  let labels := unique (label_idx label_scope <$> chunk_annotations) in
  let num_labels := length labels in
  (* initial frame-level targets *)
  let y := zeros num_frames num_labels in
  (* map labels to indices *)
  let mapping : gmap Z nat := list_to_map (zip labels (seq 0 num_labels)) in
  y ← mark_annotations label_scope chunk mapping chunk_annotations y;
  Some {| y_data := y; y_labels := labels |}.
End PrepareChunk.

End Chunk.

(** ** Dual-loss composer *)

Module Loss.

(** Number of speakers of a target: columns with a non-zero entry in some
    frame, [torch.sum(torch.any(target, dim=1), dim=1)] for one sample. *)
Definition any_axis0 (a : ndarray) : list bool :=
  (λ col, bool_decide (Exists (λ v, v ≠ 0) col)) <$> rows (transpose a).

Definition num_speakers (a : ndarray) : nat :=
  length (filter (λ b : bool, b) (any_axis0 a)).

(** [t[keep]]: boolean indexing along the batch dimension. *)
Definition select {A} (keep : list bool) (t : list A) : list A :=
  (filter (λ p, p.1 = true) (zip keep t)).*2.

(** [keep.any()] *)
Definition any_kept (keep : list bool) : bool :=
  bool_decide (Exists (λ k, k = true) keep).

(** [torch.any(guide != 0.0)] *)
Definition any_nonzero (guide : tensor3 Z) : bool :=
  bool_decide (Exists (Exists (Exists (λ v, v ≠ 0))) guide).

(** [torch.any(guide != 0.0, dim=2, keepdim=True).float()] *)
Definition guided_weight (guide : tensor3 Z) : tensor3 Q :=
  fmap (M := list)
    (fmap (M := list)
       (λ row, [if bool_decide (Exists (λ v, v ≠ 0) row) then 1%Q else 0%Q]))
    guide.

(** [torch.argmax(t, dim=-1)]: the first index of the largest entry. *)
Definition argmax_row (row : list Q) : nat :=
  (foldl (λ '(best, i) '(v, pos),
            match best with
            | Some b => if Qlt_le_dec b v then (Some v, pos) else (best, i)
            | None => (Some v, pos)
            end)
         (None, 0%nat) (zip row (seq 0 (length row)))).2.

Definition argmax (t : tensor3 Q) : list (list nat) :=
  fmap (M := list) (fmap (M := list) argmax_row) t.

(** What [training_step] returns and what it logged on the way. *)
Record step_result := {
  loss : Q;
  logged : list (string * Q)
}.

(** A batch as [collate_fn] builds it. *)
Record batch (Waveform : Type) := {
  X : list Waveform;
  y : list ndarray;
  guide : tensor3 Z
}.
Arguments X {Waveform} _.
Arguments y {Waveform} _.
Arguments guide {Waveform} _.

Section TrainingStep.
(** The task configuration. *)
Variable max_speakers_per_chunk : nat.
Variable freedom : Q.

(** The external collaborators: the model, the powerset codec, the
    optimal permutation solver (of which only the permutated candidate is
    used) and the negative log-likelihood. *)
Context {Waveform Prediction : Type}.
Variable model : list Waveform → tensor3 Z → Prediction.
Variable to_multilabel : Prediction → tensor3 Q.
Variable to_powerset : tensor3 Q → tensor3 Q.
Variable permutate : ∀ {A}, tensor3 Q → tensor3 A → option (tensor3 Q) → tensor3 A.
Variable nll_loss : Prediction → list (list nat) → option (tensor3 Q) → Q.

Definition segmentation_loss (permutated_prediction : Prediction)
    (target : tensor3 Q) (weight : option (tensor3 Q)) : Q :=
  nll_loss permutated_prediction (argmax target) weight.

(** [keep]: which samples stay in the batch. *)
Definition keep (target_multilabel : list ndarray) : list bool :=
  (λ a, bool_decide (num_speakers a ≤ max_speakers_per_chunk)%nat)
    <$> target_multilabel.

(** The guide loss: zero when no entry of the guide is set. *)
Definition guide_loss (soft_prediction_powerset : Prediction)
    (hard_prediction_multilabel : tensor3 Q) (guide : tensor3 Z) : Q :=
  if any_nonzero guide then
    (* turn {-1, +1} into {0, 1} *)
    let guide_multilabel := tmap3 (λ v, ((inject_Z v + 1) * (1 # 2))%Q) guide in
    (* weight = 1 when frame is guided, 0 otherwise *)
    let weight := guided_weight guide in
    let permutated_guide_multilabel :=
      permutate hard_prediction_multilabel guide_multilabel (Some weight) in
    let permutated_guide_powerset := to_powerset permutated_guide_multilabel in
    segmentation_loss soft_prediction_powerset permutated_guide_powerset
      (Some weight)
  else 0%Q.

Definition training_step (batch : batch Waveform) : step_result :=
  let target_multilabel := y batch in
  let waveform := X batch in
  (* drop samples that contain too many speakers *)
  let keep := keep target_multilabel in
  let target_multilabel := select keep target_multilabel in
  let waveform := select keep waveform in
  (* corner case *)
  if negb (any_kept keep) then
    {| loss := 0%Q; logged := [] |}
  else
    let guide := guide batch in
    (* forward pass *)
    let soft_prediction_powerset := model waveform guide in
    (* permutate target in multilabel space and convert it to powerset space *)
    let hard_prediction_multilabel := to_multilabel soft_prediction_powerset in
    let permutated_target_multilabel :=
      permutate hard_prediction_multilabel (rows <$> target_multilabel) None in
    let permutated_target_powerset :=
      to_powerset (tmap3 inject_Z permutated_target_multilabel) in
    (* compute loss in powerset space *)
    let seg_loss :=
      segmentation_loss soft_prediction_powerset permutated_target_powerset None in
    let guide_loss :=
      guide_loss soft_prediction_powerset hard_prediction_multilabel guide in
    let loss := (freedom * seg_loss + (1 - freedom) * guide_loss)%Q in
    {| loss := loss;
       logged := [("loss/train/segmentation"%string, seg_loss);
                  ("loss/train/guide"%string, guide_loss);
                  ("loss/train"%string, loss)] |}.
End TrainingStep.

End Loss.

(** ** Vocabulary of the properties *)

(** Binary targets. *)
Definition binary (t : Z) : Prop := t = 0 ∨ t = 1.

Definition binary4 (targets : tensor4 Z) : Prop :=
  Forall (Forall (Forall (Forall binary))) (data4 targets).

(** The samples a mask of [Bernoulli] draws selects, in increasing order:
    the transform is applied to these and to no other. *)
Definition selected_samples (should_apply : list bool) : list nat :=
  Guide.masked should_apply (seq 0 (length should_apply)).

(** The draws [RandomFrameGuide.randomize_parameters] makes for [n]
    samples: for each one in turn [random.randint(min_frames, max_frames)],
    then [random.sample(range(num_frames), _)] of that many frames, every
    call on the generator state the previous one left. *)
Fixpoint frame_draws {G} `{RandomSource G} (min_frames max_frames : Z)
    (num_frames n : nat) : Eff G (list (Z * list nat)) :=
  match n with
  | O => eff_ret []
  | S n' =>
      num_guided_frames ←$ randint min_frames max_frames;
      guided_frames_idx ←$ sample (seq 0 num_frames) num_guided_frames;
      rest ←$ frame_draws min_frames max_frames num_frames n';
      eff_ret ((num_guided_frames, guided_frames_idx) :: rest)
  end.

(** The list of the columns of a matrix, [list(a.T)]. *)
Definition columns (a : ndarray) : list (list Z) := rows (transpose a).

(** [k] all-zero columns of [n] frames. *)
Definition zero_columns (n k : nat) : list (list Z) :=
  replicate k (replicate n 0).

(** [a'] holds the columns of [a] in some order. *)
Definition col_perm (a a' : ndarray) : Prop :=
  wf_ndarray a' ∧ nrows a' = nrows a ∧ ncols a' = ncols a
  ∧ columns a' ≡ₚ columns a.

(** Every sample of the batch refers to a well-formed array of [F] frames
    with one column per label. *)
Definition batch_ok (F : nat) (h : gmap loc ndarray)
    (batch : list Collate.SlidingWindowFeature) : Prop :=
  Forall (λ b, ∃ a, h !! Collate.data b = Some a ∧ wf_ndarray a ∧ nrows a = F
                    ∧ ncols a = length (Collate.labels b)) batch.

(** The number of concurrently active speakers of a target: the largest
    number of speakers active in one and the same frame. *)
Definition concurrent_speakers (a : ndarray) : nat :=
  max_list ((λ r, length (filter (λ v, v ≠ 0) r)) <$> rows a).

(** A column with a non-zero entry. *)
Definition is_active (col : list Z) : bool :=
  bool_decide (Exists (λ v, v ≠ 0) col).

(** Column [j] of a target is active: some frame has a non-zero entry. *)
Definition active_column (a : ndarray) (j : nat) : Prop :=
  ∃ f v, entry a f j = Some v ∧ v ≠ 0.

(** A target of [num_frames] frames in which speaker [j] is active in the
    first [counts !! j] frames. *)
Definition activity (counts : list nat) (num_frames : nat) : ndarray :=
  NdArray num_frames (length counts)
    ((λ f, (λ c, if decide (f < c)%nat then 1 else 0) <$> counts)
       <$> seq 0 num_frames).


(** ** Batch collation with its guide *)

From stdpp Require pretty.

Module CollateFn.

(** [self.guidance]: [OneOf] over four strategies, [NoGuide] listed
    twice, each built with [p=1.0]. *)
Definition guidance : list (Q * Guide.strategy) :=
  [(1%Q, Guide.NoGuide); (1%Q, Guide.NoGuide); (1%Q, Guide.FirstHalfGuide);
   (1%Q, Guide.RandomFrameGuide 1 10)].

(** [self.specifications.classes]:
    [[f"speaker#{i+1}" for i in range(self.max_speakers_per_chunk)]]. *)
Definition classes (max_speakers_per_chunk : nat) : list string :=
  (λ i, "speaker#"%string +:+ pretty.pretty (i + 1)%nat) <$> seq 0 max_speakers_per_chunk.

(** [setup_loss_func]: the two arguments of [Powerset]. *)
Definition setup_loss_func (max_speakers_per_chunk max_speakers_per_frame : nat)
  : nat * nat :=
  (length (classes max_speakers_per_chunk), max_speakers_per_frame).

(** [collated_y.unsqueeze(1)]: the stacked targets
    [(batch_size, num_frames, num_speakers)] get a channel axis of size
    one. [collate_y] never returns an empty stack. *)
Definition unsqueeze1 (collated_y : list ndarray) : tensor4 Z :=
  let '(num_frames, num_speakers) :=
    match collated_y with
    | a :: _ => (nrows a, ncols a)
    | [] => (0, 0)%nat
    end in
  Tensor4 (length collated_y, 1, num_frames, num_speakers)%nat
    ((λ a, [rows a]) <$> collated_y).

(** [t.type(torch.int8)] *)
Definition type_int8 (t : tensor4 Z) : tensor4 Z := tmap4 Guide.int8_wrap t.

(** [t.squeeze(1)] of a tensor whose channel axis has size one. *)
Definition squeeze1 {A} (t : tensor4 A) : tensor3 A :=
  (λ chan, chan !!! 0%nat) <$> data4 t.

(** What [collate_fn] computes before the augmentation: the collated
    target and the guide drawn from it. The waveforms, the metadata and the
    augmentation of waveforms and targets are left out. *)
Record collated := {
  collated_y : list ndarray;
  guide : tensor3 Z
}.

Section CollateFn.
(** numpy's generator shuffles the speakers, torch's selects the samples
    a transform is applied to, Python's draws the guide. *)
Context {G T G' : Type} `{RandomSource G} `{UniformSource T}
  `{RandomSource G'} `{Argsort}.
Variable max_speakers_per_chunk : nat.
(** [OneOf]: the choice of one of the listed transforms. *)
Variable one_of : list (Q * Guide.strategy) → Eff G' (Q * Guide.strategy).

Definition collate_fn (batch : list Collate.SlidingWindowFeature)
  : Eff (store G * (T * G')) collated :=
  λ '(σ, (t, g)),
    (* collate y *)
    match Collate.collate_y max_speakers_per_chunk batch σ with
    | None => None
    | Some (collated_y, σ') =>
        (* generate guide *)
        match one_of guidance g with
        | None => None
        | Some ((p, st), g1) =>
            match Guide.guide p st (type_int8 (unsqueeze1 collated_y))
                    (t, g1) with
            | None => None
            | Some (guides, tg') =>
                Some ({| collated_y := collated_y;
                         guide := squeeze1 guides |},
                      (σ', tg'))
            end
        end
    end.
End CollateFn.

End CollateFn.

(** ** The plot of the first validation batch *)

Module Validation.

(** [math.ceil(math.sqrt(n))]; the square root of an integer up to 9 is
    computed exactly or rounds to a float strictly between two
    integers. *)
Definition ceil_sqrt (n : nat) : nat := Nat.sqrt_up n.

(** [math.ceil(a / b)]; [ZeroDivisionError] when [b] is zero. *)
Definition ceil_div (a b : nat) : option nat :=
  if decide (b = 0)%nat then None
  else Some (Z.to_nat (Qceiling (inject_Z (Z.of_nat a) / inject_Z (Z.of_nat b)))).

(** The grid of [validation_step]: [(num_samples, nrows, ncols)]; the
    figure has [2 * nrows] rows and [ncols] columns of axes. *)
Definition plot_grid (batch_size : nat) : option (nat * nat * nat) :=
  (* prepare 3 x 3 grid (or smaller if batch size is smaller) *)
  let num_samples := (batch_size `min` 9)%nat in
  let nrows := ceil_sqrt num_samples in
  ncols ← ceil_div num_samples nrows;
  Some (num_samples, nrows, ncols).

(** Where a sample is plotted: the axes of its target and, below them, the
    axes of its prediction. *)
Definition sample_axes (nrows ncols sample_idx : nat)
  : (nat * nat) * (nat * nat) :=
  (* find where in the grid it should be plotted *)
  let row_idx := (sample_idx / nrows)%nat in
  let col_idx := (sample_idx `mod` ncols)%nat in
  ((row_idx * 2 + 0, col_idx)%nat, (row_idx * 2 + 1, col_idx)%nat).

(** [axes[r, c]] of a grid of non-negative indices: in range or
    [IndexError]. *)
Definition in_grid (nrows ncols : nat) (ax : nat * nat) : bool :=
  bool_decide (ax.1 < 2 * nrows ∧ ax.2 < ncols)%nat.

(** The loop [for sample_idx in range(num_samples)] on a batch that holds
    [batch_len] samples: the axes used, sample by sample. [y[sample_idx]]
    raises [IndexError] past the end of the batch. *)
Definition plot_samples (batch_size batch_len : nat)
  : option (list ((nat * nat) * (nat * nat))) :=
  '(num_samples, nrows, ncols) ← plot_grid batch_size;
  mapM (λ sample_idx,
          let '(ax_ref, ax_hyp) := sample_axes nrows ncols sample_idx in
          if in_grid nrows ncols ax_ref && bool_decide (sample_idx < batch_len)%nat
             && in_grid nrows ncols ax_hyp
          then Some (ax_ref, ax_hyp) else None)
       (seq 0 num_samples).

End Validation.

(** ** Clustering pipelines *)

Module Clustering.

(** The members of the [Clustering] enumeration. *)
Inductive method :=
  | AffinityPropagation
  | DBSCAN
  | OPTICS
  | AgglomerativeClustering
  | SpectralClustering.

(** [np.clip(x, lo, hi)], that is [minimum(maximum(x, lo), hi)]. *)
Definition clip (x lo hi : Q) : Q := Qmin (Qmax x lo) hi.

(** The matrix a pipeline hands to its clusterer when called on an
    affinity matrix (of finite entries). *)
Definition clusterer_input (m : method) (affinity : list (list Q))
  : list (list Q) :=
  match m with
  | AffinityPropagation | SpectralClustering => affinity
  | DBSCAN | OPTICS =>
      fmap (M := list) (fmap (M := list) (λ a, clip (1 - a) 0 1)%Q) affinity
  | AgglomerativeClustering =>
      fmap (M := list) (fmap (M := list) (λ a, 1 - a)%Q) affinity
  end.

(** [__call__]: the labels that the clusterer of the pipeline predicts. *)
Definition call {Labels} (fit_predict : method → list (list Q) → Labels)
    (m : method) (affinity : list (list Q)) : Labels :=
  fit_predict m (clusterer_input m affinity).

End Clustering.

(** * Properties *)

(** Shapes and side conditions of concrete inputs. *)
Ltac solve_shape :=
  repeat first [done | by left | by right | split | constructor].

(** ** Entry-wise pairing *)

Section ZipExact.
Context {A B C : Type} (f : A → B → option C).

Lemma zip_exact_length l k r :
  zip_exact f l k = Some r → length r = length l ∧ length k = length l.
Proof.
  revert k r. induction l as [|a l IH]; intros [|b k] r Hz; simplify_eq/=; [done|].
  destruct (f a b) as [c|]; simplify_eq/=.
  destruct (zip_exact f l k) as [r'|] eqn:Hr; simplify_eq/=.
  destruct (IH _ _ Hr) as [-> ->]. done.
Qed.

Lemma zip_exact_lookup l k r i a b :
  zip_exact f l k = Some r → l !! i = Some a → k !! i = Some b →
  ∃ c, r !! i = Some c ∧ f a b = Some c.
Proof.
  revert k r i. induction l as [|a' l IH]; intros [|b' k] r i Hz Ha Hb;
    simplify_eq/=.
  destruct (f a' b') as [c|] eqn:Hc; simplify_eq/=.
  destruct (zip_exact f l k) as [r'|] eqn:Hr; simplify_eq/=.
  destruct i as [|i]; simplify_eq/=; [eauto|].
  eapply IH; eauto.
Qed.

Lemma zip_exact_is_Some l k :
  length l = length k →
  (∀ i a b, l !! i = Some a → k !! i = Some b → is_Some (f a b)) →
  is_Some (zip_exact f l k).
Proof.
  revert k. induction l as [|a l IH]; intros [|b k] Hlen Hf; simplify_eq/=;
    [by eexists|].
  destruct (Hf 0%nat a b) as [c ->]; [done..|]. simpl.
  destruct (IH k) as [r ->]; [done| |by eexists].
  intros i a' b' Ha Hb. by apply (Hf (S i)).
Qed.
End ZipExact.

(** ** The guide transform *)

Section GuideValues.
Import Guide.

Lemma guide_value_binary t :
  binary t → as_int8 (to_guide_space t) = 2 * t - 1.
Proof. by intros [-> | ->]. Qed.

Lemma binary4_get targets b c f s t :
  binary4 targets → get4 targets b c f s = Some t → binary t.
Proof.
  unfold binary4, get4. intros Hb Hg.
  destruct (data4 targets !! b) as [x|] eqn:Hx; simplify_eq/=.
  destruct (x !! c) as [y|] eqn:Hy; simplify_eq/=.
  destruct (y !! f) as [z|] eqn:Hz; simplify_eq/=.
  eapply Forall_lookup_1 in Hb; [|done].
  eapply Forall_lookup_1 in Hb; [|done].
  eapply Forall_lookup_1 in Hb; [|done].
  by eapply Forall_lookup_1 in Hb.
Qed.

Lemma shaped_lookup {A} (P : A → Prop) n l i :
  shaped P n l → (i < n)%nat → ∃ x, l !! i = Some x ∧ P x.
Proof.
  intros [Hlen HP] Hi. destruct (lookup_lt_is_Some_2 l i) as [x Hx]; [lia|].
  exists x. split; [done|]. by eapply Forall_lookup_1.
Qed.

Lemma shaped_lookup_Some {A} (P : A → Prop) n l i x :
  shaped P n l → l !! i = Some x → (i < n)%nat ∧ P x.
Proof.
  intros [Hlen HP] Hx. split; [|by eapply Forall_lookup_1].
  apply lookup_lt_Some in Hx. lia.
Qed.

(** A mask entry exists wherever a target entry does. *)
Lemma get3_of_get4 {A A'} B C F S (targets : tensor4 A)
    (guided : tensor3 A') b c f s t :
  has_shape4 B C F S targets → has_shape3 B C F guided →
  get4 targets b c f s = Some t → is_Some (get3 guided b c f).
Proof.
  unfold has_shape4, has_shape3, get4, get3. intros [_ Ht] Hg Hget.
  destruct (data4 targets !! b) as [x|] eqn:Hx; simplify_eq/=.
  destruct (x !! c) as [y|] eqn:Hy; simplify_eq/=.
  destruct (y !! f) as [z|] eqn:Hz; simplify_eq/=.
  destruct (shaped_lookup_Some _ _ _ _ _ Ht Hx) as [Hb Ht1].
  destruct (shaped_lookup_Some _ _ _ _ _ Ht1 Hy) as [Hc Ht2].
  destruct (shaped_lookup_Some _ _ _ _ _ Ht2 Hz) as [Hf _].
  destruct (shaped_lookup _ _ _ _ Hg Hb) as (x' & -> & Hg1). simpl.
  destruct (shaped_lookup _ _ _ _ Hg1 Hc) as (y' & -> & Hg2). simpl.
  apply lookup_lt_is_Some_2. lia.
Qed.

(** What [apply_transform] stores at each position. *)
Lemma apply_transform_get guided targets guides b c f s t m :
  apply_transform guided targets = Some guides →
  get4 targets b c f s = Some t → get3 guided b c f = Some m →
  get4 guides b c f s
  = Some (as_int8 (if m then to_guide_space t else 0%Q)).
Proof.
  unfold apply_transform, mask_unguided, get4, get3. intros Ha Ht Hm.
  destruct (zip_exact _ _ guided) as [gs|] eqn:Hz; simplify_eq/=.
  destruct (data4 targets !! b) as [x|] eqn:Hx; simplify_eq/=.
  destruct (x !! c) as [y|] eqn:Hy; simplify_eq/=.
  destruct (y !! f) as [z|] eqn:Hz'; simplify_eq/=.
  destruct (guided !! b) as [x'|] eqn:Hx'; simplify_eq/=.
  destruct (x' !! c) as [y'|] eqn:Hy'; simplify_eq/=.
  assert ((tmap3 to_guide_space <$> data4 targets) !! b
          = Some (tmap3 to_guide_space x)) as Hx0
    by (by rw list_lookup_fmap Hx).
  destruct (zip_exact_lookup _ _ _ _ _ _ _ Hz Hx0 Hx') as (x1 & Hx1 & Hz1).
  assert (tmap3 to_guide_space x !! c
          = Some (fmap (M := list) to_guide_space <$> y)) as Hy0
    by (by rw /tmap3 list_lookup_fmap Hy).
  destruct (zip_exact_lookup _ _ _ _ _ _ _ Hz1 Hy0 Hy') as (y1 & Hy1 & Hz2).
  assert ((fmap (M := list) to_guide_space <$> y) !! f
          = Some (to_guide_space <$> z)) as Hz0
    by (by rw list_lookup_fmap Hz').
  destruct (zip_exact_lookup _ _ _ _ _ _ _ Hz2 Hz0 Hm) as (z1 & Hz1' & Hz3).
  unfold mask_frame in Hz3. simplify_eq/=.
  rw /tmap3 !list_lookup_fmap Hx1 /= !list_lookup_fmap Hy1 /= !list_lookup_fmap Hz1' /=.
  rw !list_lookup_fmap. destruct m; simpl.
  - by rw list_lookup_fmap Ht.
  - by rw !list_lookup_fmap Ht.
Qed.

Lemma zip_exact_shaped {X Y Z'} (f : X → Y → option Z') (P : X → Prop)
    (P' : Y → Prop) (R : Z' → Prop) n l k :
  (∀ x y, P x → P' y → ∃ z, f x y = Some z ∧ R z) →
  shaped P n l → shaped P' n k →
  ∃ r, zip_exact f l k = Some r ∧ shaped R n r.
Proof.
  intros Hf [Hl HP] [Hk HP']. subst n.
  revert k Hk HP'. induction HP as [|x l Hx HP IH]; intros [|y k] Hk HP';
    simplify_eq/=.
  { exists []. split; [done|]. by split. }
  apply Forall_cons in HP' as [Hy HP'].
  destruct (Hf x y Hx Hy) as (z & -> & Hz).
  destruct (IH k) as (r & -> & Hr1 & Hr2); [done..|].
  exists (z :: r). split; [done|]. split; [simpl; by f_equal|by constructor].
Qed.

(** [apply_transform] succeeds when the mask has the leading shape of the
    targets, and the guide has the shape of the targets. *)
Lemma apply_transform_shape B C F S guided targets :
  has_shape4 B C F S targets → has_shape3 B C F guided →
  ∃ guides, apply_transform guided targets = Some guides
            ∧ has_shape4 B C F S guides.
Proof.
  unfold apply_transform, mask_unguided. intros [Hsh Ht] Hg.
  destruct (zip_exact_shaped (zip_exact (zip_exact mask_frame))
              (shaped (shaped (λ row : list Q, length row = S) F) C)
              (shaped (λ row : list bool, length row = F) C)
              (shaped (shaped (λ row : list Q, length row = S) F) C)
              B (data4 (tmap4 to_guide_space targets)) guided)
    as (gs & Hgs & Hgs'); [| |done|].
  { intros x x'. apply zip_exact_shaped. intros y y' Hy Hy'.
    eapply (zip_exact_shaped _ _ (λ _, True)); [|done|].
    - intros z z' Hz _. eexists. split; [done|].
      destruct z'; simpl; by rw ?length_fmap.
    - split; [done|]. by apply Forall_true. }
  { destruct Ht as [Hl Ht]. split; [by rw /= length_fmap|].
    apply Forall_fmap. eapply Forall_impl; [done|]. intros x [Hx1 Hx2].
    split; [by rw /= /tmap3 length_fmap|]. apply Forall_fmap.
    eapply Forall_impl; [done|]. intros y [Hy1 Hy2].
    split; [by rw /= length_fmap|]. apply Forall_fmap.
    eapply Forall_impl; [done|]. intros z Hz. by rw /= length_fmap. }
  simpl in Hgs. rw Hgs /=. eexists. split; [done|].
  split; [done|]. simpl. destruct Hgs' as [Hl Hgs']. split; [by rw length_fmap|].
  apply Forall_fmap. eapply Forall_impl; [done|]. intros x [Hx1 Hx2].
  split; [by rw /= /tmap3 length_fmap|]. apply Forall_fmap.
  eapply Forall_impl; [done|]. intros y [Hy1 Hy2].
  split; [by rw /= length_fmap|]. apply Forall_fmap.
  eapply Forall_impl; [done|]. intros z Hz. by rw /= length_fmap.
Qed.
End GuideValues.

(** ** Random draws *)

Section RandomFacts.
Context {G : Type} `{RandomSource G}.

Lemma randint_range a b g k g' :
  randint a b g = Some (k, g') → a ≤ k ≤ b.
Proof.
  unfold randint. case_decide; [done|].
  destruct (randbelow g (Z.to_nat (b - a + 1))) as [r g1] eqn:Hr.
  intros [= <- <-].
  pose proof (randbelow_lt g (Z.to_nat (b - a + 1))) as Hlt.
  rw Hr /= in Hlt. lia.
Qed.

Lemma randint_is_Some a b g : a ≤ b → is_Some (randint a b g).
Proof.
  intros Hab. unfold randint. case_decide; [lia|].
  destruct (randbelow g _). by eexists.
Qed.

Lemma sample_from_spec {A} (pool : list A) k g idx g' :
  sample_from pool k g = Some (idx, g') →
  length idx = k ∧ ∃ rest, pool ≡ₚ idx ++ rest.
Proof.
  revert pool g idx g'. induction k as [|k IH]; intros pool g idx g' Hs.
  { injection Hs as <- <-. split; [done|]. by exists pool. }
  simpl in Hs. destruct (randbelow g (length pool)) as [j g1].
  destruct (pool !! j) as [x|] eqn:Hx; [|done].
  unfold eff_bind in Hs.
  destruct (sample_from (delete j pool) k g1) as [[rest0 g2]|] eqn:Hrec;
    [|done].
  injection Hs as <- <-.
  destruct (IH _ _ _ _ Hrec) as [Hlen [rest Hperm]].
  split; [simpl; lia|]. exists rest.
  rw (delete_Permutation pool j x Hx). simpl. by f_equiv.
Qed.

Lemma sample_from_is_Some {A} (pool : list A) k g :
  (k ≤ length pool)%nat → is_Some (sample_from pool k g).
Proof.
  revert pool g. induction k as [|k IH]; intros pool g Hk; [by eexists|].
  simpl. pose proof (randbelow_lt g (length pool)) as Hlt.
  destruct (randbelow g (length pool)) as [j g1]. simpl in Hlt.
  destruct (lookup_lt_is_Some_2 pool j) as [x Hx]; [lia|].
  rw Hx. unfold eff_bind.
  destruct (IH (delete j pool) g1) as [[rest g2] ->]; [|by eexists].
  rw length_delete; [by eexists|lia].
Qed.

(** A sample of frame indices: [k] distinct indices below [n]. *)
Lemma sample_seq_spec n k g idx g' :
  sample (seq 0 n) k g = Some (idx, g') →
  Z.of_nat (length idx) = k ∧ NoDup idx ∧ ∀ i, i ∈ idx → (i < n)%nat.
Proof.
  unfold sample. case_decide; [|done]. intros Hs.
  apply sample_from_spec in Hs as [Hlen [rest Hperm]].
  split; [lia|].
  pose proof (NoDup_seq 0 n) as Hnd. rw Hperm in Hnd.
  apply NoDup_app in Hnd as (Hnd & _ & _). split; [done|].
  intros i Hi. assert (i ∈ seq 0 n) as Hin by (rw Hperm; set_solver).
  apply elem_of_seq in Hin. lia.
Qed.

Lemma sample_is_Some {A} (population : list A) k g :
  0 ≤ k ≤ Z.of_nat (length population) → is_Some (sample population k g).
Proof.
  intros Hk. unfold sample. case_decide; [|done].
  apply sample_from_is_Some. lia.
Qed.
End RandomFacts.

(** ** Guided-frame masks *)

Section Masks.
Context {G : Type} `{RandomSource G}.
Import Guide.

Lemma get3_full3 {A} B C F (v : A) b c f :
  get3 (full3 B C F v) b c f
  = if decide (b < B ∧ c < C ∧ f < F)%nat then Some v else None.
Proof.
  assert (∀ {X} n (x : X) i, (n ≤ i)%nat → replicate n x !! i = None) as Hge
    by (intros; by apply lookup_replicate_None).
  unfold get3, full3. case_decide as Hd.
  - destruct Hd as (? & ? & ?).
    rw lookup_replicate_2 //=. rw lookup_replicate_2 //=.
    by rw lookup_replicate_2.
  - destruct (decide (b < B)%nat); [|rw Hge //; lia].
    rw lookup_replicate_2 //=.
    destruct (decide (c < C)%nat); [|rw Hge //; lia].
    rw lookup_replicate_2 //=. apply Hge. lia.
Qed.

Lemma has_shape3_full3 {A} B C F (v : A) : has_shape3 B C F (full3 B C F v).
Proof.
  unfold has_shape3, full3, shaped.
  split; [by rw length_replicate|]. apply Forall_replicate.
  split; [by rw length_replicate|]. apply Forall_replicate.
  by rw length_replicate.
Qed.

Lemma length_mark idx row : length (mark idx row) = length row.
Proof. induction idx as [|i idx IH]; [done|]. simpl. by rw length_insert. Qed.

Lemma lookup_mark idx row f :
  mark idx row !! f
  = (λ m, if decide (f ∈ idx) then true else m) <$> row !! f.
Proof.
  induction idx as [|i idx IH]; simpl.
  { destruct (row !! f); [|done]. cbn [fmap option_fmap option_map].
    destruct (decide (f ∈ [])) as [?%elem_of_nil|]; done. }
  destruct (decide (i = f)) as [->|Hne].
  - destruct (row !! f) as [m|] eqn:Hm.
    + rw list_lookup_insert_eq.
      { rw length_mark. by eapply lookup_lt_Some. }
      cbn. destruct (decide (f ∈ f :: idx)); [done|set_solver].
    + rw list_insert_ge; [rw length_mark; by apply lookup_ge_None|].
      by rw IH.
  - rw list_lookup_insert_ne // IH. destruct (row !! f); [|done]. cbn.
    f_equal. destruct (decide (f ∈ idx)), (decide (f ∈ i :: idx)); set_solver.
Qed.

Lemma random_frames_spec min_frames max_frames F bs guided g guided' g' :
  NoDup bs →
  random_frames min_frames max_frames F bs guided g = Some (guided', g') →
  length guided' = length guided ∧
  (∀ b, b ∉ bs → guided' !! b = guided !! b) ∧
  (∀ b, b ∈ bs →
     ∃ k idx, min_frames ≤ k ≤ max_frames ∧ Z.of_nat (length idx) = k ∧
              NoDup idx ∧ (∀ i, i ∈ idx → (i < F)%nat) ∧
              guided' !! b = fmap (M := list) (mark idx) <$> guided !! b).
Proof.
  revert guided g. induction bs as [|b0 bs IH]; intros guided g Hnd Hr.
  { injection Hr as <- <-. do 2 (split; [done|]). intros b Hb. set_solver. }
  apply NoDup_cons in Hnd as [Hb0 Hnd]. simpl in Hr. unfold eff_bind in Hr.
  destruct (randint min_frames max_frames g) as [[k g1]|] eqn:Hk; [|done].
  destruct (sample (seq 0 F) k g1) as [[idx g2]|] eqn:Hidx; [|done].
  apply randint_range in Hk. apply sample_seq_spec in Hidx as (Hlen & Hnd' & Hlt).
  destruct (IH _ _ Hnd Hr) as (Hlen' & Hout & Hin).
  split; [by rw Hlen' /set_frames length_alter|]. split.
  - intros b Hb. rw Hout; [set_solver|].
    unfold set_frames. rw list_lookup_alter_ne //. set_solver.
  - intros b [->|Hb]%elem_of_cons.
    + exists k, idx. split_and!; try done; try lia.
      rw Hout // /set_frames. by rw list_lookup_alter_eq.
    + destruct (Hin b Hb) as (k' & idx' & ? & ? & ? & ? & Hb').
      exists k', idx'. split_and!; try done; try lia.
      rw Hb' /set_frames list_lookup_alter_ne //. set_solver.
Qed.

Lemma random_frames_is_Some min_frames max_frames F bs guided g :
  0 ≤ min_frames ≤ max_frames → max_frames ≤ Z.of_nat F →
  is_Some (random_frames min_frames max_frames F bs guided g).
Proof.
  intros Hmin Hmax. revert guided g.
  induction bs as [|b bs IH]; intros guided g; [by eexists|].
  simpl. unfold eff_bind.
  destruct (randint_is_Some min_frames max_frames g) as [[k g1] Hk]; [lia|].
  rw Hk. apply randint_range in Hk.
  destruct (sample_is_Some (seq 0 F) k g1) as [[idx g2] ->].
  { rw length_seq. lia. }
  apply IH.
Qed.

(** What each strategy stores in [transform_parameters["guided"]]. *)
Lemma randomize_no_guide B C F S (targets : tensor4 Z) (g : G) :
  has_shape4 B C F S targets →
  randomize_parameters NoGuide targets g = Some (full3 B C F false, g).
Proof.
  intros [Hs _]. unfold randomize_parameters. by rw Hs.
Qed.

Lemma randomize_first_half B C F S (targets : tensor4 Z) (g : G) :
  has_shape4 B C F S targets →
  ∃ guided, randomize_parameters FirstHalfGuide targets g = Some (guided, g)
    ∧ has_shape3 B C F guided
    ∧ ∀ b c f m, get3 guided b c f = Some m → m = bool_decide (f < F / 2)%nat.
Proof.
  intros [Hs _]. unfold randomize_parameters. rw Hs.
  eexists. split; [done|]. split.
  { pose proof (has_shape3_full3 B C F false) as [Hl Hsh].
    split; [by rw /set_first_frames length_fmap|].
    apply Forall_fmap. eapply Forall_impl; [done|]. intros x [Hx1 Hx2].
    split; [by rw length_fmap|]. apply Forall_fmap.
    eapply Forall_impl; [done|]. intros y Hy. simpl. by rw length_imap. }
  intros b c f m. unfold get3, set_first_frames.
  rw list_lookup_fmap.
  destruct (full3 B C F false !! b) as [x|] eqn:Hx; [|done]. simpl.
  rw list_lookup_fmap. destruct (x !! c) as [y|] eqn:Hy; [|done]. simpl.
  rw list_lookup_imap. destruct (y !! f) as [v|] eqn:Hv; [|done]. simpl.
  intros [= <-].
  pose proof (get3_full3 B C F false b c f) as Hget.
  rw /get3 Hx /= Hy /= Hv in Hget. case_decide as Hd; [|done].
  injection Hget as ->. by case_decide; case_bool_decide.
Qed.

Lemma randomize_random_frames B C F S min_frames max_frames
    (targets : tensor4 Z) (g : G) guided g' :
  has_shape4 B C F S targets →
  randomize_parameters (RandomFrameGuide min_frames max_frames) targets g
  = Some (guided, g') →
  has_shape3 B C F guided ∧
  ∀ b, (b < B)%nat →
    ∃ k idx, min_frames ≤ k ≤ max_frames ∧ Z.of_nat (length idx) = k ∧
             NoDup idx ∧ (∀ i, i ∈ idx → (i < F)%nat) ∧
             ∀ c f m, get3 guided b c f = Some m → m = bool_decide (f ∈ idx).
Proof.
  intros [Hs _]. unfold randomize_parameters. rw Hs. intros Hr.
  apply random_frames_spec in Hr as (Hlen & Hout & Hin); [|apply NoDup_seq].
  assert (∀ b x, full3 B C F false !! b = Some x →
                 x = replicate C (replicate F false)) as Hfull
    by (by intros b x [-> _]%lookup_replicate_1).
  assert (∀ b x, guided !! b = Some x →
            ∃ idx, x = mark idx <$> replicate C (replicate F false)) as Hrows.
  { intros b x Hx. destruct (decide (b ∈ seq 0 B)) as [Hb|Hb].
    - destruct (Hin b Hb) as (k & idx & _ & _ & _ & _ & Hg).
      rw Hx in Hg. destruct (full3 B C F false !! b) as [y|] eqn:Hy; [|done].
      apply Hfull in Hy as ->. exists idx. by injection Hg.
    - rw Hout // in Hx. apply Hfull in Hx as ->. exists [].
      by rw list_fmap_id. }
  split.
  { split; [by rw Hlen /full3 length_replicate|].
    apply Forall_lookup_2. intros b x Hx.
    destruct (Hrows b x Hx) as [idx ->].
    split; [by rw length_fmap length_replicate|].
    apply Forall_fmap, Forall_replicate. simpl.
    by rw length_mark length_replicate. }
  intros b Hb. destruct (Hin b) as (k & idx & ? & ? & ? & ? & Hg).
  { apply elem_of_seq. lia. }
  exists k, idx. split_and!; try done; try lia.
  intros c f m. rw /get3 Hg {1}/full3 lookup_replicate_2 //=.
  rw list_lookup_fmap.
  destruct (replicate C (replicate F false) !! c) as [y|] eqn:Hy; [|done].
  apply lookup_replicate_1 in Hy as [-> _]. simpl.
  rw lookup_mark. destruct (replicate F false !! f) as [v|] eqn:Hv; [|done].
  apply lookup_replicate_1 in Hv as [-> _]. simpl. intros [= <-].
  by case_decide; case_bool_decide.
Qed.
End Masks.

(** ** Guide tensors *)

Section GuideTensor.
Context {G : Type} `{RandomSource G}.
Import Guide.

Lemma guide_entry_cases t (m : bool) :
  binary t →
  let v := as_int8 (if m then to_guide_space t else 0%Q) in
  (v = -1 ∨ v = 0 ∨ v = 1) ∧ (v = 0 ↔ m = false) ∧ (m = true → v = 2 * t - 1).
Proof. intros [-> | ->]; destruct m; vm_compute; intuition congruence. Qed.

Lemma perturb_Some st (targets : tensor4 Z) (g : G) guides g' :
  perturb st targets g = Some (guides, g') ↔
  ∃ guided, randomize_parameters st targets g = Some (guided, g')
            ∧ apply_transform guided targets = Some guides.
Proof.
  unfold perturb, eff_bind. split.
  - destruct (randomize_parameters st targets g) as [[guided g1]|]; [|done].
    destruct (apply_transform guided targets) as [gs|] eqn:Ha; [|done].
    intros [= <- <-]. eauto.
  - intros (guided & -> & ->). done.
Qed.

End GuideTensor.

(** ** Calls of a guide strategy *)

Section GuideCalls.
Import Guide.

(** ** Samples selected by the Bernoulli mask *)

Lemma masked_nil_r {A} mask : masked mask (@nil A) = [].
Proof. by destruct mask. Qed.

Lemma masked_cons {A} m mask (x : A) l :
  masked (m :: mask) (x :: l)
  = if m then x :: masked mask l else masked mask l.
Proof.
  unfold masked. cbn [zip zip_with]. rw filter_cons. simpl.
  destruct m; by case_decide.
Qed.

Section Selection.
Context {A : Type}.
Implicit Types (mask : list bool) (l new : list A).

Lemma length_masked {B} mask l (k : list B) :
  length l = length k → length (masked mask l) = length (masked mask k).
Proof.
  revert l k. induction mask as [|m mask IH]; intros [|x l] [|y k] Hl;
    simplify_eq/=; try done.
  rw !masked_cons. destruct m; simpl; by rw (IH l k).
Qed.

Lemma Forall_masked (P : A → Prop) mask l :
  Forall P l → Forall P (masked mask l).
Proof.
  revert l. induction mask as [|m mask IH]; intros [|x l] Hl; try done.
  apply Forall_cons in Hl as [Hx Hl]. rw masked_cons.
  destruct m; [constructor|]; auto.
Qed.

Lemma masked_all n l : length l = n → masked (replicate n true) l = l.
Proof.
  revert l. induction n as [|n IH]; intros [|x l] Hl; simplify_eq/=; try done.
  rw masked_cons. by rw IH.
Qed.

Lemma length_masked_assign mask new l :
  length (masked_assign mask new l) = length l.
Proof.
  revert new l. induction mask as [|m mask IH]; intros new [|x l]; try done.
  - by destruct m.
  - destruct m, new; simpl; by rw IH.
Qed.

Lemma Forall_masked_assign (P : A → Prop) mask new l :
  Forall P new → Forall P l → Forall P (masked_assign mask new l).
Proof.
  revert new l. induction mask as [|m mask IH]; intros new [|x l] Hn Hl;
    try done.
  - by destruct m.
  - apply Forall_cons in Hl as [Hx Hl]. destruct m; simpl.
    + destruct Hn as [|y new Hy Hn]; constructor; auto.
    + constructor; auto.
Qed.

(** The [j]-th selected position [b]: [l[mask][j]] is [l[b]], and the
    assignment [l[mask] = new] stores [new[j]] there. *)
Lemma masked_lookup mask l new s j b :
  length new = length (masked mask l) →
  masked mask (seq s (length l)) !! j = Some b →
  (s ≤ b)%nat ∧ masked mask l !! j = l !! (b - s)%nat
  ∧ masked_assign mask new l !! (b - s)%nat = new !! j.
Proof.
  revert l new s j. induction mask as [|m mask IH]; intros [|x l] new s j Hn Hj;
    try done.
  change (seq s (length (x :: l))) with (s :: seq (S s) (length l)) in Hj. rw masked_cons in Hj. rw masked_cons in Hn.
  rw masked_cons. destruct m.
  - destruct new as [|y new]; [done|]. simpl in Hn.
    destruct j as [|j]; simpl in Hj.
    + injection Hj as <-. by rw Nat.sub_diag.
    + destruct (IH l new (S s) j) as (Hs & H1 & H2); [lia|done|].
      replace (b - s)%nat with (S (b - S s)) by lia. simpl. split; [lia|done].
  - destruct (IH l new (S s) j) as (Hs & H1 & H2); [done..|].
    replace (b - s)%nat with (S (b - S s)) by lia. simpl. split; [lia|done].
Qed.

(** A position that is not selected keeps its entry. *)
Lemma masked_assign_other mask l new s b :
  (s ≤ b)%nat → b ∉ masked mask (seq s (length l)) →
  masked_assign mask new l !! (b - s)%nat = l !! (b - s)%nat.
Proof.
  revert l new s. induction mask as [|m mask IH]; intros [|x l] new s Hs Hb;
    try done.
  { by destruct m. }
  change (seq s (length (x :: l))) with (s :: seq (S s) (length l)) in Hb. rw masked_cons in Hb.
  destruct (decide (b = s)) as [->|Hne].
  - rw Nat.sub_diag. destruct m; [set_solver|done].
  - replace (b - s)%nat with (S (b - S s)) by lia.
    destruct m; [destruct new|]; simpl; apply IH; try lia; set_solver.
Qed.
End Selection.

Lemma selected_samples_all n : selected_samples (replicate n true) = seq 0 n.
Proof.
  unfold selected_samples. rw length_replicate. apply masked_all.
  by rw length_seq.
Qed.

Lemma selected_samples_nil mask :
  selected_samples mask = [] ↔ ¬ Exists (λ a, a = true) mask.
Proof.
  unfold selected_samples. generalize 0%nat.
  induction mask as [|m mask IH]; intros s.
  { split; [|done]. intros _ H%Exists_nil. done. }
  cbn [length seq]. rw masked_cons Exists_cons. destruct m.
  - split; [done|]. intros []. by left.
  - rw IH. naive_solver.
Qed.

Section Bernoulli.
Context {T : Type} `{UniformSource T}.

Lemma length_bernoulli p n (t : T) : length (bernoulli p n t).1 = n.
Proof.
  revert t. induction n as [|n IH]; intros t; [done|].
  simpl. destruct (uniform t) as [u t1].
  specialize (IH t1). destruct (bernoulli p n t1) as [rest t2].
  simpl in *. by rw IH.
Qed.

(** With [p = 1.0] every sample is selected. *)
Lemma bernoulli_always p n (t : T) :
  (1 <= p)%Q → (bernoulli p n t).1 = replicate n true.
Proof.
  intros Hp. revert t. induction n as [|n IH]; intros t; [done|].
  simpl. pose proof (uniform_range t) as [_ Hu].
  destruct (uniform t) as [u t1].
  specialize (IH t1). destruct (bernoulli p n t1) as [rest t2].
  simpl in *. rw IH. rw bool_decide_eq_true_2 //. lra.
Qed.

End Bernoulli.

(** ** The draws of the random-frame strategy *)

Section FrameDraws.
Context {G : Type} `{RandomSource G}.

(** [random.randint(a, b)] is [a] plus one draw below [b - a + 1]: as
    uniform over [[a, b]] as the generator is over that range. *)
Lemma randint_draw a b (g : G) :
  a ≤ b →
  randint a b g
  = Some (a + Z.of_nat (randbelow g (Z.to_nat (b - a + 1))).1,
          (randbelow g (Z.to_nat (b - a + 1))).2).
Proof.
  intros Hab. unfold randint. case_decide; [lia|].
  by destruct (randbelow g (Z.to_nat (b - a + 1))).
Qed.

Lemma frame_draws_spec min_frames max_frames F n (g : G) draws g' :
  frame_draws min_frames max_frames F n g = Some (draws, g') →
  length draws = n
  ∧ ∀ j k idx, draws !! j = Some (k, idx) →
      min_frames ≤ k ≤ max_frames ∧ Z.of_nat (length idx) = k ∧ NoDup idx
      ∧ ∀ i, i ∈ idx → (i < F)%nat.
Proof.
  revert g draws. induction n as [|n IH]; intros g draws Hd.
  { injection Hd as <- <-. split; [done|]. by intros j k idx. }
  simpl in Hd. unfold eff_bind in Hd.
  destruct (randint min_frames max_frames g) as [[k0 g1]|] eqn:Hk; [|done].
  destruct (sample (seq 0 F) k0 g1) as [[idx0 g2]|] eqn:Hidx; [|done].
  destruct (frame_draws min_frames max_frames F n g2) as [[rest g3]|] eqn:Hrest;
    [|done].
  injection Hd as <- <-. destruct (IH _ _ Hrest) as [Hlen Hall].
  split; [by rw /= Hlen|]. intros [|j] k idx Hj; simpl in Hj.
  - injection Hj as <- <-. apply randint_range in Hk.
    apply sample_seq_spec in Hidx as (? & ? & ?). done.
  - by eapply Hall.
Qed.

Lemma frame_draws_is_Some min_frames max_frames F n (g : G) :
  0 ≤ min_frames ≤ max_frames → max_frames ≤ Z.of_nat F →
  is_Some (frame_draws min_frames max_frames F n g).
Proof.
  intros Hmin Hmax. revert g. induction n as [|n IH]; intros g; [by eexists|].
  simpl. unfold eff_bind.
  destruct (randint_is_Some min_frames max_frames g) as [[k g1] Hk]; [lia|].
  rw Hk. apply randint_range in Hk.
  destruct (sample_is_Some (seq 0 F) k g1) as [[idx g2] ->].
  { rw length_seq. lia. }
  destruct (IH g2) as [[rest g3] ->]. by eexists.
Qed.

(** The loop of [RandomFrameGuide.randomize_parameters] makes exactly the
    draws of [frame_draws], and marks for sample [b] the frames of its own
    draw. *)
Lemma random_frames_draws min_frames max_frames F s n guided (g : G)
    guided' g' :
  Guide.random_frames min_frames max_frames F (seq s n) guided g
  = Some (guided', g') →
  ∃ draws, frame_draws min_frames max_frames F n g = Some (draws, g')
    ∧ ∀ j k idx, draws !! j = Some (k, idx) →
        guided' !! (s + j)%nat
        = fmap (M := list) (Guide.mark idx) <$> guided !! (s + j)%nat.
Proof.
  revert s guided g. induction n as [|n IH]; intros s guided g Hr.
  { injection Hr as <- <-. exists []. split; [done|]. by intros j k idx. }
  pose proof Hr as Hr0.
  apply random_frames_spec in Hr0 as (_ & Hout & _); [|apply NoDup_seq].
  simpl in Hr. unfold eff_bind in Hr. simpl. unfold eff_bind.
  destruct (randint min_frames max_frames g) as [[k0 g1]|] eqn:Hk; [|done].
  destruct (sample (seq 0 F) k0 g1) as [[idx0 g2]|] eqn:Hidx; [|done].
  pose proof Hr as Hr1.
  apply random_frames_spec in Hr1 as (_ & Hout1 & _); [|apply NoDup_seq].
  destruct (IH _ _ _ Hr) as (rest & -> & Hrest).
  eexists. split; [done|]. intros [|j] k idx Hj; simpl in Hj.
  - injection Hj as <- <-. rw Nat.add_0_r. rw Hout1.
    { rw elem_of_seq. lia. }
    unfold Guide.set_frames. by rw list_lookup_alter_eq.
  - replace (s + S j)%nat with (S s + j)%nat by lia.
    rw (Hrest _ _ _ Hj). unfold Guide.set_frames.
    rw list_lookup_alter_ne //. lia.
Qed.

Lemma randomize_random_draws B C F S min_frames max_frames
    (targets : tensor4 Z) (g : G) guided g' :
  has_shape4 B C F S targets →
  Guide.randomize_parameters (Guide.RandomFrameGuide min_frames max_frames)
    targets g = Some (guided, g') →
  ∃ draws, frame_draws min_frames max_frames F B g = Some (draws, g')
    ∧ ∀ j k idx, draws !! j = Some (k, idx) →
        ∀ c f m, get3 guided j c f = Some m → m = bool_decide (f ∈ idx).
Proof.
  intros [Hs _]. unfold Guide.randomize_parameters. rw Hs. intros Hr.
  destruct (random_frames_draws _ _ _ _ _ _ _ _ _ Hr) as (draws & Hd & Hm).
  exists draws. split; [done|]. intros j k idx Hj c f m.
  rw /get3 (Hm _ _ _ Hj) /=.
  destruct (full3 B C F false !! j) as [x|] eqn:Hx; [|done].
  apply lookup_replicate_1 in Hx as [-> _]. simpl.
  rw list_lookup_fmap.
  destruct (replicate C (replicate F false) !! c) as [y|] eqn:Hy; [|done].
  apply lookup_replicate_1 in Hy as [-> _]. simpl.
  rw lookup_mark. destruct (replicate F false !! f) as [v|] eqn:Hv; [|done].
  apply lookup_replicate_1 in Hv as [-> _]. simpl. intros [= <-].
  by case_decide; case_bool_decide.
Qed.

(** Every strategy draws a mask of the leading shape of the targets. *)
Lemma randomize_shape st B C F S (targets : tensor4 Z) (g : G) guided g' :
  has_shape4 B C F S targets →
  randomize_parameters st targets g = Some (guided, g') →
  has_shape3 B C F guided.
Proof.
  intros Ht Hr. destruct st.
  - unfold randomize_parameters in Hr. destruct Ht as [Hs _]. rw Hs in Hr.
    injection Hr as <- <-. apply has_shape3_full3.
  - rw (randomize_no_guide B C F S) // in Hr. injection Hr as <- <-.
    apply has_shape3_full3.
  - unfold randomize_parameters in Hr. destruct Ht as [Hs _]. rw Hs in Hr.
    injection Hr as <- <-. apply has_shape3_full3.
  - destruct (randomize_first_half B C F S targets g Ht) as (gd & Hgd & Hsh & _).
    rw Hgd in Hr. by injection Hr as <- <-.
  - by destruct (randomize_random_frames B C F S _ _ _ _ _ _ Ht Hr).
Qed.
End FrameDraws.

(** ** Calling a strategy *)

Lemma get4_same_shape {A A'} B C F S (x : tensor4 A) (y : tensor4 A')
    b c f s :
  has_shape4 B C F S x → has_shape4 B C F S y →
  is_Some (get4 x b c f s) → is_Some (get4 y b c f s).
Proof.
  intros [_ Hx] [_ Hy] [v Hv]. unfold get4 in *.
  destruct (data4 x !! b) as [x1|] eqn:Hx1; simplify_eq/=.
  destruct (x1 !! c) as [x2|] eqn:Hx2; simplify_eq/=.
  destruct (x2 !! f) as [x3|] eqn:Hx3; simplify_eq/=.
  destruct (shaped_lookup_Some _ _ _ _ _ Hx Hx1) as [Hb Hs1].
  destruct (shaped_lookup_Some _ _ _ _ _ Hs1 Hx2) as [Hc Hs2].
  destruct (shaped_lookup_Some _ _ _ _ _ Hs2 Hx3) as [Hf Hs3].
  destruct (shaped_lookup _ _ _ _ Hy Hb) as (y1 & -> & Hy1). simpl.
  destruct (shaped_lookup _ _ _ _ Hy1 Hc) as (y2 & -> & Hy2). simpl.
  destruct (shaped_lookup _ _ _ _ Hy2 Hf) as (y3 & -> & Hy3). simpl.
  apply lookup_lt_is_Some_2. apply lookup_lt_Some in Hv. lia.
Qed.

Lemma get4_lt {A} B C F S (x : tensor4 A) b c f s v :
  has_shape4 B C F S x → get4 x b c f s = Some v → (b < B)%nat.
Proof.
  intros [_ [Hl _]] Hv. unfold get4 in Hv.
  destruct (data4 x !! b) as [x1|] eqn:Hx1; [|done].
  apply lookup_lt_Some in Hx1. lia.
Qed.

Lemma get3_lt {A} B C F (x : tensor3 A) b c f v :
  has_shape3 B C F x → get3 x b c f = Some v → (b < B)%nat.
Proof.
  intros [Hl _] Hv. unfold get3 in Hv.
  destruct (x !! b) as [x1|] eqn:Hx1; [|done].
  apply lookup_lt_Some in Hx1. lia.
Qed.

Section GuideCall.
Context {T G : Type} `{UniformSource T} `{RandomSource G}.

Lemma select_samples_shape B C F S mask (targets : tensor4 Z) :
  has_shape4 B C F S targets → length mask = B →
  has_shape4 (length (selected_samples mask)) C F S
    (select_samples mask targets).
Proof.
  intros [Hs [Hl Ht]] Hm. unfold select_samples. rw Hs.
  split; [|split; [|by apply Forall_masked]].
  - simpl. f_equal. f_equal. f_equal. apply length_masked.
    by rw length_seq Hm.
  - simpl. apply length_masked. by rw length_seq Hm.
Qed.

(** An empty batch gets the empty mask, without any draw. *)
Lemma randomize_empty st C F S (targets : tensor4 Z) (g : G) :
  shape4 targets = (0, C, F, S)%nat →
  randomize_parameters st targets g = Some ([], g).
Proof. intros Hs. unfold randomize_parameters. rw Hs. by destruct st. Qed.

(** The two paths of a call: no sample selected, or the transform applied
    to the selected samples and written back. *)
Lemma guide_eq p st B C F S (targets : tensor4 Z) (t : T) (g : G) :
  has_shape4 B C F S targets →
  guide p st targets (t, g)
  = if decide (selected_samples (bernoulli p B t).1 = []) then
      Some (targets, ((bernoulli p B t).2, g))
    else
      match perturb st (select_samples (bernoulli p B t).1 targets) g with
      | Some (perturbed, g') =>
          Some (Tensor4 (B, C, F, S)
                  (masked_assign (bernoulli p B t).1 (data4 perturbed)
                     (data4 targets)),
                ((bernoulli p B t).2, g'))
      | None => None
      end.
Proof.
  intros [Hs _]. unfold guide. rw Hs.
  destruct (bernoulli p B t) as [mask t'] eqn:Hb. cbn [fst snd].
  case_bool_decide as He; case_decide as Hd; try done.
  - by apply selected_samples_nil in Hd.
  - by apply selected_samples_nil in He.
Qed.

(** What a call returns: the samples that are not selected keep their
    targets; the selected ones, taken in order, are masked by the mask that
    [randomize_parameters] draws for them. *)
Lemma guide_inv p st B C F S (targets : tensor4 Z) (t : T) (g : G) guides s' :
  has_shape4 B C F S targets →
  guide p st targets (t, g) = Some (guides, s') →
  let should_apply := (bernoulli p B t).1 in
  let selected := selected_samples should_apply in
  has_shape4 B C F S guides
  ∧ (∀ b c f s, b ∉ selected → get4 guides b c f s = get4 targets b c f s)
  ∧ ∃ guided g',
      s' = ((bernoulli p B t).2, g')
      ∧ randomize_parameters st (select_samples should_apply targets) g
        = Some (guided, g')
      ∧ has_shape3 (length selected) C F guided
      ∧ ∀ j b c f s v, selected !! j = Some b →
          get4 targets b c f s = Some v →
          ∃ m, get3 guided j c f = Some m
            ∧ get4 guides b c f s
              = Some (as_int8 (if m then to_guide_space v else 0%Q)).
Proof.
  intros Ht Hg should_apply selected. rw (guide_eq p st B C F S) // in Hg.
  fold should_apply selected in Hg.
  pose proof (length_bernoulli p B t) as Hlen. fold should_apply in Hlen.
  pose proof (select_samples_shape B C F S should_apply targets Ht Hlen) as Hsel.
  fold selected in Hsel.
  case_decide as Hd.
  - injection Hg as <- <-. split; [done|]. split; [done|].
    exists [], g. split; [done|]. split.
    { apply (randomize_empty _ C F S). destruct Hsel as [-> _].
      fold selected. by rw Hd. }
    rw Hd. split; [by split|]. by intros j b c f s v.
  - destruct (perturb st (select_samples should_apply targets) g)
      as [[perturbed g']|] eqn:Hp; [|done].
    injection Hg as <- <-.
    apply perturb_Some in Hp as (guided & Hr & Ha).
    pose proof (randomize_shape _ _ _ _ _ _ _ _ _ Hsel Hr) as Hsh3.
    destruct (apply_transform_shape _ C F S guided _ Hsel Hsh3)
      as (perturbed' & Ha' & Hpsh).
    rw Ha in Ha'. injection Ha' as <-.
    assert (length (data4 targets) = length should_apply) as Hlt
      by (destruct Ht as [_ [-> _]]; done).
    split; [|split].
    + split; [done|]. simpl. destruct Ht as [_ [Hl Hall]].
      destruct Hpsh as [_ [_ Hpall]].
      split; [by rw length_masked_assign|]. by apply Forall_masked_assign.
    + intros b c f s Hb. unfold get4. simpl.
      pose proof (masked_assign_other should_apply (data4 targets)
                    (data4 perturbed) 0 b ltac:(lia)) as Ho.
      rw Hlt Nat.sub_0_r in Ho. by rw Ho.
    + exists guided, g'. split; [done|]. split; [done|]. split; [done|].
      intros j b c f s v Hj Hv.
      destruct (masked_lookup should_apply (data4 targets) (data4 perturbed)
                  0 j b) as (_ & Hsel1 & Hsel2).
      { destruct Hpsh as [_ [-> _]]. apply length_masked.
        by rw length_seq. }
      { by rw Hlt. }
      rw Nat.sub_0_r in Hsel1. rw Nat.sub_0_r in Hsel2.
      assert (get4 (select_samples should_apply targets) j c f s = Some v)
        as Hvsel.
      { unfold get4 in *. unfold select_samples.
        destruct Ht as [-> _]. simpl. by rw Hsel1. }
      destruct (get3_of_get4 _ C F S _ guided j c f s v Hsel Hsh3 Hvsel)
        as [m Hm].
      exists m. split; [done|].
      rw -(apply_transform_get _ _ _ _ _ _ _ _ _ Ha Hvsel Hm).
      unfold get4. simpl. by rw Hsel2.
Qed.

(** A call returns whenever the mask of the selected samples can be
    drawn. *)
Lemma guide_is_Some p st B C F S (targets : tensor4 Z) (t : T) (g : G) :
  has_shape4 B C F S targets →
  is_Some (randomize_parameters st
             (select_samples (bernoulli p B t).1 targets) g) →
  is_Some (guide p st targets (t, g)).
Proof.
  intros Ht [[guided g'] Hr]. rw (guide_eq p st B C F S) //.
  case_decide; [by eexists|].
  pose proof (select_samples_shape B C F S _ targets Ht
                (length_bernoulli p B t)) as Hsel.
  pose proof (randomize_shape _ _ _ _ _ _ _ _ _ Hsel Hr) as Hsh3.
  destruct (apply_transform_shape _ C F S guided _ Hsel Hsh3)
    as (perturbed & Ha & _).
  assert (perturb st (select_samples (bernoulli p B t).1 targets) g
          = Some (perturbed, g')) as -> by (apply perturb_Some; eauto).
  by eexists.
Qed.

(** With [p = 1.0] every sample is selected. *)
Lemma selected_always p B (t : T) :
  (1 <= p)%Q → selected_samples (bernoulli p B t).1 = seq 0 B.
Proof. intros Hp. by rw bernoulli_always // selected_samples_all. Qed.
End GuideCall.

Section GuideEntries.
Context {T G : Type} `{UniformSource T} `{RandomSource G}.

(** The entries of a returned guide, from a description [P] of the mask
    drawn for the selected samples: the [j]-th selected sample is non-zero
    exactly at the frames [P j] marks, a sample that is not selected is
    still its target. *)
Lemma guide_entries p st B C F S (P : nat → nat → Prop) (targets : tensor4 Z)
    (t : T) (g : G) guides s' guided g' :
  has_shape4 B C F S targets → binary4 targets →
  guide p st targets (t, g) = Some (guides, s') →
  randomize_parameters st (select_samples (bernoulli p B t).1 targets) g
  = Some (guided, g') →
  (∀ j c f m, get3 guided j c f = Some m → (m = true ↔ P j f)) →
  s' = ((bernoulli p B t).2, g')
  ∧ has_shape4 B C F S guides
  ∧ ∀ b c f s v, get4 guides b c f s = Some v →
      (∀ j, selected_samples (bernoulli p B t).1 !! j = Some b →
         (v = -1 ∨ v = 0 ∨ v = 1) ∧ (v ≠ 0 ↔ P j f))
      ∧ (b ∉ selected_samples (bernoulli p B t).1 →
         get4 targets b c f s = Some v).
Proof.
  intros Ht Hbin Hg Hr HP.
  destruct (guide_inv p st B C F S targets t g guides s' Ht Hg)
    as (Hsh & Hother & guided0 & g0 & -> & Hr0 & _ & Hsel).
  rw Hr in Hr0. injection Hr0 as <- <-.
  split; [done|]. split; [done|]. intros b c f s v Hv. split.
  - intros j Hj.
    destruct (get4_same_shape B C F S guides targets b c f s Hsh Ht)
      as [tv Htv]; [by eexists|].
    destruct (Hsel j b c f s tv Hj Htv) as (m & Hm & Hv').
    rw Hv in Hv'. injection Hv' as ->.
    destruct (guide_entry_cases tv m) as (Hv1 & Hv2 & _);
      [by eapply binary4_get|].
    split; [done|]. rw -(HP j c f m Hm) Hv2. by destruct m.
  - intros Hb. by rw -Hother.
Qed.
End GuideEntries.
End GuideCalls.

(** C1. For binary targets and a boolean mask of guided frames,
    [apply_transform] returns a guide of the shape of the targets whose
    entries are -1, 0 or +1; the entry at (sample, channel, frame, slot) is
    0 exactly when the frame is unguided, and on a guided frame it is
    2 x (target - 0.5): +1 for target 1 and -1 for target 0. The mask entry
    that decides this depends on the sample, channel and frame only, so
    every speaker slot of a frame is treated alike. *)
Theorem apply_transform_guide_values B C F S guided (targets : tensor4 Z) :
  has_shape4 B C F S targets → has_shape3 B C F guided → binary4 targets →
  ∃ guides, Guide.apply_transform guided targets = Some guides
    ∧ has_shape4 B C F S guides
    ∧ ∀ b c f s t, get4 targets b c f s = Some t →
        ∃ m v, get3 guided b c f = Some m ∧ get4 guides b c f s = Some v
          ∧ (v = -1 ∨ v = 0 ∨ v = 1)
          ∧ (v = 0 ↔ m = false)
          ∧ (m = true →
               (inject_Z v == 2 * (inject_Z t - (1 # 2)))%Q
               ∧ (t = 1 → v = 1) ∧ (t = 0 → v = -1)).
Proof.
  intros Ht Hg Hbin.
  destruct (apply_transform_shape B C F S guided targets Ht Hg)
    as (guides & Ha & Hsh).
  exists guides. split; [done|]. split; [done|].
  intros b c f s t Hget.
  destruct (get3_of_get4 B C F S targets guided b c f s t Ht Hg Hget) as [m Hm].
  exists m. eexists. split; [done|].
  split; [by eapply apply_transform_get|].
  pose proof (binary4_get _ _ _ _ _ _ Hbin Hget) as Hb.
  destruct (guide_entry_cases t m Hb) as (Hv1 & Hv2 & Hv3).
  split; [done|]. split; [done|]. intros ->. simpl.
  by destruct Hb as [-> | ->].
Qed.

Lemma apply_transform_guide_values_witness :
  let targets := Tensor4 (1, 1, 2, 2)%nat [[[[1; 0]; [0; 1]]]] in
  let guided := [[[true; false]]] in
  ∃ guides, Guide.apply_transform guided targets = Some guides
    ∧ has_shape4 1 1 2 2 guides
    ∧ ∀ b c f s t, get4 targets b c f s = Some t →
        ∃ m v, get3 guided b c f = Some m ∧ get4 guides b c f s = Some v
          ∧ (v = -1 ∨ v = 0 ∨ v = 1)
          ∧ (v = 0 ↔ m = false)
          ∧ (m = true →
               (inject_Z v == 2 * (inject_Z t - (1 # 2)))%Q
               ∧ (t = 1 → v = 1) ∧ (t = 0 → v = -1)).
Proof.
  apply (apply_transform_guide_values 1 1 2 2); solve_shape.
Defined.

(** C6. A strategy built with probability [p] is applied to the samples
    that its Bernoulli draws select, all of them when [p] is 1.0, which is
    how the task builds each of its strategies; a sample that is not
    selected keeps its target. On a batch of binary targets and for the
    selected samples: the no-guide strategy yields an all-zero guide; the
    first-half strategy yields a guide that is non-zero only (and, targets
    being binary, exactly) at frames below [num_frames // 2]; the
    random-frame strategy, whenever it returns, has called for every
    selected sample in turn [random.randint(min_frames, max_frames)], which
    is [min_frames] plus one draw below [max_frames - min_frames + 1], and
    then [random.sample] for that many frames: each sample gets its own [k]
    in [[min_frames, max_frames]] and [k] distinct frames, and its guide is
    non-zero at exactly those frames. The random-frame strategy returns
    whenever [0 <= min_frames <= max_frames <= num_frames]. *)
Theorem guide_strategies {T G} `{UniformSource T} `{RandomSource G} B C F S p
    (targets : tensor4 Z) (t : T) (g : G) :
  has_shape4 B C F S targets → binary4 targets →
  let selected := selected_samples (bernoulli p B t).1 in
  let t' := (bernoulli p B t).2 in
  ((1 <= p)%Q → selected = seq 0 B)
  ∧ Forall (λ ps, ps.1 = 1%Q) CollateFn.guidance
  ∧ (∃ guides,
       Guide.guide p Guide.NoGuide targets (t, g) = Some (guides, (t', g))
       ∧ has_shape4 B C F S guides
       ∧ ∀ b c f s v, get4 guides b c f s = Some v →
           (b ∈ selected → v = 0)
           ∧ (b ∉ selected → get4 targets b c f s = Some v))
  ∧ (∃ guides,
       Guide.guide p Guide.FirstHalfGuide targets (t, g)
       = Some (guides, (t', g))
       ∧ has_shape4 B C F S guides
       ∧ ∀ b c f s v, get4 guides b c f s = Some v →
           (b ∈ selected → (v ≠ 0 ↔ (f < F / 2)%nat))
           ∧ (b ∉ selected → get4 targets b c f s = Some v))
  ∧ ∀ min_frames max_frames,
      (∀ g0 : G, min_frames ≤ max_frames →
         randint min_frames max_frames g0
         = Some (min_frames
                 + Z.of_nat
                     (randbelow g0
                        (Z.to_nat (max_frames - min_frames + 1))).1,
                 (randbelow g0 (Z.to_nat (max_frames - min_frames + 1))).2))
      ∧ (0 ≤ min_frames ≤ max_frames → max_frames ≤ Z.of_nat F →
         is_Some (Guide.guide p (Guide.RandomFrameGuide min_frames max_frames)
                    targets (t, g)))
      ∧ ∀ guides s',
          Guide.guide p (Guide.RandomFrameGuide min_frames max_frames)
            targets (t, g) = Some (guides, s') →
          has_shape4 B C F S guides
          ∧ ∃ draws g',
              s' = (t', g')
              ∧ frame_draws min_frames max_frames F (length selected) g
                = Some (draws, g')
              ∧ (∀ j b, selected !! j = Some b →
                   ∃ k idx, draws !! j = Some (k, idx)
                     ∧ min_frames ≤ k ≤ max_frames
                     ∧ Z.of_nat (length idx) = k ∧ NoDup idx
                     ∧ (∀ i, i ∈ idx → (i < F)%nat)
                     ∧ ∀ c f s v, get4 guides b c f s = Some v →
                         (v ≠ 0 ↔ f ∈ idx))
              ∧ ∀ b c f s v, b ∉ selected →
                  get4 guides b c f s = Some v →
                  get4 targets b c f s = Some v.
Proof.
  intros Ht Hbin selected t'.
  pose proof (select_samples_shape B C F S (bernoulli p B t).1 targets Ht
                (length_bernoulli p B t)) as Hsel.
  fold selected in Hsel.
  split; [by apply selected_always|].
  split; [by repeat constructor|]. split_and!.
  - pose proof (randomize_no_guide _ C F S _ g Hsel) as Hr.
    destruct (guide_is_Some p Guide.NoGuide B C F S targets t g Ht)
      as [[guides s'] Hg]; [by eexists|].
    destruct (guide_entries p _ B C F S (λ _ _, False) targets t g guides s'
                _ _ Ht Hbin Hg Hr) as (-> & Hsh & Hv).
    { intros j c f m. rw get3_full3. case_decide; [|done]. by intros [= <-]. }
    exists guides. split; [done|]. split; [done|].
    intros b c f s v Hget. destruct (Hv _ _ _ _ _ Hget) as [Hin Hout].
    split; [|done]. intros (j & Hj)%list_elem_of_lookup.
    destruct (Hin j Hj) as [_ Hnz]. destruct (decide (v = 0)); [done|].
    exfalso. tauto.
  - destruct (randomize_first_half _ C F S _ g Hsel) as (guided & Hr & _ & Hm).
    destruct (guide_is_Some p Guide.FirstHalfGuide B C F S targets t g Ht)
      as [[guides s'] Hg]; [by eexists|].
    destruct (guide_entries p _ B C F S (λ _ f, (f < F / 2)%nat) targets t g
                guides s' _ _ Ht Hbin Hg Hr) as (-> & Hsh & Hv).
    { intros j c f m Hget. rw (Hm _ _ _ _ Hget). by case_bool_decide. }
    exists guides. split; [done|]. split; [done|].
    intros b c f s v Hget. destruct (Hv _ _ _ _ _ Hget) as [Hin Hout].
    split; [|done]. intros (j & Hj)%list_elem_of_lookup.
    by destruct (Hin j Hj).
  - intros min_frames max_frames. split; [|split].
    + intros g0 Hle. by apply randint_draw.
    + intros Hmin Hmax. apply (guide_is_Some p _ B C F S); [done|].
      unfold Guide.randomize_parameters. destruct Hsel as [-> _].
      by apply random_frames_is_Some.
    + intros guides s' Hg.
      destruct (guide_inv p _ B C F S targets t g guides s' Ht Hg)
        as (Hsh & _ & guided & g' & _ & Hr & _ & _).
      destruct (randomize_random_draws _ C F S _ _ _ _ _ _ Hsel Hr)
        as (draws & Hd & Hm).
      destruct (frame_draws_spec _ _ _ _ _ _ _ Hd) as [Hlen Hdraws].
      pose (P := λ (j f : nat), ∃ k idx, draws !! j = Some (k, idx) ∧ f ∈ idx).
      destruct (guide_entries p _ B C F S P targets t g guides s' _ _ Ht Hbin
                  Hg Hr) as (-> & _ & Hv).
      { intros j c f m Hget.
        pose proof (get3_lt _ _ _ _ _ _ _ _
                      (randomize_shape _ _ _ _ _ _ _ _ _ Hsel Hr) Hget) as Hj.
        destruct (lookup_lt_is_Some_2 draws j) as [[k idx] Hkidx]; [lia|].
        rw (Hm _ _ _ Hkidx _ _ _ Hget). unfold P. rw Hkidx.
        case_bool_decide; naive_solver. }
      split; [done|]. exists draws, g'. split_and!; try done.
      * intros j b Hj.
        destruct (lookup_lt_is_Some_2 draws j) as [[k idx] Hkidx].
        { rw Hlen. by eapply lookup_lt_Some. }
        destruct (Hdraws _ _ _ Hkidx) as (? & ? & ? & ?).
        exists k, idx. split_and!; try done; try lia.
        intros c f s v Hget. destruct (Hv _ _ _ _ _ Hget) as [Hin _].
        destruct (Hin j Hj) as [_ ->]. unfold P. rw Hkidx. naive_solver.
      * intros b c f s v Hb Hget. by apply (Hv _ _ _ _ _ Hget).
Qed.

(** ** Matrices and their columns *)

Section Matrices.
Implicit Types (a : ndarray) (r : list Z).

Lemma fmap_lookup_total_seq {A} `{!Inhabited A} (l : list A) :
  (λ j, l !!! j) <$> seq 0 (length l) = l.
Proof.
  apply list_eq. intros i. rw list_lookup_fmap.
  destruct (decide (i < length l)%nat) as [Hi|Hi].
  - rw lookup_seq_lt //=. by rw list_lookup_lookup_total_lt.
  - rw lookup_seq_ge; [lia|]. symmetry. apply lookup_ge_None. lia.
Qed.

Lemma length_columns a : length (columns a) = ncols a.
Proof. by rw /columns /= length_fmap length_seq. Qed.

Lemma wf_transpose a : wf_ndarray a → wf_ndarray (transpose a).
Proof.
  intros [Hl _]. split; [by rw /= length_fmap length_seq|].
  apply Forall_fmap, Forall_true. intros j. simpl.
  by rw /column length_fmap.
Qed.

Lemma Forall_columns_length a :
  wf_ndarray a → Forall (λ c, length c = nrows a) (columns a).
Proof.
  intros [Hl _]. apply Forall_fmap, Forall_true. intros j. simpl.
  by rw /column length_fmap.
Qed.

Lemma transpose_involutive a : wf_ndarray a → transpose (transpose a) = a.
Proof.
  intros [Hl Hr]. destruct a as [n m rs]. simpl in *. unfold transpose.
  simpl. f_equal. subst n.
  transitivity ((λ f, rs !!! f) <$> seq 0 (length rs));
    [|apply fmap_lookup_total_seq].
  apply list_fmap_ext. intros f ? [-> Hf]%lookup_seq. simpl.
  destruct (lookup_lt_is_Some_2 rs f Hf) as [r Hr'].
  rw (list_lookup_total_correct rs f r) //.
  eapply Forall_lookup_1 in Hr; [|done]. simpl in Hr. subst m.
  transitivity ((λ j, r !!! j) <$> seq 0 (length r));
    [|apply fmap_lookup_total_seq].
  unfold column. rw -list_fmap_compose. apply list_fmap_ext.
  intros j ? [-> Hj]%lookup_seq. simpl.
  rw list_lookup_total_fmap; [done|].
  rw (list_lookup_total_correct _ _ _ Hr') //.
Qed.

(** A matrix given by its columns. *)
Lemma columns_of_columns n m cols :
  length cols = m → Forall (λ c, length c = n) cols →
  columns (transpose (NdArray m n cols)) = cols.
Proof.
  intros Hl Hc. unfold columns.
  by rw transpose_involutive.
Qed.

Lemma columns_pad k a :
  wf_ndarray a →
  columns (pad_columns k a) = columns a ++ replicate k (replicate (nrows a) 0).
Proof.
  intros [Hl Hr]. rw /columns /= seq_app fmap_app. f_equal.
  - apply list_fmap_ext. intros j ? [-> Hj]%lookup_seq. simpl.
    rw /column /= -list_fmap_compose. apply Forall_fmap_ext_1.
    eapply Forall_impl; [done|]. intros r Hlen. simpl in *.
    rw lookup_total_app_l //. lia.
  - apply list_eq_same_length with k;
      [by rw length_replicate|by rw length_fmap length_seq|].
    intros i x y Hi. rw list_lookup_fmap lookup_seq_lt // lookup_replicate_2 //=.
    intros [= <-] [= <-]. rw /column /= -list_fmap_compose -Hl.
    apply list_eq_same_length with (length (rows a));
      [by rw length_replicate|by rw length_fmap|].
    intros f x y Hf. rw list_lookup_fmap lookup_replicate_2 //.
    destruct (rows a !! f) as [r|] eqn:Hrf; [|done]. simpl.
    intros [= <-] [= <-]. eapply Forall_lookup_1 in Hr; [|done].
    simpl in Hr. rw lookup_total_app_r; [lia|].
    rw lookup_total_replicate_2 //. lia.
Qed.

Lemma wf_pad k a : wf_ndarray a → wf_ndarray (pad_columns k a).
Proof.
  intros [Hl Hr]. split; [by rw /= length_fmap|].
  apply Forall_fmap. eapply Forall_impl; [done|]. intros r Hr'. simpl in *.
  rw length_app length_replicate. lia.
Qed.

Lemma wf_select idx a : wf_ndarray a → wf_ndarray (select_columns idx a).
Proof.
  intros [Hl Hr]. split; [by rw /= length_fmap|].
  apply Forall_fmap, Forall_true. intros r. by rw /= length_fmap.
Qed.

Lemma length_argsort `{Argsort} v : length (argsort v) = length v.
Proof. by rw (argsort_Permutation v) length_seq. Qed.

Lemma length_sum_axis0 a : length (sum_axis0 a) = ncols a.
Proof. by rw /sum_axis0 length_fmap /= length_fmap length_seq. Qed.
End Matrices.

(** ** Shuffling *)

Section Shuffle.
Context {G : Type} `{RandomSource G}.

Lemma insert_cons_Permutation {A} (l : list A) j x y :
  l !! j = Some y → y :: <[j := x]> l ≡ₚ x :: l.
Proof.
  revert j. induction l as [|a l IH]; intros [|j] Hj; simplify_eq/=.
  - apply perm_swap.
  - rw perm_swap. rw (IH j Hj). apply perm_swap.
Qed.

Lemma swap_Permutation {A} i j (l : list A) : swap i j l ≡ₚ l.
Proof.
  unfold swap. revert i j. induction l as [|a l IH]; intros i j; [done|].
  destruct i as [|i], j as [|j]; simpl.
  - done.
  - destruct (l !! j) as [y|] eqn:Hy; [|done].
    by apply insert_cons_Permutation.
  - destruct (l !! i) as [x|] eqn:Hx; [|done].
    by apply insert_cons_Permutation.
  - specialize (IH i j). destruct (l !! i), (l !! j); try done.
    by f_equiv.
Qed.

Lemma shuffle_from_Permutation {A} i (l : list A) (g : G) :
  (shuffle_from i l g).1 ≡ₚ l.
Proof.
  revert l g. induction i as [|i IH]; intros l g; [done|]. simpl.
  destruct (randbelow g (S (S i))) as [j g']. rw IH.
  apply swap_Permutation.
Qed.

Lemma shuffle_Permutation {A} (l : list A) (g : G) : (shuffle l g).1 ≡ₚ l.
Proof. apply shuffle_from_Permutation. Qed.

(** Shuffling the transposed view permutes the columns and keeps the
    shape. *)
Lemma shuffle_columns_spec a (g : G) :
  wf_ndarray a →
  let a' := (shuffle_columns a g).1 in
  wf_ndarray a' ∧ nrows a' = nrows a ∧ ncols a' = ncols a
  ∧ columns a' ≡ₚ columns a.
Proof.
  intros Hwf. unfold shuffle_columns.
  pose proof (shuffle_Permutation (rows (transpose a)) g) as Hp.
  destruct (shuffle (rows (transpose a)) g) as [cols g']. simpl in *.
  assert (length cols = ncols a) as Hlen.
  { rw Hp. by rw length_fmap length_seq. }
  assert (Forall (λ c, length c = nrows a) cols) as Hcols.
  { rw Hp. by apply Forall_columns_length. }
  split_and!; [|done..|].
  - by apply wf_transpose.
  - rw columns_of_columns //.
Qed.
End Shuffle.

(** ** One sample through the speaker budget selector *)

Section CollateSample.
Context {G : Type} `{RandomSource G} `{Argsort}.
Variable max_speakers_per_chunk : nat.
Import Collate.

Lemma collate_sample_spec b (σ : store G) a :
  heap σ !! data b = Some a → wf_ndarray a → ncols a = length (labels b) →
  ∃ l a' g',
    collate_sample max_speakers_per_chunk b σ
    = Some (l, Store (<[l := a']> (heap σ)) g')
    ∧ wf_ndarray a' ∧ nrows a' = nrows a ∧ ncols a' = max_speakers_per_chunk
    ∧ (length (labels b) = max_speakers_per_chunk →
         l = data b ∧ columns a' ≡ₚ columns a)
    ∧ (length (labels b) ≠ max_speakers_per_chunk → l ∉ dom (heap σ))
    ∧ ((length (labels b) < max_speakers_per_chunk)%nat →
         columns a' ≡ₚ
           columns a ++ zero_columns (nrows a)
                          (max_speakers_per_chunk - length (labels b))).
Proof.
  intros Ha Hwf Hcols. unfold collate_sample, eff_bind.
  destruct (decide (max_speakers_per_chunk < length (labels b))%nat) as [Hgt|Hle];
    [|destruct (decide (length (labels b) < max_speakers_per_chunk)%nat)
        as [Hlt|Hge]].
  - (* more speakers than the budget *)
    unfold load, alloc. rw Ha. simpl.
    set (sel := select_columns _ a).
    set (l := fresh (dom (heap σ))).
    unfold shuffle_in_place. simpl. rw lookup_insert_eq.
    pose proof (shuffle_columns_spec sel (rng σ)) as Hs.
    destruct (shuffle_columns sel (rng σ)) as [a' g']. simpl in Hs.
    destruct Hs as (Hwf' & Hr & Hc & Hp); [by apply wf_select|].
    exists l, a', g'. rw insert_insert_eq.
    assert (ncols sel = max_speakers_per_chunk) as Hsel.
    { rw /= length_take length_argsort /uint64_neg length_fmap
        length_sum_axis0. lia. }
    split_and!; try done; try lia.
    + rw Hc. exact Hsel.
    + intros _. apply is_fresh.
  - (* fewer speakers than the budget *)
    unfold load, alloc. rw Ha. simpl.
    set (pad := pad_columns _ a).
    set (l := fresh (dom (heap σ))).
    unfold shuffle_in_place. simpl. rw lookup_insert_eq.
    pose proof (shuffle_columns_spec pad (rng σ)) as Hs.
    destruct (shuffle_columns pad (rng σ)) as [a' g']. simpl in Hs.
    destruct Hs as (Hwf' & Hr & Hc & Hp); [by apply wf_pad|].
    exists l, a', g'. rw insert_insert_eq.
    assert (ncols pad = max_speakers_per_chunk) as Hpad by (simpl; lia).
    split_and!; try done; try lia.
    + intros _. apply is_fresh.
    + intros _. rw Hp. by rw columns_pad.
  - (* exactly the budget *)
    unfold eff_ret, shuffle_in_place. rw Ha.
    pose proof (shuffle_columns_spec a (rng σ)) as Hs.
    destruct (shuffle_columns a (rng σ)) as [a' g']. simpl in Hs.
    destruct Hs as (Hwf' & Hr & Hc & Hp); [done|].
    exists (data b), a', g'. split_and!; try done; try lia.
Qed.
End CollateSample.

(** ** A batch through the speaker budget selector *)

Section CollateBatch.
Context {G : Type} `{RandomSource G} `{Argsort}.
Variable max_speakers_per_chunk : nat.
Import Collate.

Lemma col_perm_refl a : wf_ndarray a → col_perm a a.
Proof. by intros Hwf. Qed.

Lemma col_perm_trans a1 a2 a3 : col_perm a1 a2 → col_perm a2 a3 → col_perm a1 a3.
Proof.
  intros (? & ? & ? & Hp1) (? & ? & ? & Hp2).
  split_and!; try done; try congruence. by rw Hp2.
Qed.

Lemma collate_samples_spec F batch (σ : store G) :
  batch_ok F (heap σ) batch →
  ∃ refs σ',
    eff_mapM (collate_sample max_speakers_per_chunk) batch σ = Some (refs, σ')
    ∧ length refs = length batch
    ∧ (∀ l a, heap σ !! l = Some a →
         (∀ b, b ∈ batch → data b = l →
               length (labels b) ≠ max_speakers_per_chunk) →
         heap σ' !! l = Some a)
    ∧ (∀ l a, heap σ !! l = Some a → wf_ndarray a →
         ∃ a', heap σ' !! l = Some a' ∧ col_perm a a')
    ∧ (∀ i b l, batch !! i = Some b → refs !! i = Some l →
         ∃ a a', heap σ !! data b = Some a ∧ heap σ' !! l = Some a'
           ∧ wf_ndarray a' ∧ nrows a' = F ∧ ncols a' = max_speakers_per_chunk
           ∧ (length (labels b) = max_speakers_per_chunk → l = data b)
           ∧ ((length (labels b) < max_speakers_per_chunk)%nat →
                columns a' ≡ₚ
                  columns a ++ zero_columns F
                    (max_speakers_per_chunk - length (labels b)))).
Proof.
  revert σ. induction batch as [|b batch IH]; intros σ Hok.
  { exists [], σ. split_and!; try done. intros l a Hl Hwf. exists a.
    split; [done|]. by apply col_perm_refl. }
  apply Forall_cons in Hok as [(a & Ha & Hwf & HF & Hcols) Hok].
  destruct (collate_sample_spec max_speakers_per_chunk b σ a Ha Hwf Hcols)
    as (l & a' & g' & Hstep & Hwf' & Hr' & Hc' & Heq & Hne & Hlt).
  set (σ1 := Store (<[l := a']> (heap σ)) g') in *.
  (* a location of the initial store that the step wrote to *)
  assert (∀ l0 a0, heap σ !! l0 = Some a0 → l0 = l →
            length (labels b) = max_speakers_per_chunk ∧ l = data b
            ∧ a0 = a ∧ col_perm a a') as Hsame.
  { intros l0 a0 Hl0 ->.
    destruct (decide (length (labels b) = max_speakers_per_chunk)) as [He|He].
    - destruct (Heq He) as [-> Hp]. rw Ha in Hl0. injection Hl0 as <-.
      unfold col_perm. split_and!; try done; congruence.
    - exfalso. apply (Hne He). apply elem_of_dom. by eexists. }
  assert (batch_ok F (heap σ1) batch) as Hok1.
  { eapply Forall_impl; [done|]. intros b' (a1 & Ha1 & Hwf1 & HF1 & Hc1). simpl.
    destruct (decide (data b' = l)) as [Hl|Hl].
    - destruct (Hsame _ _ Ha1 Hl) as (He & _ & -> & _).
      exists a'. rw Hl lookup_insert_eq. split_and!; try done; congruence.
    - exists a1. by rw lookup_insert_ne. }
  destruct (IH σ1 Hok1) as (refs & σ' & Hrest & Hlen & Hframe & Hplace & Hres).
  exists (l :: refs), σ'. split_and!.
  - simpl. unfold eff_bind. by rw Hstep Hrest.
  - simpl. by rw Hlen.
  - intros l0 a0 Hl0 Hno. apply Hframe.
    + simpl. rw lookup_insert_ne //. intros <-.
      destruct (Hsame _ _ Hl0 eq_refl) as (He & Hd & _).
      apply (Hno b); [set_solver|done..].
    + intros b' Hb'. apply Hno. set_solver.
  - intros l0 a0 Hl0 Hwf0. destruct (decide (l0 = l)) as [Hl|Hl].
    + destruct (Hsame _ _ Hl0 Hl) as (_ & _ & -> & Hp). subst l0.
      destruct (Hplace l a') as (a'' & Ha'' & Hp'');
        [by rw /= lookup_insert_eq|done|].
      exists a''. split; [done|]. by eapply col_perm_trans.
    + apply Hplace; [|done]. by rw /= lookup_insert_ne.
  - intros [|i] b0 l0 Hb0 Hl0; simplify_eq/=.
    + destruct (Hplace l0 a') as (a'' & Ha'' & Hwf'' & Hr'' & Hc'' & Hp'');
        [by rw /= lookup_insert_eq|done|].
      exists a, a''. split_and!; try done; try congruence.
      * intros He. by destruct (Heq He).
      * intros Hl. rw Hp'' (Hlt Hl). done.
    + destruct (Hres i b0 l0 Hb0 Hl0)
        as (a1 & a'' & Ha1 & Ha'' & Hwf'' & Hr'' & Hc'' & He'' & Hlt'').
      simpl in Ha1. destruct (decide (data b0 = l)) as [Hl|Hl].
      * rw Hl lookup_insert_eq in Ha1. injection Ha1 as <-.
        destruct (Forall_lookup_1 _ _ _ _ Hok Hb0)
          as (a0 & Ha0 & _).
        destruct (Hsame _ _ Ha0 Hl) as (_ & _ & -> & (_ & _ & _ & Hp)).
        exists a, a''. split_and!; try done.
        intros Hl'. rw (Hlt'' Hl'). by rw Hp.
      * rw lookup_insert_ne // in Ha1. exists a1, a''. split_and!; done.
Qed.

Lemma eff_mapM_load refs (σ : store G) :
  (∀ l, l ∈ refs → is_Some (heap σ !! l)) →
  ∃ arrays, eff_mapM load refs σ = Some (arrays, σ)
    ∧ Forall2 (λ l a, heap σ !! l = Some a) refs arrays.
Proof.
  induction refs as [|l refs IH]; intros Hin.
  { exists []. split; [done|]. constructor. }
  destruct (Hin l) as [a Ha]; [set_solver|].
  destruct IH as (arrays & Hm & Hf); [intros; apply Hin; set_solver|].
  exists (a :: arrays). split; [|by constructor].
  simpl. unfold eff_bind, load at 1. by rw Ha Hm.
Qed.

Lemma stack_Some F S arrays :
  arrays ≠ [] → Forall (λ a, nrows a = F ∧ ncols a = S) arrays →
  stack arrays = Some arrays.
Proof.
  intros Hne Hall. destruct arrays as [|a arrays]; [done|]. unfold stack.
  rw decide_True //. apply Forall_cons in Hall as Hall'.
  destruct Hall' as [[-> ->] _]. done.
Qed.
End CollateBatch.

(** ** Active speakers *)

Section ActiveSpeakers.
Import Loss.

Lemma num_speakers_columns a :
  num_speakers a = length (filter (λ b : bool, b) (is_active <$> columns a)).
Proof. done. Qed.

Lemma num_speakers_le_ncols a : (num_speakers a ≤ ncols a)%nat.
Proof.
  unfold num_speakers. etrans; [apply length_filter|].
  rw /any_axis0 length_fmap /= length_fmap length_seq. lia.
Qed.

Lemma num_speakers_Permutation a cols :
  columns a ≡ₚ cols →
  num_speakers a = length (filter (λ b : bool, b) (is_active <$> cols)).
Proof. intros Hp. by rw num_speakers_columns Hp. Qed.

Lemma no_active_zero_columns n k :
  filter (λ b : bool, b) (is_active <$> zero_columns n k) = [].
Proof.
  unfold zero_columns. rw fmap_replicate.
  assert (is_active (replicate n 0) = false) as ->.
  { apply bool_decide_eq_false. intros (v & Hv & Hne)%Exists_exists.
    by apply elem_of_replicate in Hv as [-> _]. }
  induction k as [|k IH]; [done|]. simpl. rw filter_cons_False; [|done].
  by intros ?.
Qed.

(** Padding and shuffling leave the number of speakers unchanged. *)
Lemma num_speakers_padded a a' n k :
  columns a' ≡ₚ columns a ++ zero_columns n k →
  num_speakers a' = num_speakers a.
Proof.
  intros Hp. rw (num_speakers_Permutation a' _ Hp) fmap_app filter_app.
  by rw no_active_zero_columns app_nil_r.
Qed.
End ActiveSpeakers.

(** ** The speaker budget selector *)

Section CollateY.
Context {G : Type} `{RandomSource G} `{Argsort}.
Variable max_speakers_per_chunk : nat.
Import Collate.

(** [collate_y] as a whole: the references the loop collected, and the
    arrays read through them when stacking. *)
Lemma collate_y_Some F batch (σ : store G) :
  batch ≠ [] → batch_ok F (heap σ) batch →
  ∃ refs out σ',
    eff_mapM (collate_sample max_speakers_per_chunk) batch σ = Some (refs, σ')
    ∧ collate_y max_speakers_per_chunk batch σ = Some (out, σ')
    ∧ Forall2 (λ l a, heap σ' !! l = Some a) refs out.
Proof.
  intros Hne Hok.
  destruct (collate_samples_spec max_speakers_per_chunk F batch σ Hok)
    as (refs & σ' & Hrefs & Hlen & _ & _ & Hres).
  destruct (eff_mapM_load refs σ') as (out & Hload & Hout).
  { intros l (i & Hi)%list_elem_of_lookup.
    destruct (lookup_lt_is_Some_2 batch i) as [b Hb].
    { rw -Hlen. by eapply lookup_lt_Some. }
    destruct (Hres i b l Hb Hi) as (? & a' & _ & -> & _). by eexists. }
  exists refs, out, σ'. split; [done|]. split; [|done].
  unfold collate_y, eff_bind. rw Hrefs Hload.
  rw (stack_Some F max_speakers_per_chunk); [| |done].
  - intros ->. apply Forall2_nil_inv_r in Hout as ->.
    destruct batch; [done|]. simpl in Hlen. lia.
  - apply Forall_lookup_2. intros i a Ha.
    destruct (Forall2_lookup_r _ _ _ _ _ Hout Ha) as (l & Hl & Hla).
    destruct (lookup_lt_is_Some_2 batch i) as [b Hb].
    { rw -Hlen. by eapply lookup_lt_Some. }
    destruct (Hres i b l Hb Hl) as (? & a' & _ & Ha' & _ & ? & ? & _).
    rw Hla in Ha'. by injection Ha' as <-.
Qed.
End CollateY.

(** The collated targets all have the shape
    [(num_frames, max_speakers_per_chunk)], and there is at least one. *)
Lemma collate_y_shapes {G} `{RandomSource G} `{Argsort} max_speakers_per_chunk F
    batch (σ : store G) out σ' :
  batch_ok F (heap σ) batch →
  Collate.collate_y max_speakers_per_chunk batch σ = Some (out, σ') →
  out ≠ []
  ∧ Forall (λ a, nrows a = F ∧ ncols a = max_speakers_per_chunk) out.
Proof.
  intros Hok Hy.
  assert (batch ≠ []) as Hne by (by intros ->).
  destruct (collate_y_Some max_speakers_per_chunk F batch σ Hne Hok)
    as (refs & out0 & σ0 & Hrefs & Hy0 & Hout).
  rw Hy in Hy0. injection Hy0 as <- <-.
  destruct (collate_samples_spec max_speakers_per_chunk F batch σ Hok)
    as (refs' & σ'' & Hrefs' & Hlen & _ & _ & Hres).
  rw Hrefs in Hrefs'. injection Hrefs' as <- <-.
  pose proof (Forall2_length _ _ _ Hout) as Hlen'. split.
  - intros ->. destruct batch; [done|]. simpl in *. lia.
  - apply Forall_lookup_2. intros i a Ha.
    destruct (Forall2_lookup_r _ _ _ _ _ Hout Ha) as (l & Hl & Hla).
    destruct (lookup_lt_is_Some_2 batch i) as [b Hb].
    { rw -Hlen. by eapply lookup_lt_Some. }
    destruct (Hres i b l Hb Hl) as (? & a' & _ & Ha' & _ & ? & ? & _).
    rw Hla in Ha'. by injection Ha' as <-.
Qed.

(** C4. Whatever the number of labels of a sample (more than, fewer than
    or exactly the budget, zero included), its collated target has exactly
    [num_frames] rows of exactly [max_speakers_per_chunk] entries each; and
    when the sample has fewer labels than the budget, the columns of the
    collated target are, up to order, the columns of the input followed by
    all-zero columns, so that padding adds no active speaker. *)
Theorem collate_y_fixed_width {G} `{RandomSource G} `{Argsort} max_speakers_per_chunk F
    batch (σ : store G) :
  batch ≠ [] → batch_ok F (heap σ) batch →
  ∃ out σ',
    Collate.collate_y max_speakers_per_chunk batch σ = Some (out, σ')
    ∧ length out = length batch
    ∧ ∀ i b, batch !! i = Some b →
        ∃ a a', heap σ !! Collate.data b = Some a ∧ out !! i = Some a'
          ∧ nrows a' = F ∧ ncols a' = max_speakers_per_chunk
          ∧ length (rows a') = F
          ∧ Forall (λ r, length r = max_speakers_per_chunk) (rows a')
          ∧ ((length (Collate.labels b) < max_speakers_per_chunk)%nat →
               columns a' ≡ₚ
                 columns a ++ zero_columns F
                   (max_speakers_per_chunk - length (Collate.labels b))
               ∧ Loss.num_speakers a' = Loss.num_speakers a).
Proof.
  intros Hne Hok.
  destruct (collate_y_Some max_speakers_per_chunk F batch σ Hne Hok)
    as (refs & out & σ' & Hrefs & Hy & Hout).
  destruct (collate_samples_spec max_speakers_per_chunk F batch σ Hok)
    as (refs' & σ'' & Hrefs' & Hlen & _ & _ & Hres).
  rw Hrefs in Hrefs'. injection Hrefs' as <- <-.
  exists out, σ'. split; [done|].
  split; [by rw -(Forall2_length _ _ _ Hout)|].
  intros i b Hb.
  destruct (lookup_lt_is_Some_2 refs i) as [l Hl].
  { rw Hlen. by eapply lookup_lt_Some. }
  destruct (Hres i b l Hb Hl)
    as (a & a' & Ha & Ha' & [Hwf1 Hwf2] & Hr & Hc & _ & Hlt).
  destruct (Forall2_lookup_l _ _ _ _ _ Hout Hl) as (a'' & Ha'' & Hla).
  rw Hla in Ha'. injection Ha' as ->.
  exists a, a'. do 5 (split; [done || congruence|]). split.
  - eapply Forall_impl; [done|]. intros r Hlen'. simpl in *. congruence.
  - intros Hlt'. split; [by apply Hlt|].
    eapply num_speakers_padded. by apply Hlt.
Qed.

Lemma collate_y_fixed_width_witness :
  let σ : store tape :=
    Store {[ 0%nat := NdArray 2 1 [[1]; [0]];
             1%nat := NdArray 2 0 [[]; []] ]} [1; 0; 2]%nat in
  let batch := [ {| Collate.data := 0%nat; Collate.labels := [7] |};
                 {| Collate.data := 1%nat; Collate.labels := [] |} ] in
  ∃ out σ',
    Collate.collate_y 2 batch σ = Some (out, σ')
    ∧ length out = length batch
    ∧ ∀ i b, batch !! i = Some b →
        ∃ a a', heap σ !! Collate.data b = Some a ∧ out !! i = Some a'
          ∧ nrows a' = 2%nat ∧ ncols a' = 2%nat
          ∧ length (rows a') = 2%nat
          ∧ Forall (λ r, length r = 2%nat) (rows a')
          ∧ ((length (Collate.labels b) < 2)%nat →
               columns a' ≡ₚ
                 columns a ++ zero_columns 2 (2 - length (Collate.labels b))
               ∧ Loss.num_speakers a' = Loss.num_speakers a).
Proof.
  apply (collate_y_fixed_width 2 2); [done|].
  repeat constructor; eexists; (split; [by vm_compute|]); solve_shape.
Defined.

(** C9 (as amended). [collate_y] leaves the array of a sample unchanged
    when the sample has more or fewer labels than the budget: it then works
    on a copy (this holds for every array that no exact-width sample of the
    batch refers to). The array of a sample with exactly
    [max_speakers_per_chunk] labels is shuffled in place: after the call it
    holds the columns it held before in some order, and the collated target
    of that sample is the content of that very array. *)
Theorem collate_y_input_arrays {G} `{RandomSource G} `{Argsort} max_speakers_per_chunk F
    batch (σ : store G) out σ' :
  batch_ok F (heap σ) batch →
  Collate.collate_y max_speakers_per_chunk batch σ = Some (out, σ') →
  (∀ l a, heap σ !! l = Some a →
     (∀ b, b ∈ batch → Collate.data b = l →
           length (Collate.labels b) ≠ max_speakers_per_chunk) →
     heap σ' !! l = Some a)
  ∧ (∀ i b, batch !! i = Some b →
       length (Collate.labels b) = max_speakers_per_chunk →
       ∃ a a', heap σ !! Collate.data b = Some a
         ∧ heap σ' !! Collate.data b = Some a'
         ∧ out !! i = Some a' ∧ col_perm a a').
Proof.
  intros Hok Hy.
  assert (batch ≠ []) as Hne by (by intros ->).
  destruct (collate_y_Some max_speakers_per_chunk F batch σ Hne Hok)
    as (refs & out0 & σ0 & Hrefs & Hy0 & Hout).
  rw Hy in Hy0. injection Hy0 as <- <-.
  destruct (collate_samples_spec max_speakers_per_chunk F batch σ Hok)
    as (refs' & σ'' & Hrefs' & Hlen & Hframe & Hplace & Hres).
  rw Hrefs in Hrefs'. injection Hrefs' as <- <-.
  split; [done|]. intros i b Hb He.
  destruct (lookup_lt_is_Some_2 refs i) as [l Hl].
  { rw Hlen. by eapply lookup_lt_Some. }
  destruct (Hres i b l Hb Hl) as (a & a' & Ha & Ha' & _ & _ & _ & Hd & _).
  specialize (Hd He). subst l.
  destruct (Forall_lookup_1 _ _ _ _ Hok Hb) as (a0 & Ha0 & Hwf & _).
  rw Ha in Ha0. injection Ha0 as <-.
  destruct (Hplace _ _ Ha Hwf) as (a'' & Ha'' & Hp).
  rw Ha' in Ha''. injection Ha'' as <-.
  destruct (Forall2_lookup_l _ _ _ _ _ Hout Hl) as (a'' & Ho & Hla).
  rw Ha' in Hla. injection Hla as <-.
  by exists a, a'.
Qed.

Lemma collate_y_input_arrays_witness :
  let σ : store tape :=
    Store {[ 0%nat := NdArray 2 1 [[1]; [0]];
             1%nat := NdArray 2 2 [[1; 0]; [1; 1]] ]} [1; 0; 2]%nat in
  let batch := [ {| Collate.data := 0%nat; Collate.labels := [7] |};
                 {| Collate.data := 1%nat; Collate.labels := [3; 4] |} ] in
  ∃ out σ',
    Collate.collate_y 2 batch σ = Some (out, σ')
    ∧ heap σ' !! 0%nat = Some (NdArray 2 1 [[1]; [0]])
    ∧ ∃ a', heap σ' !! 1%nat = Some a' ∧ out !! 1%nat = Some a'
            ∧ col_perm (NdArray 2 2 [[1; 0]; [1; 1]]) a'.
Proof.
  intros σ batch.
  destruct (Collate.collate_y 2 batch σ) as [[out σ']|] eqn:Hy;
    [|by vm_compute in Hy].
  assert (batch_ok 2 (heap σ) batch) as Hok.
  { repeat constructor; eexists; (split; [by vm_compute|]); solve_shape. }
  destruct (collate_y_input_arrays 2 2 batch σ out σ' Hok Hy) as [Hframe Hplace].
  exists out, σ'. split; [done|]. split.
  - apply Hframe; [by vm_compute|].
    intros b [->|[->|[]%elem_of_nil]%elem_of_cons]%elem_of_cons; by vm_compute.
  - destruct (Hplace 1%nat {| Collate.data := 1%nat; Collate.labels := [3; 4] |})
      as (a & a' & Ha & Ha' & Ho & Hp); [done..|].
    exists a'. split; [done|]. split; [done|].
    vm_compute in Ha. by injection Ha as <-.
Defined.

(** C9 as stated fails: with exactly [max_speakers_per_chunk] labels the
    caller's array is overwritten by the shuffle. *)
Lemma collate_y_input_unchanged_counterexample :
  ¬ (∀ max_speakers_per_chunk F batch (σ : store tape) out σ',
       batch_ok F (heap σ) batch →
       Collate.collate_y max_speakers_per_chunk batch σ = Some (out, σ') →
       ∀ b, b ∈ batch → heap σ' !! Collate.data b = heap σ !! Collate.data b).
Proof.
  intros Hclaim.
  set (σ := Store {[ 0%nat := NdArray 2 2 [[1; 0]; [1; 1]] ]} [0]%nat : store tape).
  set (b := {| Collate.data := 0%nat; Collate.labels := [3; 4] |}).
  destruct (Collate.collate_y 2 [b] σ) as [[out σ']|] eqn:Hy;
    [|by vm_compute in Hy].
  assert (batch_ok 2 (heap σ) [b]) as Hok.
  { repeat constructor; eexists; (split; [by vm_compute|]); solve_shape. }
  specialize (Hclaim 2%nat 2%nat [b] σ out σ' Hok Hy b).
  vm_compute in Hy. injection Hy as <- <-.
  by vm_compute in Hclaim; specialize (Hclaim ltac:(by left)).
Qed.

(** ** Ranking by talkativeness *)

Section Ranking.
Context `{Argsort}.
Implicit Types (v : list Z).

Lemma argsort_take_drop v n i j :
  i ∈ take n (argsort v) → j ∈ drop n (argsort v) →
  ∃ ki kj, v !! i = Some ki ∧ v !! j = Some kj ∧ ki ≤ kj.
Proof.
  intros Hi Hj.
  assert (∀ k, k ∈ argsort v → is_Some (v !! k)) as Hin.
  { intros k Hk. rw (argsort_Permutation v) in Hk. apply elem_of_seq in Hk.
    apply lookup_lt_is_Some. lia. }
  destruct (Hin i) as [ki Hki].
  { rw -(take_drop n (argsort v)). apply elem_of_app. by left. }
  destruct (Hin j) as [kj Hkj].
  { rw -(take_drop n (argsort v)). apply elem_of_app. by right. }
  exists ki, kj. split; [done|]. split; [done|].
  pose proof (argsort_sorted v) as Hs. rw -(take_drop n (argsort v)) in Hs.
  apply StronglySorted_app in Hs as (Hall & _ & _).
  specialize (Hall i j Hi Hj). simpl in Hall.
  by rw (list_lookup_total_correct _ _ _ Hki)
       (list_lookup_total_correct _ _ _ Hkj) in Hall.
Qed.

Lemma uint64_neg_lookup v i s :
  v !! i = Some s → 0 < s < 2 ^ 64 → uint64_neg v !! i = Some (2 ^ 64 - s).
Proof.
  intros Hv Hs. rw /uint64_neg list_lookup_fmap Hv /=. f_equal.
  unfold uint64. rw -(Z.mod_add _ 1); [lia|]. rw Z.mod_small; lia.
Qed.

(** When every speaker of the sample is active, truncation does keep the
    most talkative ones: no dropped column has more active frames than a
    kept one. *)
Lemma truncation_when_all_active a n i j :
  Forall (λ s, 0 < s) (sum_axis0 a) →
  i ∈ take n (argsort (uint64_neg (sum_axis0 a))) →
  j ∈ drop n (argsort (uint64_neg (sum_axis0 a))) →
  ∃ si sj, sum_axis0 a !! i = Some si ∧ sum_axis0 a !! j = Some sj ∧ sj ≤ si.
Proof.
  intros Hpos Hi Hj.
  destruct (argsort_take_drop _ _ _ _ Hi Hj) as (ki & kj & Hki & Hkj & Hle).
  assert (∀ k x, uint64_neg (sum_axis0 a) !! k = Some x →
            ∃ s, sum_axis0 a !! k = Some s ∧ x = 2 ^ 64 - s) as Hneg.
  { intros k x Hx. rw /uint64_neg list_lookup_fmap in Hx.
    destruct (sum_axis0 a !! k) as [s|] eqn:Hs; [|done].
    exists s. split; [done|].
    assert (0 < s < 2 ^ 64) as Hrange.
    { split; [by eapply Forall_lookup_1 in Hpos|].
      rw /sum_axis0 list_lookup_fmap in Hs.
      destruct (rows (transpose a) !! k); [|done]. injection Hs as <-.
      apply Z.mod_pos_bound. lia. }
    pose proof (uint64_neg_lookup _ _ _ Hs Hrange) as Hx'.
    rw /uint64_neg list_lookup_fmap Hs in Hx'. simpl in *. congruence. }
  destruct (Hneg _ _ Hki) as (si & Hsi & ->).
  destruct (Hneg _ _ Hkj) as (sj & Hsj & ->).
  exists si, sj. split; [done|]. split; [done|]. lia.
Qed.
End Ranking.

(** On distinct keys every argsort returns the same indices. *)
Lemma argsort_distinct (H1 H2 : Argsort) v :
  NoDup v → @argsort H1 v = @argsort H2 v.
Proof.
  intros Hnd.
  eapply (StronglySorted_unique_strong (λ i j, v !!! i ≤ v !!! j));
    [|apply argsort_sorted..|by rw !argsort_Permutation].
  intros i j Hi Hj Hij Hji.
  rw (@argsort_Permutation H1 v) in Hi. rw (@argsort_Permutation H2 v) in Hj.
  apply elem_of_seq in Hi, Hj.
  destruct (lookup_lt_is_Some_2 v i) as [x Hx]; [lia|].
  destruct (lookup_lt_is_Some_2 v j) as [z Hz]; [lia|].
  rw (list_lookup_total_correct _ _ _ Hx) (list_lookup_total_correct _ _ _ Hz)
    in Hij Hji.
  assert (x = z) as -> by lia. by eapply NoDup_lookup.
Qed.

(** The sorter of a sample only matters through the ranking of its
    columns. *)
Lemma collate_sample_sorter {G} `{RandomSource G} (S1 S2 : Argsort)
    max_speakers_per_chunk b (σ : store G) a :
  heap σ !! Collate.data b = Some a →
  @argsort S1 (uint64_neg (sum_axis0 a)) = @argsort S2 (uint64_neg (sum_axis0 a)) →
  Collate.collate_sample (sorter := S1) max_speakers_per_chunk b σ
  = Collate.collate_sample (sorter := S2) max_speakers_per_chunk b σ.
Proof.
  intros Ha Heq. unfold Collate.collate_sample, eff_bind.
  case_decide; [|done]. unfold load. rw Ha. by rw Heq.
Qed.

(** The example of the specification: activity counts [10, 5, 20, 2] for
    the labels A, B, C, D and a budget of 3 keep C, A and B. *)
Example most_talkative_example `{Argsort} :
  let y := activity [10; 5; 20; 2]%nat 20 in
  sum_axis0 y = [10; 5; 20; 2]
  ∧ take 3 (argsort (uint64_neg (sum_axis0 y))) = [2; 0; 1]%nat.
Proof.
  intros y. split; [by vm_compute|].
  rw (argsort_distinct _ insertion_argsort); [|by vm_compute].
  apply (bool_decide_unpack _). by vm_compute.
Qed.

(** C5 fails on the code. [np.sum] of a uint8 matrix is a uint64 vector,
    and its negation wraps around: a column without any active frame gets
    key 0 and sorts before every active column. With activity counts
    [10, 5, 0, 2] and a budget of 3 the selector keeps the silent third
    column and drops the fourth, which is active in two frames. *)
Theorem collate_y_keeps_silent_speaker `{Argsort} :
  let y := activity [10; 5; 0; 2]%nat 20 in
  let σ : store tape := Store {[ 0%nat := y ]} [] in
  let b := {| Collate.data := 0%nat; Collate.labels := [65; 66; 67; 68] |} in
  sum_axis0 y = [10; 5; 0; 2]
  ∧ uint64_neg (sum_axis0 y) = [2 ^ 64 - 10; 2 ^ 64 - 5; 0; 2 ^ 64 - 2]
  ∧ take 3 (argsort (uint64_neg (sum_axis0 y))) = [2; 0; 1]%nat
  ∧ ∃ a' σ', Collate.collate_y 3 [b] σ = Some ([a'], σ')
             ∧ sum_axis0 a' ≡ₚ [0; 10; 5].
Proof.
  intros y σ b.
  assert (argsort (uint64_neg (sum_axis0 y))
          = @argsort insertion_argsort (uint64_neg (sum_axis0 y))) as Hsort.
  { apply argsort_distinct. apply (bool_decide_unpack _). by vm_compute. }
  split_and!; [by vm_compute|by vm_compute|rw Hsort; by vm_compute|].
  assert (Collate.collate_y 3 [b] σ
          = Collate.collate_y (sorter := insertion_argsort) 3 [b] σ) as ->.
  { unfold Collate.collate_y. cbn [eff_mapM]. unfold eff_bind.
    by rw (collate_sample_sorter _ insertion_argsort 3 b σ y eq_refl Hsort). }
  destruct (Collate.collate_y 3 [b] σ) as [[out σ']|] eqn:Hy;
    [|by vm_compute in Hy].
  vm_compute in Hy. injection Hy as <- <-.
  eexists _, _. split; [done|]. vm_compute.
  symmetry. apply (Permutation_cons_append [10; 5] 0).
Qed.

(** ** The drop filter *)

Section DropFilter.
Import Loss.
Variable max_speakers_per_chunk : nat.

Lemma select_filter {A B} (P : A → Prop) `{∀ x, Decision (P x)}
    (t : list A) (u : list B) :
  select ((λ a, bool_decide (P a)) <$> t) u
  = (filter (λ p, P p.1) (zip t u)).*2.
Proof.
  unfold select. revert u. induction t as [|a t IH]; intros [|b u]; try done.
  simpl. rw !filter_cons /=.
  destruct (decide (bool_decide (P a) = true)) as [Hd|Hd],
           (decide (P a)) as [Hp|Hp]; simpl.
  - f_equal. apply IH.
  - by apply bool_decide_eq_true in Hd.
  - exfalso. apply Hd. by apply bool_decide_eq_true.
  - apply IH.
Qed.

Lemma select_self {A} (P : A → Prop) `{∀ x, Decision (P x)} (t : list A) :
  select ((λ a, bool_decide (P a)) <$> t) t = filter P t.
Proof.
  unfold select. induction t as [|a t IH]; [done|].
  simpl. rw !filter_cons /=.
  destruct (decide (bool_decide (P a) = true)) as [Hd|Hd],
           (decide (P a)) as [Hp|Hp]; simpl.
  - f_equal. apply IH.
  - by apply bool_decide_eq_true in Hd.
  - exfalso. apply Hd. by apply bool_decide_eq_true.
  - apply IH.
Qed.

Lemma any_kept_false keep : any_kept keep = false ↔ Forall (λ k, k = false) keep.
Proof.
  unfold any_kept. rw bool_decide_eq_false -Forall_Exists_neg.
  apply Forall_iff. by intros [].
Qed.

Lemma keep_lookup targets i :
  keep max_speakers_per_chunk targets !! i
  = (λ a, bool_decide (num_speakers a ≤ max_speakers_per_chunk)%nat)
      <$> targets !! i.
Proof. apply list_lookup_fmap. Qed.

(** Targets that have no more columns than the budget are all kept. *)
Lemma keep_within_budget targets :
  Forall (λ a, ncols a ≤ max_speakers_per_chunk)%nat targets →
  keep max_speakers_per_chunk targets = replicate (length targets) true.
Proof.
  induction 1 as [|a targets Ha _ IH]; [done|]. simpl. rw IH. f_equal.
  apply bool_decide_eq_true. pose proof (num_speakers_le_ncols a). lia.
Qed.

Lemma select_all {A} (t : list A) : select (replicate (length t) true) t = t.
Proof.
  unfold select. induction t as [|a t IH]; [done|].
  cbn [length replicate zip zip_with]. rw filter_cons_True //=. by f_equal.
Qed.

(** The active columns of a well-formed target, counted by
    [num_speakers]. *)
Lemma num_speakers_active a :
  wf_ndarray a →
  ∃ active, NoDup active ∧ length active = num_speakers a
    ∧ ∀ j, j ∈ active ↔ (j < ncols a)%nat ∧ active_column a j.
Proof.
  intros [Hl Hr].
  exists (filter (λ j, is_active (column a j) = true) (seq 0 (ncols a))).
  split; [apply NoDup_filter, NoDup_seq|]. split.
  - unfold num_speakers, any_axis0. simpl.
    generalize (seq 0 (ncols a)). intros js.
    induction js as [|j js IH]; [done|]. simpl. rw !filter_cons.
    fold (is_active (column a j)).
    destruct (is_active (column a j)); simpl; [|done].
    by rw IH.
  - intros j. rw list_elem_of_filter elem_of_seq /is_active bool_decide_eq_true.
    rw Exists_exists. unfold active_column, entry, column. split.
    + intros [(v & Hv & Hne) Hj]. split; [lia|].
      apply list_elem_of_fmap in Hv as (r & -> & Hin).
      apply list_elem_of_lookup in Hin as [f Hf].
      exists f, (r !!! j). rw Hf /=. split; [|done].
      apply list_lookup_lookup_total_lt.
      eapply Forall_lookup_1 in Hr; [|done]. simpl in Hr. lia.
    + intros [Hj (f & v & Hv & Hne)]. split; [|lia].
      destruct (rows a !! f) as [r|] eqn:Hf; [|done]. simpl in Hv.
      exists v. split; [|done]. apply list_elem_of_fmap. exists r.
      split; [by rw (list_lookup_total_correct _ _ _ Hv)|].
      by eapply list_elem_of_lookup_2.
Qed.
Lemma length_select {A B} keep (t : list A) (u : list B) :
  length t = length u → length (select keep t) = length (select keep u).
Proof.
  unfold select. rw !length_fmap. revert t u.
  induction keep as [|k keep IH]; intros [|x t] [|z u] Hlen; simplify_eq/=;
    try done.
  rw !filter_cons /=. destruct k; simpl; rw (IH t u) //.
Qed.

Lemma length_select_lt {A} keep (t : list A) :
  length keep = length t → Exists (λ k, k = false) keep →
  (length (select keep t) < length t)%nat.
Proof.
  unfold select. rw length_fmap. intros Hlen Hex. revert t Hlen.
  induction Hex as [k keep ->|k keep _ IH]; intros [|x t] Hlen; simplify_eq/=.
  - rw filter_cons_False /=; [by intros ?|].
    pose proof (length_filter (λ p : bool * A, p.1 = true) (zip keep t)).
    pose proof (length_zip_with pair keep t). lia.
  - rw filter_cons. specialize (IH t Hlen). case_decide; simpl; lia.
Qed.

Lemma keep_select (targets : list ndarray) :
  keep max_speakers_per_chunk
    (select (keep max_speakers_per_chunk targets) targets)
  = replicate (length (select (keep max_speakers_per_chunk targets) targets))
      true.
Proof.
  rw (select_self (λ a, num_speakers a ≤ max_speakers_per_chunk)%nat targets).
  induction targets as [|a targets IH]; [done|]. rw filter_cons.
  case_decide; [|done]. simpl. rw IH. by rw bool_decide_eq_true_2.
Qed.
End DropFilter.

(** C3 as stated fails: three speakers who never talk at the same time are
    at most one concurrently active speaker, within a budget of two, and
    the sample is dropped all the same. *)
Lemma drop_filter_concurrent_counterexample :
  ¬ (∀ max_speakers_per_chunk targets i a, targets !! i = Some a →
       (Loss.keep max_speakers_per_chunk targets !! i = Some false
        ↔ (max_speakers_per_chunk < concurrent_speakers a)%nat)).
Proof.
  intros Hclaim.
  destruct (Hclaim 2%nat [NdArray 3 3 [[1; 0; 0]; [0; 1; 0]; [0; 0; 1]]]
              0%nat _ eq_refl) as [Hdrop _].
  vm_compute in Hdrop. specialize (Hdrop eq_refl). lia.
Qed.

(** ** The training step *)

Section TrainingStep.
Import Loss.
Variable max_speakers_per_chunk : nat.
Variable freedom : Q.
Context {Waveform Prediction : Type}.
Variable model : list Waveform → tensor3 Z → Prediction.
Variable to_multilabel : Prediction → tensor3 Q.
Variable to_powerset : tensor3 Q → tensor3 Q.
Variable permutate : ∀ A, tensor3 Q → tensor3 A → option (tensor3 Q) → tensor3 A.
Variable nll_loss : Prediction → list (list nat) → option (tensor3 Q) → Q.

#[local] Abbreviation step :=
  (training_step max_speakers_per_chunk freedom model to_multilabel
     to_powerset permutate nll_loss).

Lemma any_nonzero_false (guide : tensor3 Z) :
  Forall (Forall (Forall (λ v, v = 0))) guide → any_nonzero guide = false.
Proof.
  intros Hz. apply bool_decide_eq_false. rw -Forall_Exists_neg.
  eapply Forall_impl; [done|]. intros x Hx. simpl. rw -Forall_Exists_neg.
  eapply Forall_impl; [done|]. intros y Hy. simpl. rw -Forall_Exists_neg.
  eapply Forall_impl; [done|]. intros v ->. simpl. by intros ?.
Qed.

Lemma select_nil_any_kept {A} keep (t : list A) :
  length keep = length t → select keep t = [] → any_kept keep = false.
Proof.
  intros Hlen Hsel. apply any_kept_false. unfold select in Hsel.
  apply fmap_nil_inv in Hsel.
  revert t Hlen Hsel. induction keep as [|k keep IH]; intros [|x t] Hlen Hsel;
    simplify_eq/=; [done|].
  rw filter_cons in Hsel. simpl in Hsel. destruct k; [done|].
  constructor; [done|]. by eapply IH.
Qed.

(** C8. If no sample survives the speaker budget filter, [training_step]
    returns the loss 0: it makes no forward pass, logs nothing and has no
    error path. *)
Theorem training_step_degenerate_batch (batch : batch Waveform) :
  select (keep max_speakers_per_chunk (y batch)) (y batch) = [] →
  step batch = {| loss := 0%Q; logged := [] |}.
Proof.
  intros Hsel. unfold training_step.
  rw (select_nil_any_kept _ _ _ Hsel) //.
  by rw /keep length_fmap.
Qed.

(** What [training_step] computes when a sample survives the filter. *)
Lemma training_step_kept (batch : batch Waveform) :
  any_kept (keep max_speakers_per_chunk (y batch)) = true →
  let waveform := select (keep max_speakers_per_chunk (y batch)) (X batch) in
  let target := select (keep max_speakers_per_chunk (y batch)) (y batch) in
  let prediction := model waveform (guide batch) in
  let multilabel := to_multilabel prediction in
  let seg_loss :=
    nll_loss prediction
      (argmax (to_powerset
                 (tmap3 inject_Z (permutate Z multilabel (rows <$> target) None))))
      None in
  let weight := guided_weight (guide batch) in
  let guide_loss :=
    if any_nonzero (guide batch) then
      nll_loss prediction
        (argmax (to_powerset
                   (permutate Q multilabel
                      (tmap3 (λ v, ((inject_Z v + 1) * (1 # 2))%Q) (guide batch))
                      (Some weight))))
        (Some weight)
    else 0%Q in
  step batch
  = {| loss := (freedom * seg_loss + (1 - freedom) * guide_loss)%Q;
       logged := [("loss/train/segmentation"%string, seg_loss);
                  ("loss/train/guide"%string, guide_loss);
                  ("loss/train"%string,
                   (freedom * seg_loss + (1 - freedom) * guide_loss)%Q)] |}.
Proof. intros Hany. unfold training_step. by rw Hany. Qed.

(** C2. When a sample survives the filter, [training_step] returns
    freedom x segmentation loss + (1 - freedom) x guide loss and logs the
    three numbers, where the segmentation loss is the negative
    log-likelihood of the prediction of the model against the permutated
    target and the guide loss that of the same prediction against the
    permutated decoded guide, weighted by the guided frames. The guide loss
    is 0 when every entry of the guide is zero; with freedom 1 the loss is
    the segmentation loss, and with freedom 0 it is the guide loss, hence 0
    when the guide is absent. *)
Theorem training_step_loss (batch : batch Waveform) :
  any_kept (keep max_speakers_per_chunk (y batch)) = true →
  let waveform := select (keep max_speakers_per_chunk (y batch)) (X batch) in
  let target := select (keep max_speakers_per_chunk (y batch)) (y batch) in
  let prediction := model waveform (guide batch) in
  let multilabel := to_multilabel prediction in
  let seg_loss :=
    nll_loss prediction
      (argmax (to_powerset
                 (tmap3 inject_Z (permutate Z multilabel (rows <$> target) None))))
      None in
  let weight := guided_weight (guide batch) in
  let guide_loss :=
    if any_nonzero (guide batch) then
      nll_loss prediction
        (argmax (to_powerset
                   (permutate Q multilabel
                      (tmap3 (λ v, ((inject_Z v + 1) * (1 # 2))%Q) (guide batch))
                      (Some weight))))
        (Some weight)
    else 0%Q in
  loss (step batch) = (freedom * seg_loss + (1 - freedom) * guide_loss)%Q
  ∧ logged (step batch)
    = [("loss/train/segmentation"%string, seg_loss);
       ("loss/train/guide"%string, guide_loss);
       ("loss/train"%string, loss (step batch))]
  ∧ (Forall (Forall (Forall (λ v, v = 0))) (guide batch) → guide_loss = 0%Q)
  ∧ ((freedom == 1)%Q → (loss (step batch) == seg_loss)%Q)
  ∧ ((freedom == 0)%Q →
     (loss (step batch) == guide_loss)%Q
     ∧ (Forall (Forall (Forall (λ v, v = 0))) (guide batch) →
        (loss (step batch) == 0)%Q)).
Proof.
  intros Hany waveform target prediction multilabel seg_loss weight guide_loss.
  rw (training_step_kept batch Hany). cbn [loss logged].
  fold waveform target prediction multilabel seg_loss weight guide_loss.
  assert (Forall (Forall (Forall (λ v, v = 0))) (guide batch) →
          guide_loss = 0%Q) as Hzero.
  { intros Hz. unfold guide_loss. by rw any_nonzero_false. }
  split_and!; try done.
  - intros ->. ring.
  - intros ->. split; [ring|]. intros Hz. rw (Hzero Hz). ring.
Qed.

(** C3 (as amended). In [training_step] a sample is dropped from the
    targets and from the waveforms, before the forward pass, exactly when
    the number of speakers of its target exceeds [max_speakers_per_chunk],
    where the speakers of a target are its columns with a non-zero entry in
    at least one frame of the chunk, whether or not they are active at the
    same time. The forward pass is made on the waveforms of the kept
    samples only, and the step returns and logs what it returns and logs
    on the batch of the kept samples. *)
Theorem drop_filter_counts_speakers (batch : batch Waveform) :
  let targets := y batch in
  let kept :=
    filter (λ p, (num_speakers p.1 ≤ max_speakers_per_chunk)%nat)
      (zip targets (X batch)) in
  (* which samples are dropped *)
  (∀ i a, targets !! i = Some a →
     (keep max_speakers_per_chunk targets !! i = Some false
      ↔ (max_speakers_per_chunk < num_speakers a)%nat)
     ∧ (wf_ndarray a →
        ∃ active, NoDup active ∧ length active = num_speakers a
          ∧ ∀ j, j ∈ active ↔ (j < ncols a)%nat ∧ active_column a j))
  (* what is left of the targets and of the waveforms *)
  ∧ select (keep max_speakers_per_chunk targets) targets
    = filter (λ a, num_speakers a ≤ max_speakers_per_chunk)%nat targets
  ∧ (∀ W (waveform : list W),
       select (keep max_speakers_per_chunk targets) waveform
       = (filter (λ p, num_speakers p.1 ≤ max_speakers_per_chunk)%nat
            (zip targets waveform)).*2)
  (* the forward pass is made on the waveforms of the kept samples *)
  ∧ (∀ model' : list Waveform → tensor3 Z → Prediction,
       model' kept.*2 (guide batch) = model kept.*2 (guide batch) →
       training_step max_speakers_per_chunk freedom model' to_multilabel
         to_powerset permutate nll_loss batch
       = step batch)
  (* the step is the step on the kept samples *)
  ∧ (length (X batch) = length targets →
     step batch
     = step {| X := kept.*2;
               y := filter (λ a, num_speakers a ≤ max_speakers_per_chunk)%nat
                      targets;
               guide := guide batch |}).
Proof.
  intros targets kept.
  assert (select (keep max_speakers_per_chunk targets) targets
          = filter (λ a, num_speakers a ≤ max_speakers_per_chunk)%nat targets)
    as Hy.
  { exact (select_self
             (λ a, num_speakers a ≤ max_speakers_per_chunk)%nat targets). }
  assert (∀ W (waveform : list W),
            select (keep max_speakers_per_chunk targets) waveform
            = (filter (λ p, num_speakers p.1 ≤ max_speakers_per_chunk)%nat
                 (zip targets waveform)).*2) as HX.
  { intros W waveform.
    exact (select_filter
             (λ a, num_speakers a ≤ max_speakers_per_chunk)%nat
             targets waveform). }
  split_and!; try done.
  - intros i a Ha. split; [|apply num_speakers_active].
    rw keep_lookup Ha /=. split.
    + intros [= Hk]. apply bool_decide_eq_false in Hk. lia.
    + intros Hlt. f_equal. apply bool_decide_eq_false. lia.
  - intros model' Hagree. unfold training_step. fold targets.
    rw (HX _ (X batch)). fold kept. by rw Hagree.
  - intros Hlen. fold targets in Hlen. unfold training_step. cbn [X y guide].
    fold targets. rw -Hy -(HX _ (X batch)).
    set (keep0 := keep max_speakers_per_chunk targets).
    rw (keep_select max_speakers_per_chunk targets). fold keep0.
    assert (length keep0 = length targets) as Hk by (by rw /keep0 length_fmap).
    destruct (any_kept keep0) eqn:Hany; simpl.
    + assert (select keep0 targets ≠ []) as Hne.
      { intros Hnil. by rw (select_nil_any_kept _ _ Hk Hnil) in Hany. }
      assert (any_kept (replicate (length (select keep0 targets)) true) = true)
        as ->.
      { apply bool_decide_eq_true. destruct (select keep0 targets); [done|].
        by left. }
      simpl. rw select_all.
      rw -(length_select keep0 (X batch) targets Hlen) select_all. done.
    + assert (select keep0 targets = []) as ->; [|done].
      apply any_kept_false in Hany. unfold select.
      assert (filter (λ p : bool * ndarray, p.1 = true) (zip keep0 targets) = [])
        as ->; [|done].
      clear Hk. revert Hany. generalize targets. generalize keep0.
      intros ks. induction ks as [|k ks IH]; intros [|a ys] Hall; try done.
      apply Forall_cons in Hall as [-> Hall]. simpl.
      rw filter_cons_False /=; [by intros ?|]. by apply IH.
Qed.
End TrainingStep.

Lemma drop_filter_counts_speakers_witness :
  let a := NdArray 3 3 [[1; 0; 0]; [0; 1; 0]; [0; 0; 1]] in
  let a' := NdArray 3 2 [[1; 0]; [0; 1]; [0; 0]] in
  let batch : Loss.batch nat :=
    {| Loss.X := [7; 8]%nat; Loss.y := [a; a'];
       Loss.guide := [[[0; 0; 0]; [0; 0; 0]; [0; 0; 0]];
                      [[1; -1]; [0; 0]; [0; 0]]] |} in
  (Loss.keep 2 [a; a'] !! 0%nat = Some false ↔ (2 < Loss.num_speakers a)%nat)
  ∧ Loss.select (Loss.keep 2 [a; a']) [7; 8]%nat = [8%nat]
  ∧ Loss.training_step 2 (1 # 4) (λ w _, w) (λ _, []) (λ t, t) (λ _ _ c _, c)
      (λ w _ _, inject_Z (Z.of_nat (length w))) batch
    = Loss.training_step 2 (1 # 4) (λ w _, w) (λ _, []) (λ t, t) (λ _ _ c _, c)
        (λ w _ _, inject_Z (Z.of_nat (length w)))
        {| Loss.X := [8%nat]; Loss.y := [a']; Loss.guide := Loss.guide batch |}.
Proof.
  intros a a' batch.
  destruct (drop_filter_counts_speakers 2 (1 # 4) (λ w _, w) (λ _, [])
              (λ t, t) (λ _ _ c _, c)
              (λ w _ _, inject_Z (Z.of_nat (length w))) batch)
    as (Hk & _ & HX & _ & Hstep).
  destruct (Hk 0%nat a eq_refl) as [Hdrop _].
  split; [done|]. split; [by rw (HX nat [7; 8]%nat)|].
  by rw Hstep.
Defined.

(** ** Collated batches in the training step *)

Section CollatedBatches.
Import Loss.
Context {G : Type} `{RandomSource G} `{Argsort}.
Variable max_speakers_per_chunk : nat.
Variable freedom : Q.
Context {Waveform Prediction : Type}.
Variable model : list Waveform → tensor3 Z → Prediction.
Variable to_multilabel : Prediction → tensor3 Q.
Variable to_powerset : tensor3 Q → tensor3 Q.
Variable permutate : ∀ A, tensor3 Q → tensor3 A → option (tensor3 Q) → tensor3 A.
Variable nll_loss : Prediction → list (list nat) → option (tensor3 Q) → Q.

#[local] Abbreviation step :=
  (training_step max_speakers_per_chunk freedom model to_multilabel
     to_powerset permutate nll_loss).

(** C10. The targets that [collate_y] returns have exactly
    [max_speakers_per_chunk] columns, so each of them counts at most that
    many speakers and the drop filter of [training_step] keeps every
    sample: on a batch of these targets the step makes its forward pass on
    all the waveforms and returns the composed loss. On targets of that
    width the step takes the early return with loss 0 only for an empty
    batch, which [collate_y] never returns. *)
Theorem collated_batch_is_kept F batch (σ : store G) out σ' :
  batch_ok F (heap σ) batch →
  Collate.collate_y max_speakers_per_chunk batch σ = Some (out, σ') →
  out ≠ []
  ∧ Forall (λ a, ncols a = max_speakers_per_chunk
                 ∧ (num_speakers a ≤ max_speakers_per_chunk)%nat) out
  ∧ keep max_speakers_per_chunk out = replicate (length out) true
  ∧ select (keep max_speakers_per_chunk out) out = out
  ∧ any_kept (keep max_speakers_per_chunk out) = true
  (* the step on a batch of these targets: no sample is dropped *)
  ∧ (∀ (waveform : list Waveform) (guide : tensor3 Z),
       length waveform = length out →
       let prediction := model waveform guide in
       let multilabel := to_multilabel prediction in
       let seg_loss :=
         nll_loss prediction
           (argmax (to_powerset
                      (tmap3 inject_Z
                         (permutate Z multilabel (rows <$> out) None))))
           None in
       let weight := guided_weight guide in
       let guide_loss :=
         if any_nonzero guide then
           nll_loss prediction
             (argmax (to_powerset
                        (permutate Q multilabel
                           (tmap3 (λ v, ((inject_Z v + 1) * (1 # 2))%Q) guide)
                           (Some weight))))
             (Some weight)
         else 0%Q in
       step {| X := waveform; y := out; guide := guide |}
       = {| loss := (freedom * seg_loss + (1 - freedom) * guide_loss)%Q;
            logged := [("loss/train/segmentation"%string, seg_loss);
                       ("loss/train/guide"%string, guide_loss);
                       ("loss/train"%string,
                        (freedom * seg_loss + (1 - freedom) * guide_loss)%Q)] |})
  (* the early return is taken on an empty batch only *)
  ∧ ∀ b : Loss.batch Waveform,
      Forall (λ a, ncols a = max_speakers_per_chunk) (y b) →
      (any_kept (keep max_speakers_per_chunk (y b)) = false ↔ y b = [])
      ∧ (logged (step b) = [] ↔ y b = [])
      ∧ (y b = [] → step b = {| loss := 0%Q; logged := [] |}).
Proof.
  intros Hok Hy.
  destruct (collate_y_shapes max_speakers_per_chunk F batch σ out σ' Hok Hy)
    as [Hout_ne Hshapes].
  assert (Forall (λ a, ncols a = max_speakers_per_chunk) out) as Hcols.
  { eapply Forall_impl; [done|]. by intros a [_ ?]. }
  assert (∀ targets, Forall (λ a, ncols a = max_speakers_per_chunk) targets →
            keep max_speakers_per_chunk targets
            = replicate (length targets) true) as Hkeep.
  { intros targets Ht. apply keep_within_budget.
    eapply Forall_impl; [done|]. simpl. lia. }
  assert (∀ targets, Forall (λ a, ncols a = max_speakers_per_chunk) targets →
            (any_kept (keep max_speakers_per_chunk targets) = false
             ↔ targets = [])) as Hempty.
  { intros targets Ht. rw (Hkeep _ Ht). destruct targets; [done|].
    split; [|done]. intros Hk. apply any_kept_false in Hk.
    by apply Forall_cons in Hk as [? _]. }
  assert (any_kept (keep max_speakers_per_chunk out) = true) as Hany.
  { rw Hkeep //. destruct out; [done|]. apply bool_decide_eq_true. by left. }
  split_and!.
  - done.
  - eapply Forall_impl; [done|]. intros a Ha. simpl in *. split; [done|].
    pose proof (num_speakers_le_ncols a). lia.
  - by apply Hkeep.
  - rw Hkeep //. apply select_all.
  - done.
  - intros waveform guide Hlen.
    rw (training_step_kept max_speakers_per_chunk freedom model to_multilabel
          to_powerset permutate nll_loss
          {| X := waveform; y := out; guide := guide |} Hany).
    cbn [X y Loss.guide]. rw (Hkeep out Hcols) select_all -Hlen select_all.
    done.
  - intros b Hb. split; [by apply Hempty|]. split.
    + destruct (any_kept (keep max_speakers_per_chunk (y b))) eqn:Hk.
      * rw (training_step_kept max_speakers_per_chunk freedom model
              to_multilabel to_powerset permutate nll_loss b Hk).
        cbn [logged]. split; [done|]. intros Hnil.
        apply (Hempty _ Hb) in Hnil. congruence.
      * split; [intros _; by apply (Hempty _ Hb)|]. intros _.
        unfold training_step. by rw Hk.
    + intros Hnil. unfold training_step.
      by rw (proj2 (Hempty _ Hb) Hnil).
Qed.
End CollatedBatches.

Lemma collated_batch_is_kept_witness :
  let σ : store tape :=
    Store {[ 0%nat := activity [3; 1; 0; 2]%nat 3 ]} [1; 0; 2]%nat in
  let batch := [ {| Collate.data := 0%nat; Collate.labels := [5; 6; 7; 8] |} ] in
  ∃ out σ',
    Collate.collate_y 3 batch σ = Some (out, σ')
    ∧ Loss.keep 3 out = replicate (length out) true
    ∧ Loss.any_kept (Loss.keep 3 out) = true
    ∧ Loss.logged
        (Loss.training_step 3 (1 # 4) (λ (w : list nat) _, w) (λ _, [])
           (λ t, t) (λ _ _ c _, c) (λ w _ _, inject_Z (Z.of_nat (length w)))
           {| Loss.X := [7%nat]; Loss.y := out; Loss.guide := [] |})
      ≠ [].
Proof.
  intros σ batch.
  destruct (Collate.collate_y 3 batch σ) as [[out σ']|] eqn:Hy;
    [|by vm_compute in Hy].
  exists out, σ'. split; [done|].
  destruct (collated_batch_is_kept 3 (1 # 4) (λ (w : list nat) _, w)
              (λ _, []) (λ t, t) (λ _ _ c _, c)
              (λ w _ _, inject_Z (Z.of_nat (length w))) 3 batch σ out σ')
    as (_ & _ & Hkeep & _ & Hany & Hstep & _); [|done|].
  { repeat constructor; eexists; (split; [by vm_compute|]); solve_shape. }
  split; [done|]. split; [done|].
  rw (Hstep [7%nat] []); [|done].
  vm_compute in Hy. by injection Hy as <- <-.
Defined.

Lemma training_step_degenerate_batch_witness :
  let batch : Loss.batch nat :=
    {| Loss.X := [7%nat];
       Loss.y := [NdArray 3 3 [[1; 0; 0]; [0; 1; 0]; [0; 0; 1]]];
       Loss.guide := [[[1; -1; -1]; [0; 0; 0]; [0; 0; 0]]] |} in
  Loss.training_step 2 (1 # 2) (λ w _, w) (λ _, []) (λ t, t) (λ _ _ c _, c)
    (λ _ _ _, 3%Q) batch
  = {| Loss.loss := 0%Q; Loss.logged := [] |}.
Proof.
  apply (training_step_degenerate_batch 2 (1 # 2)). by vm_compute.
Defined.

Lemma training_step_loss_witness :
  let batch : Loss.batch nat :=
    {| Loss.X := [7%nat];
       Loss.y := [NdArray 3 2 [[1; 0]; [0; 1]; [0; 0]]];
       Loss.guide := [[[1; -1]; [0; 0]; [0; 0]]] |} in
  let step :=
    Loss.training_step 2 (1 # 4) (λ w _, w) (λ _, []) (λ t, t) (λ _ _ c _, c)
      (λ _ _ w, match w with Some _ => 5%Q | None => 3%Q end) in
  Loss.loss (step batch) = ((1 # 4) * 3 + (1 - (1 # 4)) * 5)%Q
  ∧ Loss.logged (step batch)
    = [("loss/train/segmentation"%string, 3%Q);
       ("loss/train/guide"%string, 5%Q);
       ("loss/train"%string, Loss.loss (step batch))].
Proof.
  intros batch step.
  destruct (training_step_loss 2 (1 # 4) (λ w _, w) (λ _, []) (λ t, t)
              (λ _ _ c _, c)
              (λ _ _ w, match w with Some _ => 5%Q | None => 3%Q end) batch)
    as (Hloss & Hlog & _); [by vm_compute|].
  split; [exact Hloss|exact Hlog].
Defined.

(** ** The frame target discretizer *)

Section SliceAssignment.
Lemma entry_set_column_slice start stop j v y f j' :
  entry (set_column_slice start stop j v y) f j'
  = (λ x, if decide ((slice_index start (nrows y) ≤ f
                      < slice_index stop (nrows y))%nat ∧ j' = j)
          then v else x) <$> entry y f j'.
Proof.
  unfold entry, set_column_slice. simpl. rw list_lookup_imap.
  destruct (rows y !! f) as [r|]; [|done]. simpl.
  destruct (decide (slice_index start (nrows y) ≤ f
                    < slice_index stop (nrows y))%nat) as [Hin|Hout].
  - rw list_lookup_insert. destruct (r !! j') as [x|] eqn:Hx; simpl.
    + apply lookup_lt_Some in Hx as Hlt.
      repeat case_decide; try done; naive_solver.
    + apply lookup_ge_None in Hx. case_decide; [lia|done].
  - destruct (r !! j') as [x|]; [|done]. simpl. rw decide_False //.
    by intros [? _].
Qed.

Lemma wf_set_column_slice start stop j v y :
  wf_ndarray y → wf_ndarray (set_column_slice start stop j v y).
Proof.
  intros [Hl Hr]. split; [by rw /= length_imap|]. simpl.
  apply Forall_lookup_2. intros f r. rw list_lookup_imap.
  destruct (rows y !! f) as [r0|] eqn:Hr0; [|done]. simpl. intros [= <-].
  eapply Forall_lookup_1 in Hr; [|done]. simpl in Hr.
  case_decide; by rw ?length_insert.
Qed.

(** On an axis of [n] frames, a slice with non-negative bounds selects
    the frames between its bounds. *)
Lemma slice_index_range start stop n f :
  0 ≤ start → 0 ≤ stop → (f < n)%nat →
  (slice_index start n ≤ f < slice_index stop n)%nat
  ↔ start ≤ Z.of_nat f < stop.
Proof.
  intros Hs He Hf. unfold slice_index.
  rw !decide_False; [lia..|]. lia.
Qed.

Lemma entry_zeros n m f j :
  entry (zeros n m) f j
  = if decide (f < n ∧ j < m)%nat then Some 0 else None.
Proof.
  unfold entry, zeros. simpl.
  destruct (decide (f < n)%nat) as [Hf|Hf].
  - rw lookup_replicate_2 //=. destruct (decide (j < m)%nat) as [Hj|Hj].
    + rw lookup_replicate_2 // decide_True //.
    + rw decide_False; [lia|]. apply lookup_replicate_None. lia.
  - rw decide_False; [lia|].
    by rw (proj1 (lookup_replicate_None n (replicate m 0) f)); [lia|].
Qed.

Lemma wf_zeros n m : wf_ndarray (zeros n m).
Proof.
  split; [by rw /= length_replicate|]. simpl.
  apply Forall_replicate. by rw length_replicate.
Qed.
End SliceAssignment.

Section PrepareChunk.
Import Chunk.
Variable annotations : list annotation.
Variable metadata_scope : list scope.
Variable step : Q.
Variable num_frames : nat.

Lemma elem_of_chunk_annotations file chunk a :
  a ∈ chunk_annotations annotations file chunk ↔
  a ∈ annotations ∧ file_id a = file
  ∧ (start a < seg_end chunk)%Q ∧ (seg_start chunk < end_ a)%Q.
Proof.
  unfold chunk_annotations. rw !list_elem_of_filter. naive_solver.
Qed.

(** For an annotation and a chunk of positive length, the two strict
    inequalities say that the time intervals share an instant other than a
    boundary point. *)
Lemma strict_overlap (s e cs ce : Q) :
  (s < e)%Q → (cs < ce)%Q →
  ((s < ce)%Q ∧ (cs < e)%Q) ↔ ∃ t, (s < t)%Q ∧ (t < e)%Q ∧ (cs < t)%Q ∧ (t < ce)%Q.
Proof.
  intros Hse Hc. split.
  - intros [H1 H2].
    destruct (Qlt_le_dec s cs), (Qlt_le_dec e ce).
    + exists ((1 # 2) * (cs + e))%Q. split_and!; lra.
    + exists ((1 # 2) * (cs + ce))%Q. split_and!; lra.
    + exists ((1 # 2) * (s + e))%Q. split_and!; lra.
    + exists ((1 # 2) * (s + ce))%Q. split_and!; lra.
  - intros (t & ? & ? & ? & ?). split; lra.
Qed.

Lemma start_idx_nonneg chunk a :
  (0 < step)%Q → 0 ≤ start_idx step chunk a.
Proof.
  intros Hstep. unfold start_idx. rw -(Qfloor_Z 0).
  apply Qfloor_resp_le, Qle_shift_div_l; [done|].
  rw Qmult_0_l -Qle_minus_iff. apply Q.le_max_r.
Qed.

Lemma end_idx_nonneg chunk a :
  (0 < step)%Q → (seg_start chunk < seg_end chunk)%Q →
  (seg_start chunk < end_ a)%Q → 0 ≤ end_idx step chunk a.
Proof.
  intros Hstep Hchunk Ha. unfold end_idx. rw -(Qceiling_Z 0).
  apply Qceiling_resp_le, Qle_shift_div_l; [done|].
  rw Qmult_0_l -Qle_minus_iff. apply Qlt_le_weak.
  by apply Q.min_glb_lt.
Qed.

Lemma elem_of_unique l x : x ∈ unique l ↔ x ∈ l.
Proof. by rw /unique merge_sort_Permutation elem_of_remove_dups. Qed.

Lemma NoDup_unique l : NoDup (unique l).
Proof. rw /unique merge_sort_Permutation. apply NoDup_remove_dups. Qed.

(** The dictionary [{label: idx for idx, label in enumerate(labels)}]. *)
Lemma mapping_lookup (labels : list Z) l j :
  NoDup labels →
  (list_to_map (zip labels (seq 0 (length labels))) : gmap Z nat) !! l = Some j
  ↔ labels !! j = Some l.
Proof.
  intros Hnd. rw -elem_of_list_to_map.
  { rw fst_zip //. by rw length_seq. }
  rw elem_of_lookup_zip_with. split.
  - intros (i & x & z & [= <- <-] & Hx & [-> _]%lookup_seq). done.
  - intros Hj. exists j, l, j. split; [done|]. split; [done|].
    apply lookup_seq. split; [done|]. by eapply lookup_lt_Some.
Qed.

Lemma mark_annotations_spec sc chunk (mapping : gmap Z nat) todo y :
  (∀ a, a ∈ todo → is_Some (mapping !! label_idx sc a)) →
  ∃ y', mark_annotations step sc chunk mapping todo y = Some y'
    ∧ nrows y' = nrows y ∧ ncols y' = ncols y
    ∧ (wf_ndarray y → wf_ndarray y')
    ∧ ∀ f j,
        entry y' f j
        = (λ x, if decide (Exists (λ a,
                     mapping !! label_idx sc a = Some j
                     ∧ (slice_index (start_idx step chunk a) (nrows y) ≤ f
                        < slice_index (end_idx step chunk a) (nrows y))%nat)
                   todo)
                then 1 else x) <$> entry y f j.
Proof.
  revert y. induction todo as [|a todo IH]; intros y Hmap.
  { exists y. split_and!; try done. intros f j.
    destruct (entry y f j); [|done]. simpl.
    first [done | rw decide_False //; by intros ?%Exists_nil]. }
  destruct (Hmap a) as [mapped Hmapped]; [set_solver|].
  simpl. rw Hmapped /=.
  set (y1 := set_column_slice _ _ mapped 1 y).
  destruct (IH y1) as (y' & Hy' & Hr & Hc & Hwf & Hentry).
  { intros a' Ha'. apply Hmap. set_solver. }
  exists y'. split; [done|]. split; [done|]. split; [done|]. split.
  { intros Hwfy. by apply Hwf, wf_set_column_slice. }
  intros f j. rw Hentry /y1 entry_set_column_slice /=.
  destruct (entry y f j) as [x|]; [|done]. simpl. f_equal.
  repeat case_decide; try done.
  - exfalso. match goal with Hn : ¬ Exists _ (_ :: _) |- _ => apply Hn end.
    by apply Exists_cons_tl.
  - exfalso. match goal with Hn : ¬ Exists _ (_ :: _) |- _ => apply Hn end.
    apply Exists_cons_hd. naive_solver.
  - match goal with He : Exists _ (_ :: _) |- _ =>
      apply Exists_cons in He as [[Hm Hin]|He] end; [|done].
    rw Hmapped in Hm. naive_solver.
Qed.

(** C7. An annotation of the file contributes to the target of a chunk
    exactly when [annotation.start < chunk.end] and
    [annotation.end > chunk.start], both strict, so that an annotation
    that only touches the chunk at a boundary is left out. The target has
    [num_frames] rows and one column per distinct label of the included
    annotations; the entry of frame [f] in the column of a label is 1
    exactly when an included annotation with that label satisfies
    [floor((max(start, chunk.start) - chunk.start) / step) <= f
     < ceil((min(end, chunk.end) - chunk.start) / step)], and 0
    otherwise; frames outside [[0, num_frames)] do not exist. *)
Theorem prepare_chunk_target file start_time duration sc :
  (0 < step)%Q → (0 < duration)%Q → metadata_scope !! file = Some sc →
  let chunk := {| seg_start := start_time;
                  seg_end := (start_time + duration)%Q |} in
  let included := chunk_annotations annotations file chunk in
  (∀ a, a ∈ included ↔
        a ∈ annotations ∧ file_id a = file
        ∧ (start a < start_time + duration)%Q ∧ (start_time < end_ a)%Q)
  ∧ (∀ a, a ∈ included →
        ¬ (end_ a == start_time)%Q ∧ ¬ (start a == start_time + duration)%Q)
  ∧ ∃ t,
      prepare_chunk annotations metadata_scope step num_frames file
        start_time duration = Some t
      ∧ wf_ndarray (y_data t) ∧ nrows (y_data t) = num_frames
      ∧ ncols (y_data t) = length (y_labels t)
      ∧ NoDup (y_labels t)
      ∧ (∀ l, l ∈ y_labels t ↔ ∃ a, a ∈ included ∧ label_idx sc a = l)
      ∧ ∀ f j l, (f < num_frames)%nat → y_labels t !! j = Some l →
          ∃ v, entry (y_data t) f j = Some v ∧ (v = 0 ∨ v = 1)
            ∧ (v = 1 ↔
               ∃ a, a ∈ included ∧ label_idx sc a = l
                 ∧ Qfloor ((Qmax (start a) start_time - start_time) / step)
                   ≤ Z.of_nat f
                   < Qceiling ((Qmin (end_ a) (start_time + duration)
                                - start_time) / step)).
Proof.
  intros Hstep Hdur Hsc chunk included.
  assert (seg_start chunk < seg_end chunk)%Q as Hchunk.
  { simpl. rw -{1}(Qplus_0_r start_time). by apply Qplus_lt_r. }
  split; [intros a; apply elem_of_chunk_annotations|].
  split.
  { intros a (_ & _ & Hs & He)%elem_of_chunk_annotations. simpl in *. split.
    - intros Heq. rw Heq in He. by apply Qlt_irrefl in He.
    - intros Heq. rw Heq in Hs. by apply Qlt_irrefl in Hs. }
  unfold prepare_chunk. rw Hsc /=.
  fold chunk. fold included.
  set (labels := unique (label_idx sc <$> included)).
  set (mapping := list_to_map (zip labels (seq 0 (length labels))) : gmap Z nat).
  assert (NoDup labels) as Hnd by apply NoDup_unique.
  assert (∀ l, l ∈ labels ↔ ∃ a, a ∈ included ∧ label_idx sc a = l) as Hlabels.
  { intros l. rw /labels elem_of_unique list_elem_of_fmap. naive_solver. }
  destruct (mark_annotations_spec sc chunk mapping included
              (zeros num_frames (length labels)))
    as (y' & Hy' & Hr & Hc & Hwf & Hentry).
  { intros a Ha. assert (label_idx sc a ∈ labels) as Hin.
    { apply Hlabels. by exists a. }
    apply list_elem_of_lookup in Hin as [j Hj].
    exists j. by apply mapping_lookup. }
  rw Hy' /=. eexists. split; [done|]. simpl.
  split; [apply Hwf, wf_zeros|]. split; [done|]. split; [done|].
  split; [done|]. split; [done|].
  intros f j l Hf Hj. rw Hentry entry_zeros.
  apply lookup_lt_Some in Hj as Hjlt. rw decide_True //=.
  eexists. split; [done|]. split; [case_decide; auto|].
  assert (∀ a, a ∈ included →
            (mapping !! label_idx sc a = Some j
             ∧ (slice_index (start_idx step chunk a) num_frames ≤ f
                < slice_index (end_idx step chunk a) num_frames)%nat)
            ↔ (label_idx sc a = l
               ∧ start_idx step chunk a ≤ Z.of_nat f < end_idx step chunk a))
    as Hcover.
  { intros a (_ & _ & _ & He)%elem_of_chunk_annotations.
    rw /mapping mapping_lookup // slice_index_range //.
    - by apply start_idx_nonneg.
    - by apply end_idx_nonneg.
    - split; intros [Hl ?]; (split; [|done]); congruence. }
  case_decide as Hex.
  - split; [|done]. intros _.
    apply Exists_exists in Hex as (a & Ha & Hcov).
    exists a. split; [done|]. by apply Hcover.
  - split; [done|]. intros (a & Ha & Hl & Hrange). exfalso. apply Hex.
    apply Exists_exists. exists a. split; [done|]. by apply Hcover.
Qed.
End PrepareChunk.

Lemma prepare_chunk_target_witness :
  let annotations :=
    [ {| Chunk.file_id := 0; Chunk.start := 1 # 2; Chunk.end_ := 5 # 2;
         Chunk.file_label_idx := 7; Chunk.database_label_idx := 70;
         Chunk.global_label_idx := 700 |};
      {| Chunk.file_id := 0; Chunk.start := 2; Chunk.end_ := 4;
         Chunk.file_label_idx := 3; Chunk.database_label_idx := 30;
         Chunk.global_label_idx := 300 |};
      {| Chunk.file_id := 0; Chunk.start := 10; Chunk.end_ := 12;
         Chunk.file_label_idx := 6; Chunk.database_label_idx := 60;
         Chunk.global_label_idx := 600 |} ]%Q in
  ∃ t, Chunk.prepare_chunk annotations [Chunk.ScopeFile] 1 9 0 0 10 = Some t
    ∧ Chunk.y_labels t = [3; 7]
    ∧ ∃ v, entry (Chunk.y_data t) 2 0 = Some v ∧ (v = 0 ∨ v = 1).
Proof.
  intros annotations.
  destruct (prepare_chunk_target annotations [Chunk.ScopeFile] 1 9 0%nat 0 10
              Chunk.ScopeFile)
    as (_ & _ & t & Ht & _ & _ & _ & _ & _ & Hentry); [done..|].
  exists t. split; [done|].
  vm_compute in Ht. injection Ht as <-. split; [done|].
  destruct (Hentry 2%nat 0%nat 3) as (v & Hv & Hbin & _); [lia|done|].
  by exists v.
Defined.

Lemma guide_strategies_witness :
  let targets :=
    Tensor4 (2, 1, 4, 2)%nat
      [[[[1; 0]; [0; 0]; [1; 1]; [0; 1]]]; [[[0; 1]; [1; 1]; [0; 0]; [1; 0]]]] in
  let t : percent_tape := [40; 70]%nat in
  let g : tape := [1; 3; 0; 2; 1; 0; 2]%nat in
  (∃ guides, Guide.guide 1 Guide.NoGuide targets (t, g) = Some (guides, ([], g))
     ∧ ∀ b c f s v, get4 guides b c f s = Some v → v = 0)
  ∧ (∃ guides,
       Guide.guide 1 Guide.FirstHalfGuide targets (t, g) = Some (guides, ([], g))
       ∧ ∀ b c f s v, get4 guides b c f s = Some v → (v ≠ 0 ↔ (f < 4 / 2)%nat))
  ∧ (∃ guides s', Guide.guide 1 (Guide.RandomFrameGuide 1 3) targets (t, g)
                  = Some (guides, s')
       ∧ ∃ draws, frame_draws 1 3 4 2 g = Some (draws, s'.2)
           ∧ ∀ b, (b < 2)%nat →
               ∃ k idx, draws !! b = Some (k, idx) ∧ 1 ≤ k ≤ 3
                 ∧ Z.of_nat (length idx) = k
                 ∧ ∀ c f s v, get4 guides b c f s = Some v → (v ≠ 0 ↔ f ∈ idx)).
Proof.
  intros targets t g.
  destruct (guide_strategies 2 1 4 2 1 targets t g)
    as (Hall & _ & (gs0 & Hg0 & Hs0 & Hz) & (gs1 & Hg1 & Hs1 & Hh) & Hrand);
    [solve_shape..|].
  specialize (Hall ltac:(done)).
  assert (∀ b, (b < 2)%nat → b ∈ selected_samples (bernoulli 1 2 t).1) as Hin.
  { intros b Hb. rw Hall. apply elem_of_seq. lia. }
  split_and!.
  - exists gs0. split; [done|]. intros b c f s v Hv.
    apply (Hz _ _ _ _ _ Hv), Hin. exact (get4_lt 2 1 4 2 gs0 b c f s v Hs0 Hv).
  - exists gs1. split; [done|]. intros b c f s v Hv.
    apply (Hh _ _ _ _ _ Hv), Hin. exact (get4_lt 2 1 4 2 gs1 b c f s v Hs1 Hv).
  - destruct (Hrand 1 3) as (_ & [[guides s'] Hg] & Hinv); [lia..|].
    exists guides, s'. split; [done|].
    destruct (Hinv guides s' Hg) as (_ & draws & g' & -> & Hd & Hsel & _).
    exists draws. split; [by rw Hall in Hd|].
    intros b Hb. destruct (Hsel b b) as (k & idx & ? & ? & ? & _ & _ & ?).
    { rw Hall. by apply lookup_seq_lt. }
    by exists k, idx.
Defined.

(** With [p = 0.5] and draws 0.4 and 0.7 the first sample is selected and
    the second is not: the no-guide strategy zeroes the first and returns
    the second as it came. *)
Example no_guide_skips_a_sample :
  Guide.guide (1 # 2) Guide.NoGuide
    (Tensor4 (2, 1, 2, 2)%nat [[[[1; 0]; [0; 1]]]; [[[0; 1]; [1; 1]]]])
    ([40; 70]%nat : percent_tape, [5]%nat : tape)
  = Some (Tensor4 (2, 1, 2, 2)%nat [[[[0; 0]; [0; 0]]]; [[[0; 1]; [1; 1]]]],
          ([], [5]%nat)).
Proof. by vm_compute. Qed.

(** Two samples, two draws: one frame for the first sample, three for the
    second. *)
Example random_frame_guide_draws :
  let targets :=
    Tensor4 (2, 1, 4, 1)%nat [[[[1]; [1]; [1]; [1]]]; [[[1]; [1]; [1]; [1]]]] in
  let g : tape := [0; 3; 2; 0; 0; 0]%nat in
  frame_draws 1 3 4 2 g = Some ([(1, [3%nat]); (3, [0; 1; 2]%nat)], [])
  ∧ Guide.guide 1 (Guide.RandomFrameGuide 1 3) targets
      ([] : percent_tape, g)
    = Some (Tensor4 (2, 1, 4, 1)%nat
              [[[[0]; [0]; [0]; [1]]]; [[[1]; [1]; [1]; [0]]]],
            ([], [])).
Proof. by vm_compute. Qed.

(** The random-frame strategy raises when it draws more frames than the
    chunk has: with five frames and a draw of seven, [random.sample]
    rejects the request. *)
Example random_frame_guide_raises :
  Guide.guide 1 (Guide.RandomFrameGuide 1 10)
    (Tensor4 (1, 1, 5, 2)%nat [[[[1; 0]; [0; 0]; [1; 1]; [0; 1]; [0; 0]]]])
    ([] : percent_tape, [6]%nat : tape)
  = None.
Proof. by vm_compute. Qed.

(** A label can have a column without any active frame: an annotation that
    meets the chunk only after its last frame is included but marks
    nothing. Here the chunk lasts 10 s and has 9 frames of 1 s. *)
Example prepare_chunk_silent_label :
  let annotations :=
    [ {| Chunk.file_id := 0; Chunk.start := 0; Chunk.end_ := 3;
         Chunk.file_label_idx := 1; Chunk.database_label_idx := 1;
         Chunk.global_label_idx := 1 |};
      {| Chunk.file_id := 0; Chunk.start := 19 # 2; Chunk.end_ := 10;
         Chunk.file_label_idx := 2; Chunk.database_label_idx := 2;
         Chunk.global_label_idx := 2 |} ]%Q in
  (λ t, (Chunk.y_labels t, sum_axis0 (Chunk.y_data t)))
    <$> Chunk.prepare_chunk annotations [Chunk.ScopeFile] 1 9 0 0 10
  = Some ([1; 2], [3; 0]).
Proof. by vm_compute. Qed.

(** * Further properties of the code *)

(** ** Guides of every strategy *)

Import Guide.

(** X1. Whatever the strategy and the probability it was built with, a
    guide never contradicts the target it was drawn from: on binary targets
    every guide entry is either 0 or 2 x target - 1, so +1 is only ever
    given for an active speaker and -1 for an inactive one. *)
Theorem guide_never_contradicts_target {T G} `{UniformSource T}
    `{RandomSource G} p st B C F S (targets : tensor4 Z) (t : T) (g : G)
    guides s' :
  has_shape4 B C F S targets → binary4 targets →
  guide p st targets (t, g) = Some (guides, s') →
  has_shape4 B C F S guides
  ∧ ∀ b c f s tv, get4 targets b c f s = Some tv →
      ∃ v, get4 guides b c f s = Some v
        ∧ (v = 0 ∨ v = 2 * tv - 1) ∧ (v = 1 → tv = 1) ∧ (v = -1 → tv = 0).
Proof.
  intros Ht Hbin Hg.
  destruct (guide_inv p st B C F S targets t g guides s' Ht Hg)
    as (Hsh & Hother & guided & g' & _ & _ & _ & Hsel).
  split; [done|]. intros b c f s tv Hget.
  pose proof (binary4_get _ _ _ _ _ _ Hbin Hget) as Hb.
  destruct (decide (b ∈ selected_samples (bernoulli p B t).1)) as [Hin|Hout].
  - apply list_elem_of_lookup in Hin as [j Hj].
    destruct (Hsel j b c f s tv Hj Hget) as (m & _ & ->).
    eexists. split; [done|].
    destruct Hb as [-> | ->]; destruct m; vm_compute; intuition congruence.
  - exists tv. split; [by rw Hother|].
    destruct Hb as [-> | ->]; intuition congruence.
Qed.

Lemma guide_never_contradicts_target_witness :
  let targets := Tensor4 (1, 1, 4, 2)%nat [[[[1; 0]; [0; 0]; [1; 1]; [0; 1]]]] in
  ∃ guides s', guide (1 # 2) (RandomFrameGuide 1 3) targets
                 ([30]%nat : percent_tape, [1; 3; 0]%nat : tape)
               = Some (guides, s')
    ∧ ∀ b c f s tv, get4 targets b c f s = Some tv →
        ∃ v, get4 guides b c f s = Some v
          ∧ (v = 0 ∨ v = 2 * tv - 1) ∧ (v = 1 → tv = 1) ∧ (v = -1 → tv = 0).
Proof.
  intros targets.
  destruct (guide (1 # 2) (RandomFrameGuide 1 3) targets
              ([30]%nat : percent_tape, [1; 3; 0]%nat : tape))
    as [[guides s']|] eqn:Hg; [|by vm_compute in Hg].
  exists guides, s'. split; [done|].
  by destruct (guide_never_contradicts_target (1 # 2) (RandomFrameGuide 1 3)
                 1 1 4 2 targets _ _ guides s' ltac:(solve_shape)
                 ltac:(solve_shape) Hg).
Defined.

(** X2. The full guide reveals everything of the samples it is applied
    to: on binary targets it returns, without drawing anything from
    [random], a guide that is 2 x target - 1 at every position of a
    selected sample, so no entry of it is 0 there; a sample that is not
    selected keeps its target. Built with [p = 1.0] it reveals every
    sample. *)
Theorem full_guide_reveals_every_frame {T G} `{UniformSource T}
    `{RandomSource G} B C F S p (targets : tensor4 Z) (t : T) (g : G) :
  has_shape4 B C F S targets → binary4 targets →
  let selected := selected_samples (bernoulli p B t).1 in
  ∃ guides,
    guide p FullGuide targets (t, g) = Some (guides, ((bernoulli p B t).2, g))
    ∧ has_shape4 B C F S guides
    ∧ (∀ b c f s tv, get4 targets b c f s = Some tv →
         (b ∈ selected →
          get4 guides b c f s = Some (2 * tv - 1) ∧ 2 * tv - 1 ≠ 0)
         ∧ (b ∉ selected → get4 guides b c f s = Some tv))
    ∧ ((1 <= p)%Q →
       ∀ b c f s tv, get4 targets b c f s = Some tv →
         get4 guides b c f s = Some (2 * tv - 1) ∧ 2 * tv - 1 ≠ 0).
Proof.
  intros Ht Hbin selected.
  pose proof (select_samples_shape B C F S (bernoulli p B t).1 targets Ht
                (length_bernoulli p B t)) as Hsel.
  fold selected in Hsel.
  assert (randomize_parameters FullGuide
            (select_samples (bernoulli p B t).1 targets) g
          = Some (full3 (length selected) C F true, g)) as Hr.
  { unfold randomize_parameters. by destruct Hsel as [-> _]. }
  destruct (guide_is_Some p FullGuide B C F S targets t g Ht)
    as [[guides s'] Hg]; [by eexists|].
  destruct (guide_inv p _ B C F S targets t g guides s' Ht Hg)
    as (Hsh & Hother & guided & g' & -> & Hr' & _ & Hin).
  rw Hr in Hr'. injection Hr' as <- <-.
  assert (∀ b c f s tv, get4 targets b c f s = Some tv → b ∈ selected →
            get4 guides b c f s = Some (2 * tv - 1) ∧ 2 * tv - 1 ≠ 0) as Hfull.
  { intros b c f s tv Hget [j Hj]%list_elem_of_lookup.
    destruct (Hin j b c f s tv Hj Hget) as (m & Hm & ->).
    assert (m = true) as ->.
    { rw get3_full3 in Hm. case_decide; congruence. }
    by destruct (binary4_get _ _ _ _ _ _ Hbin Hget) as [-> | ->]. }
  exists guides. split; [done|]. split; [done|]. split.
  - intros b c f s tv Hget. split; [by apply Hfull|].
    intros Hb. by rw Hother.
  - intros Hp b c f s tv Hget. apply Hfull; [done|].
    unfold selected. rw selected_always //. apply elem_of_seq.
    pose proof (get4_lt _ _ _ _ _ _ _ _ _ _ Ht Hget). lia.
Qed.

Lemma full_guide_reveals_every_frame_witness :
  let targets := Tensor4 (1, 1, 2, 2)%nat [[[[1; 0]; [0; 1]]]] in
  ∃ guides,
    guide 1 FullGuide targets ([] : percent_tape, [] : tape)
    = Some (guides, ([], []))
    ∧ ∀ b c f s tv, get4 targets b c f s = Some tv →
        get4 guides b c f s = Some (2 * tv - 1) ∧ 2 * tv - 1 ≠ 0.
Proof.
  intros targets.
  destruct (full_guide_reveals_every_frame 1 1 2 2 1 targets
              ([] : percent_tape) ([] : tape))
    as (guides & Hg & _ & _ & Hv); [solve_shape..|].
  exists guides. split; [done|]. by apply Hv.
Defined.

(** X3. The random-frame strategy rejects impossible requests: when it is
    applied to at least one sample it raises if [max_frames < min_frames],
    if [min_frames] exceeds the number of frames, or if [max_frames] is
    negative. Built with [p = 1.0] it is applied to every sample, so it
    raises on every non-empty batch; when no sample is selected, as on an
    empty batch, it draws nothing from [random] and returns the targets as
    they came. *)
Theorem random_frame_guide_rejects {T G} `{UniformSource T} `{RandomSource G}
    B C F S p min_frames max_frames (targets : tensor4 Z) (t : T) (g : G) :
  has_shape4 B C F S targets →
  let selected := selected_samples (bernoulli p B t).1 in
  (max_frames < min_frames ∨ Z.of_nat F < min_frames ∨ max_frames < 0 →
   (selected ≠ [] →
    guide p (RandomFrameGuide min_frames max_frames) targets (t, g) = None)
   ∧ ((1 <= p)%Q → (0 < B)%nat →
      guide p (RandomFrameGuide min_frames max_frames) targets (t, g) = None))
  ∧ (selected = [] →
     guide p (RandomFrameGuide min_frames max_frames) targets (t, g)
     = Some (targets, ((bernoulli p B t).2, g)))
  ∧ (B = 0%nat →
     guide p (RandomFrameGuide min_frames max_frames) targets (t, g)
     = Some (Tensor4 (0, C, F, S)%nat [], (t, g))).
Proof.
  intros Ht selected.
  pose proof (guide_eq p (RandomFrameGuide min_frames max_frames) B C F S
                targets t g Ht) as Heq.
  fold selected in Heq. split_and!.
  - intros Hbad.
    assert (selected ≠ [] →
            guide p (RandomFrameGuide min_frames max_frames) targets (t, g)
            = None) as Hnone.
    { intros Hne. rw Heq decide_False //.
      pose proof (select_samples_shape B C F S (bernoulli p B t).1 targets Ht
                    (length_bernoulli p B t)) as [Hs _].
      fold selected in Hs.
      unfold perturb, eff_bind, randomize_parameters. rw Hs.
      destruct selected as [|b0 rest]; [done|]. simpl. unfold eff_bind.
      destruct (randint min_frames max_frames g) as [[k g1]|] eqn:Hk; [|done].
      apply randint_range in Hk. unfold sample. rw decide_False; [|done].
      rw length_seq. lia. }
    split; [done|]. intros Hp HB. apply Hnone.
    unfold selected. rw selected_always //. destruct B; [lia|done].
  - intros He. by rw Heq decide_True.
  - intros ->. destruct Ht as [Hs [Hl _]]. apply nil_length_inv in Hl.
    rw Heq /=. destruct targets as [sh d]. simpl in *. by subst.
Qed.

Lemma random_frame_guide_rejects_witness :
  guide 1 (RandomFrameGuide 6 10)
    (Tensor4 (1, 1, 5, 2)%nat [[[[1; 0]; [0; 0]; [1; 1]; [0; 1]; [0; 0]]]])
    ([] : percent_tape, [2]%nat : tape)
  = None.
Proof.
  destruct (random_frame_guide_rejects 1 1 5 2 1 6 10
              (Tensor4 (1, 1, 5, 2)%nat
                 [[[[1; 0]; [0; 0]; [1; 1]; [0; 1]; [0; 0]]]])
              ([] : percent_tape) ([2]%nat : tape))
    as [Hbad _]; [solve_shape|].
  apply Hbad; [lia|done|lia].
Defined.

(** ** The loss and the drop filter *)

Section LossBounds.
Import Loss.
Variable max_speakers_per_chunk : nat.
Variable freedom : Q.
Context {Waveform Prediction : Type}.
Variable model : list Waveform → tensor3 Z → Prediction.
Variable to_multilabel : Prediction → tensor3 Q.
Variable to_powerset : tensor3 Q → tensor3 Q.
Variable permutate : ∀ A, tensor3 Q → tensor3 A → option (tensor3 Q) → tensor3 A.
Variable nll_loss : Prediction → list (list nat) → option (tensor3 Q) → Q.

(** X4. With a freedom coefficient between 0 and 1 the loss of
    [training_step] is a weighted mean of the two losses it computes and
    logs, the negative log-likelihood of the prediction against the
    permutated target and against the permutated decoded guide: it lies
    between the smaller and the larger of the two. *)
Theorem training_step_loss_between (batch : batch Waveform) :
  any_kept (keep max_speakers_per_chunk (y batch)) = true →
  (0 <= freedom)%Q → (freedom <= 1)%Q →
  let waveform := select (keep max_speakers_per_chunk (y batch)) (X batch) in
  let target := select (keep max_speakers_per_chunk (y batch)) (y batch) in
  let prediction := model waveform (guide batch) in
  let multilabel := to_multilabel prediction in
  let seg_loss :=
    nll_loss prediction
      (argmax (to_powerset
                 (tmap3 inject_Z (permutate Z multilabel (rows <$> target) None))))
      None in
  let weight := guided_weight (guide batch) in
  let guide_loss :=
    if any_nonzero (guide batch) then
      nll_loss prediction
        (argmax (to_powerset
                   (permutate Q multilabel
                      (tmap3 (λ v, ((inject_Z v + 1) * (1 # 2))%Q) (guide batch))
                      (Some weight))))
        (Some weight)
    else 0%Q in
  logged (training_step max_speakers_per_chunk freedom model to_multilabel
            to_powerset permutate nll_loss batch)
  = [("loss/train/segmentation"%string, seg_loss);
     ("loss/train/guide"%string, guide_loss);
     ("loss/train"%string,
      loss (training_step max_speakers_per_chunk freedom model to_multilabel
              to_powerset permutate nll_loss batch))]
  ∧ (Qmin seg_loss guide_loss
     <= loss (training_step max_speakers_per_chunk freedom model
                to_multilabel to_powerset permutate nll_loss batch))%Q
  ∧ (loss (training_step max_speakers_per_chunk freedom model to_multilabel
             to_powerset permutate nll_loss batch)
     <= Qmax seg_loss guide_loss)%Q.
Proof.
  intros Hany H0 H1 waveform target prediction multilabel s weight gl.
  rw (training_step_kept max_speakers_per_chunk freedom model to_multilabel
        to_powerset permutate nll_loss batch Hany).
  cbn [loss logged].
  fold waveform target prediction multilabel s weight gl.
  split; [done|].
  assert (0 <= 1 - freedom)%Q as H1' by lra.
  destruct (Qlt_le_dec s gl) as [Hlt|Hle].
  - rw (Q.min_l s gl); [lra|]. rw (Q.max_r s gl); [lra|].
    assert (0 <= (1 - freedom) * (gl - s))%Q by (apply Qmult_le_0_compat; lra).
    assert (0 <= freedom * (gl - s))%Q by (apply Qmult_le_0_compat; lra).
    split; lra.
  - rw (Q.min_r s gl); [lra|]. rw (Q.max_l s gl); [lra|].
    assert (0 <= (1 - freedom) * (s - gl))%Q by (apply Qmult_le_0_compat; lra).
    assert (0 <= freedom * (s - gl))%Q by (apply Qmult_le_0_compat; lra).
    split; lra.
Qed.
End LossBounds.

Lemma training_step_loss_between_witness :
  let batch : Loss.batch nat :=
    {| Loss.X := [7%nat];
       Loss.y := [NdArray 3 2 [[1; 0]; [0; 1]; [0; 0]]];
       Loss.guide := [[[1; -1]; [0; 0]; [0; 0]]] |} in
  let step :=
    Loss.training_step 2 (1 # 4) (λ w _, w) (λ _, []) (λ t, t) (λ _ _ c _, c)
      (λ _ _ w, match w with Some _ => 5%Q | None => 3%Q end) in
  (3 <= Loss.loss (step batch))%Q ∧ (Loss.loss (step batch) <= 5)%Q.
Proof.
  intros batch step.
  destruct (training_step_loss_between 2 (1 # 4) (λ w _, w) (λ _, [])
              (λ t, t) (λ _ _ c _, c)
              (λ _ _ w, match w with Some _ => 5%Q | None => 3%Q end) batch)
    as (Hlog & Hlo & Hhi); [by vm_compute..|].
  split; [exact Hlo|exact Hhi].
Defined.

(** X5. The drop filter of [training_step] keeps the surviving samples in
    their order with each waveform still next to its own target, every
    surviving target is within the speaker budget, and filtering the
    survivors again drops nothing. *)
Theorem drop_filter_aligned_idempotent {W} max_speakers_per_chunk
    (targets : list ndarray) (waveform : list W) :
  length waveform = length targets →
  let keep := Loss.keep max_speakers_per_chunk targets in
  let kept := Loss.select keep targets in
  zip kept (Loss.select keep waveform) = Loss.select keep (zip targets waveform)
  ∧ kept `sublist_of` targets
  ∧ Forall (λ a, Loss.num_speakers a ≤ max_speakers_per_chunk)%nat kept
  ∧ Loss.keep max_speakers_per_chunk kept = replicate (length kept) true
  ∧ Loss.select (Loss.keep max_speakers_per_chunk kept) kept = kept.
Proof.
  intros Hlen keep kept.
  assert (kept = filter (λ a, Loss.num_speakers a ≤ max_speakers_per_chunk)%nat
                   targets) as Hkept.
  { exact (select_self
             (λ a, Loss.num_speakers a ≤ max_speakers_per_chunk)%nat targets). }
  assert (Forall (λ a, Loss.num_speakers a ≤ max_speakers_per_chunk)%nat kept)
    as Hall.
  { rw Hkept. apply Forall_forall. by intros a [? _]%list_elem_of_filter. }
  assert (Loss.keep max_speakers_per_chunk kept = replicate (length kept) true)
    as Hkeep.
  { clear Hkept. induction Hall as [|a l Ha _ IH]; [done|]. simpl.
    rw IH. by rw bool_decide_eq_true_2. }
  split_and!; [|rw Hkept; apply sublist_filter|done|done|rw Hkeep; apply select_all].
  subst kept keep. unfold Loss.select, Loss.keep. clear Hkept Hall Hkeep.
  revert waveform Hlen. induction targets as [|a targets IH];
    intros [|w waveform] Hlen; simplify_eq/=; [done|].
  rw !filter_cons /=.
  destruct (decide (bool_decide (Loss.num_speakers a ≤ max_speakers_per_chunk)%nat
                    = true)); simpl; [f_equal|]; by apply IH.
Qed.

Lemma drop_filter_aligned_idempotent_witness :
  let targets := [NdArray 2 2 [[1; 0]; [0; 1]]; NdArray 1 1 [[1]];
                  NdArray 2 2 [[0; 0]; [0; 1]]] in
  Loss.select (Loss.keep 1 targets) targets
  = [NdArray 1 1 [[1]]; NdArray 2 2 [[0; 0]; [0; 1]]]
  ∧ zip (Loss.select (Loss.keep 1 targets) targets)
        (Loss.select (Loss.keep 1 targets) ["a"; "b"; "c"]%string)
    = Loss.select (Loss.keep 1 targets) (zip targets ["a"; "b"; "c"]%string).
Proof.
  intros targets. split; [by vm_compute|].
  by destruct (drop_filter_aligned_idempotent 1 targets ["a"; "b"; "c"]%string).
Defined.

(** ** More on the frame target discretizer *)

Import Chunk.

(** What [prepare_chunk] returns for a known file, before any assumption
    on the chunk or the frame grid. *)
Lemma prepare_chunk_inv annotations metadata_scope step num_frames file
    start_time duration sc :
  metadata_scope !! file = Some sc →
  let chunk := {| seg_start := start_time;
                  seg_end := (start_time + duration)%Q |} in
  let included := chunk_annotations annotations file chunk in
  let labels := unique (label_idx sc <$> included) in
  ∃ y, prepare_chunk annotations metadata_scope step num_frames file
         start_time duration = Some {| y_data := y; y_labels := labels |}
    ∧ wf_ndarray y ∧ nrows y = num_frames ∧ ncols y = length labels
    ∧ ∀ f j l, (f < num_frames)%nat → labels !! j = Some l →
        entry y f j
        = Some (if decide (Exists (λ a,
                     label_idx sc a = l
                     ∧ (slice_index (start_idx step chunk a) num_frames ≤ f
                        < slice_index (end_idx step chunk a) num_frames)%nat)
                   included)
                then 1 else 0).
Proof.
  intros Hsc chunk included labels. unfold prepare_chunk. rw Hsc /=.
  fold chunk. fold included. fold labels.
  set (mapping := list_to_map (zip labels (seq 0 (length labels))) : gmap Z nat).
  assert (NoDup labels) as Hnd by apply NoDup_unique.
  destruct (mark_annotations_spec step sc chunk mapping included
              (zeros num_frames (length labels)))
    as (y' & Hy' & Hr & Hc & Hwf & Hentry).
  { intros a Ha. assert (label_idx sc a ∈ labels) as Hin.
    { apply elem_of_unique, list_elem_of_fmap. by exists a. }
    apply list_elem_of_lookup in Hin as [j Hj].
    exists j. by apply mapping_lookup. }
  rw Hy' /=. exists y'. split; [done|].
  split; [apply Hwf, wf_zeros|]. split; [done|]. split; [done|].
  intros f j l Hf Hj. rw Hentry entry_zeros.
  apply lookup_lt_Some in Hj as Hjlt. rw decide_True //=. f_equal.
  assert (∀ a, mapping !! label_idx sc a = Some j ↔ label_idx sc a = l) as Hmap.
  { intros a. rw /mapping mapping_lookup //. split; [congruence|by intros ->]. }
  destruct (decide (Exists _ included)) as [He|He],
           (decide (Exists _ included)) as [He'|He']; try done; exfalso.
  - apply He'. eapply Exists_impl; [done|]. intros a [Hm ?]. simpl in *.
    split; [by apply Hmap|done].
  - apply He. eapply Exists_impl; [done|]. intros a [Hm ?]. simpl in *.
    split; [by apply Hmap|done].
Qed.

(** Two matrices of the same shape with the same entries are equal. *)
Lemma ndarray_eq a a' :
  wf_ndarray a → wf_ndarray a' → nrows a = nrows a' → ncols a = ncols a' →
  (∀ f j, (f < nrows a)%nat → (j < ncols a)%nat → entry a f j = entry a' f j) →
  a = a'.
Proof.
  destruct a as [n m rs], a' as [n' m' rs']. simpl.
  intros [Hl Hr] [Hl' Hr'] <- <- Hentry. simpl in *. f_equal.
  apply list_eq_same_length with n; [done..|].
  intros f r r' Hf Hrf Hrf'.
  eapply Forall_lookup_1 in Hr; [|done]. eapply Forall_lookup_1 in Hr'; [|done].
  simpl in *. apply list_eq_same_length with m; [done..|].
  intros j x x' Hj Hx Hx'. specialize (Hentry f j Hf Hj).
  unfold entry in Hentry. simpl in Hentry. rw Hrf Hrf' /= Hx Hx' in Hentry.
  congruence.
Qed.

(** X6. The target of a chunk does not depend on the order in which the
    annotations are stored: [prepare_chunk] returns the same labels and the
    same matrix for any reordering of the annotation table. *)
Theorem prepare_chunk_order_irrelevant annotations annotations'
    metadata_scope step num_frames file start_time duration :
  annotations ≡ₚ annotations' →
  prepare_chunk annotations metadata_scope step num_frames file
    start_time duration
  = prepare_chunk annotations' metadata_scope step num_frames file
      start_time duration.
Proof.
  intros Hp. destruct (metadata_scope !! file) as [sc|] eqn:Hsc;
    [|by rw /prepare_chunk Hsc].
  destruct (prepare_chunk_inv annotations metadata_scope step num_frames file
              start_time duration sc Hsc) as (y & -> & Hwf & Hr & Hc & He).
  destruct (prepare_chunk_inv annotations' metadata_scope step num_frames file
              start_time duration sc Hsc) as (y' & -> & Hwf' & Hr' & Hc' & He').
  set (chunk := {| seg_start := start_time;
                   seg_end := (start_time + duration)%Q |}) in *.
  assert (chunk_annotations annotations file chunk
          ≡ₚ chunk_annotations annotations' file chunk) as Hinc.
  { unfold chunk_annotations. by rw Hp. }
  assert (unique (label_idx sc <$> chunk_annotations annotations file chunk)
          = unique (label_idx sc <$> chunk_annotations annotations' file chunk))
    as Hlabels.
  { apply (StronglySorted_unique Z.le).
    - apply StronglySorted_merge_sort; apply _.
    - apply StronglySorted_merge_sort; apply _.
    - rw /unique !merge_sort_Permutation.
      apply NoDup_Permutation; [apply NoDup_remove_dups..|].
      intros x. rw !elem_of_remove_dups. by rw Hinc. }
  f_equal. rw -Hlabels in Hc' He' |- *. f_equal.
  apply ndarray_eq; [done|done|congruence|congruence|].
  intros f j Hf Hj. rw Hr in Hf. rw Hc in Hj.
  destruct (lookup_lt_is_Some_2 _ _ Hj) as [l Hl].
  rw (He f j l Hf Hl) (He' f j l Hf Hl). f_equal.
  destruct (decide (Exists _ (chunk_annotations annotations file chunk)))
    as [Hex|Hex],
    (decide (Exists _ (chunk_annotations annotations' file chunk)))
    as [Hex'|Hex']; try done; exfalso.
  - apply Hex'. by rw -Hinc.
  - apply Hex. by rw Hinc.
Qed.

Lemma prepare_chunk_order_irrelevant_witness :
  let a1 := {| file_id := 0; start := 1 # 2; end_ := 5 # 2;
               file_label_idx := 7; database_label_idx := 70;
               global_label_idx := 700 |}%Q in
  let a2 := {| file_id := 0; start := 2; end_ := 4;
               file_label_idx := 3; database_label_idx := 30;
               global_label_idx := 300 |}%Q in
  prepare_chunk [a1; a2] [ScopeFile] 1 9 0 0 10
  = prepare_chunk [a2; a1] [ScopeFile] 1 9 0 0 10.
Proof.
  intros a1 a2. apply prepare_chunk_order_irrelevant. apply perm_swap.
Defined.

(** X7. A chunk that no annotation of its file overlaps has an empty list
    of labels and a target of [num_frames] rows without columns;
    [prepare_chunk] does not fail on it. A file the task does not know is
    an error. *)
Theorem prepare_chunk_without_speech annotations metadata_scope step num_frames
    file start_time duration :
  (metadata_scope !! file = None →
   prepare_chunk annotations metadata_scope step num_frames file
     start_time duration = None)
  ∧ (is_Some (metadata_scope !! file) →
     (∀ a, a ∈ annotations → file_id a = file →
           ¬ ((start a < start_time + duration)%Q ∧ (start_time < end_ a)%Q)) →
     prepare_chunk annotations metadata_scope step num_frames file
       start_time duration
     = Some {| y_data := zeros num_frames 0; y_labels := [] |}).
Proof.
  split; [by intros Hn; rw /prepare_chunk Hn|].
  intros [sc Hsc] Hnone. unfold prepare_chunk. rw Hsc /=.
  assert (chunk_annotations annotations file
            {| seg_start := start_time; seg_end := (start_time + duration)%Q |}
          = []) as ->; [|done].
  apply elem_of_nil_inv. intros a Ha%elem_of_chunk_annotations.
  destruct Ha as (Ha & Hf & Hs & He). by apply (Hnone a Ha Hf).
Qed.

Lemma prepare_chunk_without_speech_witness :
  prepare_chunk
    [ {| file_id := 0; start := 10; end_ := 12; file_label_idx := 6;
         database_label_idx := 60; global_label_idx := 600 |} ]%Q
    [ScopeFile] 1 9 0 0 10
  = Some {| y_data := zeros 9 0; y_labels := [] |}.
Proof.
  apply prepare_chunk_without_speech; [by eexists|].
  intros a ->%list_elem_of_singleton _ [Hlt _]. by vm_compute in Hlt.
Defined.

(** ** More on matrices *)

Section MoreMatrices.
Implicit Types (a : ndarray).

Lemma elem_of_columns a c :
  c ∈ columns a ↔ ∃ j, (j < ncols a)%nat ∧ c = column a j.
Proof.
  rw /columns /= list_elem_of_fmap. split.
  - intros (j & -> & Hj%elem_of_seq). exists j. split; [lia|done].
  - intros (j & Hj & ->). exists j. split; [done|]. apply elem_of_seq. lia.
Qed.

Lemma column_lookup a f j :
  wf_ndarray a → (j < ncols a)%nat → column a j !! f = entry a f j.
Proof.
  intros [_ Hr] Hj. rw /column /entry list_lookup_fmap.
  destruct (rows a !! f) as [r|] eqn:Hrf; [|done]. simpl.
  eapply Forall_lookup_1 in Hr; [|done]. simpl in Hr.
  symmetry. apply list_lookup_lookup_total_lt. lia.
Qed.

Lemma entry_in_range a f j v :
  wf_ndarray a → entry a f j = Some v → (f < nrows a)%nat ∧ (j < ncols a)%nat.
Proof.
  intros [Hl Hr] Hv. unfold entry in Hv.
  destruct (rows a !! f) as [r|] eqn:Hrf; [|done]. simpl in Hv.
  eapply Forall_lookup_1 in Hr; [|done]. simpl in Hr.
  apply lookup_lt_Some in Hrf, Hv. lia.
Qed.

(** The columns of [a[:, idx]] are the columns of [a] that [idx] names. *)
Lemma columns_select idx a :
  columns (select_columns idx a) = column a <$> idx.
Proof.
  rw /columns /=.
  transitivity (column a <$> ((λ j, idx !!! j) <$> seq 0 (length idx)));
    [|by rw fmap_lookup_total_seq].
  rw -list_fmap_compose.
  apply list_fmap_ext. intros i j [-> Hj]%lookup_seq. simpl.
  rw /column /= -list_fmap_compose. apply list_fmap_ext. intros k r _. simpl.
  by rw list_lookup_total_fmap.
Qed.
End MoreMatrices.

(** A sorted list without repetition is strictly ascending. *)
Lemma StronglySorted_le_lt (l : list Z) :
  StronglySorted Z.le l → NoDup l → StronglySorted Z.lt l.
Proof.
  induction 1 as [|x l Hs IH Hx]; intros Hnd; [constructor|].
  apply NoDup_cons in Hnd as [Hx' Hnd]. constructor; [by apply IH|].
  apply Forall_forall. intros y Hy.
  pose proof (proj1 (Forall_forall _ _) Hx y Hy). simpl in *.
  assert (x ≠ y) by (by intros ->). lia.
Qed.

Lemma StronglySorted_lt_lookup (l : list Z) i j x y :
  StronglySorted Z.lt l → l !! i = Some x → l !! j = Some y →
  (i < j)%nat → x < y.
Proof.
  intros Hs. revert i j. induction Hs as [|z l Hs IH Hz]; intros i j Hi Hj Hlt.
  { done. }
  destruct j as [|j]; [lia|]. destruct i as [|i]; simplify_eq/=.
  - eapply Forall_lookup_1 in Hz; [|done]. done.
  - apply (IH i j); [done..|lia].
Qed.

(** X8. The columns of a target are ordered by label: the labels that
    [prepare_chunk] returns are strictly ascending, so the column of a
    smaller label always comes before the column of a larger one, whatever
    the order of the annotations. *)
Theorem prepare_chunk_labels_ascending annotations metadata_scope step
    num_frames file start_time duration t :
  prepare_chunk annotations metadata_scope step num_frames file
    start_time duration = Some t →
  StronglySorted Z.lt (y_labels t)
  ∧ ∀ i j li lj, y_labels t !! i = Some li → y_labels t !! j = Some lj →
      ((i < j)%nat ↔ li < lj).
Proof.
  intros Ht. destruct (metadata_scope !! file) as [sc|] eqn:Hsc;
    [|by rw /prepare_chunk Hsc in Ht].
  destruct (prepare_chunk_inv annotations metadata_scope step num_frames file
              start_time duration sc Hsc) as (y & Hy & _).
  rw Hy in Ht. injection Ht as <-. simpl.
  assert (StronglySorted Z.lt
            (unique (label_idx sc <$> chunk_annotations annotations file
               {| seg_start := start_time;
                  seg_end := (start_time + duration)%Q |}))) as Hs.
  { apply StronglySorted_le_lt; [|apply NoDup_unique].
    apply StronglySorted_merge_sort; apply _. }
  split; [done|]. intros i j li lj Hi Hj. split.
  - by apply (StronglySorted_lt_lookup _ i j li lj Hs).
  - intros Hlt. destruct (decide (i < j)%nat) as [|Hge]; [done|]. exfalso.
    destruct (decide (i = j)) as [->|Hne]; [simplify_eq; lia|].
    pose proof (StronglySorted_lt_lookup _ j i lj li Hs Hj Hi). lia.
Qed.

Lemma prepare_chunk_labels_ascending_witness :
  let a1 := {| file_id := 0; start := 1 # 2; end_ := 5 # 2;
               file_label_idx := 7; database_label_idx := 70;
               global_label_idx := 700 |}%Q in
  let a2 := {| file_id := 0; start := 2; end_ := 4;
               file_label_idx := 3; database_label_idx := 30;
               global_label_idx := 300 |}%Q in
  y_labels <$> prepare_chunk [a1; a2] [ScopeFile] 1 9 0%nat 0 10 = Some [3; 7]
  ∧ StronglySorted Z.lt [3; 7].
Proof.
  intros a1 a2. split; [by vm_compute|].
  by destruct (prepare_chunk_labels_ascending [a1; a2] [ScopeFile] 1 9 0%nat 0 10
                 {| y_data := NdArray 9 2 [[0; 1]; [0; 1]; [1; 1]; [1; 0];
                                            [0; 0]; [0; 0]; [0; 0]; [0; 0];
                                            [0; 0]];
                    y_labels := [3; 7] |} ltac:(by vm_compute)).
Defined.

(** Frame indices and times: [Qfloor (x / step)] is below [n] exactly when
    [x] is before the end of a grid of [n] frames. *)
Lemma Qfloor_div_lt (x step : Q) (n : Z) :
  (0 < step)%Q → Qfloor (x / step) < n ↔ (x < inject_Z n * step)%Q.
Proof.
  intros Hstep.
  assert (x / step * step == x)%Q as Hx.
  { unfold Qdiv. rw -Qmult_assoc (Qmult_comm (/ step)) Qmult_inv_r; [lra|].
    apply Qmult_1_r. }
  pose proof (Qfloor_le (x / step)). pose proof (Qlt_floor (x / step)).
  split.
  - intros Hlt. rw -Hx. apply Qmult_lt_r; [done|].
    eapply Qlt_le_trans; [done|]. rw -Zle_Qle. lia.
  - intros Hlt. rw Zlt_Qlt. eapply Qle_lt_trans; [done|].
    apply (Qmult_lt_r _ _ step); [done|]. by rw Hx.
Qed.

(** An annotation that is not empty and meets the chunk marks the frame in
    which it begins, if the grid has that frame. *)
Lemma annotation_marks_start_frame step num_frames chunk a :
  (0 < step)%Q → (seg_start chunk < seg_end chunk)%Q →
  (start a < end_ a)%Q →
  (start a < seg_end chunk)%Q → (seg_start chunk < end_ a)%Q →
  (Qmax (start a) (seg_start chunk) - seg_start chunk
   < inject_Z (Z.of_nat num_frames) * step)%Q →
  let f := Z.to_nat (start_idx step chunk a) in
  (f < num_frames)%nat
  ∧ (slice_index (start_idx step chunk a) num_frames ≤ f
     < slice_index (end_idx step chunk a) num_frames)%nat.
Proof.
  intros Hstep Hchunk Ha Hs He Hgrid f.
  pose proof (start_idx_nonneg step chunk a Hstep) as H0.
  assert (start_idx step chunk a < Z.of_nat num_frames) as Hlt.
  { by apply Qfloor_div_lt. }
  assert (start_idx step chunk a < end_idx step chunk a) as Hse.
  { unfold start_idx, end_idx.
    set (x := (Qmax (start a) (seg_start chunk) - seg_start chunk)%Q).
    set (y := (Qmin (end_ a) (seg_end chunk) - seg_start chunk)%Q).
    assert (x < y)%Q as Hxy.
    { unfold x, y. apply Qplus_lt_l.
      apply Q.max_lub_lt; by apply Q.min_glb_lt. }
    pose proof (Qfloor_le (x / step)). pose proof (Qle_ceiling (y / step)).
    rw Zlt_Qlt. eapply Qle_lt_trans; [done|]. eapply Qlt_le_trans; [|done].
    unfold Qdiv. apply Qmult_lt_r; [by apply Qinv_lt_0_compat|done]. }
  assert (f < num_frames)%nat as Hf by (unfold f; lia).
  split; [done|]. apply slice_index_range; [lia..|]. unfold f. lia.
Qed.

(** X9. A label's column is silent exactly when every annotation of that
    label begins at or after the end of the frame grid. When the frame grid
    covers the chunk ([num_frames] x [step] is at least the duration),
    every label has an active frame, and the number of speakers that the
    drop filter counts is the number of labels. *)
Theorem prepare_chunk_active_labels annotations metadata_scope step num_frames
    file start_time duration sc :
  (0 < step)%Q → (0 < duration)%Q → metadata_scope !! file = Some sc →
  (∀ a, a ∈ annotations → (start a < end_ a)%Q) →
  let chunk := {| seg_start := start_time;
                  seg_end := (start_time + duration)%Q |} in
  let included := chunk_annotations annotations file chunk in
  ∃ t, prepare_chunk annotations metadata_scope step num_frames file
         start_time duration = Some t
    ∧ (∀ j l, y_labels t !! j = Some l →
         (active_column (y_data t) j ↔
          ∃ a, a ∈ included ∧ label_idx sc a = l
            ∧ (Qmax (start a) start_time - start_time
               < inject_Z (Z.of_nat num_frames) * step)%Q))
    ∧ ((duration <= inject_Z (Z.of_nat num_frames) * step)%Q →
       (∀ j, (j < ncols (y_data t))%nat → active_column (y_data t) j)
       ∧ Loss.num_speakers (y_data t) = length (y_labels t)).
Proof.
  intros Hstep Hdur Hsc Hpos chunk included.
  assert (seg_start chunk < seg_end chunk)%Q as Hchunk.
  { simpl. rw -{1}(Qplus_0_r start_time). by apply Qplus_lt_r. }
  destruct (prepare_chunk_inv annotations metadata_scope step num_frames file
              start_time duration sc Hsc) as (y & Hy & Hwf & Hr & Hc & Hentry).
  fold chunk in Hy, Hc, Hentry. fold included in Hy, Hc, Hentry.
  set (labels := unique (label_idx sc <$> included)) in *.
  eexists. split; [exact Hy|]. simpl.
  assert (∀ j l, labels !! j = Some l →
            (active_column y j ↔
             ∃ a, a ∈ included ∧ label_idx sc a = l
               ∧ (Qmax (start a) start_time - start_time
                  < inject_Z (Z.of_nat num_frames) * step)%Q)) as Hiff.
  { intros j l Hj. split.
    - intros (f & v & Hv & Hne).
      assert (f < num_frames)%nat as Hf.
      { unfold entry in Hv. destruct (rows y !! f) as [r|] eqn:Hrf; [|done].
        apply lookup_lt_Some in Hrf. destruct Hwf as [Hl _]. lia. }
      rw (Hentry f j l Hf Hj) in Hv.
      case_decide as Hex; [|by simplify_eq].
      apply Exists_exists in Hex as (a & Ha & Hl & Hrange).
      exists a. split; [done|]. split; [done|].
      apply elem_of_chunk_annotations in Ha as (_ & _ & Hs & He).
      pose proof (start_idx_nonneg step chunk a Hstep) as H0.
      pose proof (end_idx_nonneg step chunk a Hstep Hchunk He) as H1.
      apply slice_index_range in Hrange; [|done..].
      apply (Qfloor_div_lt _ step); [done|].
      change (start_idx step chunk a < Z.of_nat num_frames). lia.
    - intros (a & Ha & Hl & Hgrid).
      apply elem_of_chunk_annotations in Ha as Ha'.
      destruct Ha' as (Hin & _ & Hs & He).
      destruct (annotation_marks_start_frame step num_frames chunk a)
        as [Hf Hrange]; [done|done|by apply Hpos|done..|].
      exists (Z.to_nat (start_idx step chunk a)), 1.
      split; [|done]. rw (Hentry _ j l Hf Hj). rw decide_True //.
      apply Exists_exists. by exists a. }
  split; [done|]. intros Hcover.
  assert (∀ j, (j < ncols y)%nat → active_column y j) as Hall.
  { intros j Hj. rw Hc in Hj.
    destruct (lookup_lt_is_Some_2 _ _ Hj) as [l Hl]. apply (Hiff j l Hl).
    assert (l ∈ labels) as Hin by (by eapply list_elem_of_lookup_2).
    apply elem_of_unique, list_elem_of_fmap in Hin as (a & -> & Ha).
    exists a. split; [done|]. split; [done|].
    apply elem_of_chunk_annotations in Ha as (_ & _ & Hs & He). simpl in *.
    eapply Qlt_le_trans; [|exact Hcover].
    assert (Qmax (start a) start_time < start_time + duration)%Q
      by (by apply Q.max_lub_lt).
    lra. }
  split; [done|].
  destruct (num_speakers_active y Hwf) as (active & Hnd & <- & Hact).
  rw -Hc -(length_seq (ncols y) 0). apply Permutation_length.
  apply NoDup_Permutation; [done|apply NoDup_seq|].
  intros j. rw Hact elem_of_seq. split; [intros [? _]; lia|].
  intros [_ Hj]. split; [lia|]. apply Hall. lia.
Qed.

Lemma prepare_chunk_active_labels_witness :
  let annotations :=
    [ {| file_id := 0; start := 0; end_ := 3; file_label_idx := 1;
         database_label_idx := 1; global_label_idx := 1 |};
      {| file_id := 0; start := 19 # 2; end_ := 10; file_label_idx := 2;
         database_label_idx := 2; global_label_idx := 2 |} ]%Q in
  ∃ t, prepare_chunk annotations [ScopeFile] 1 10 0 0 10 = Some t
    ∧ Loss.num_speakers (y_data t) = length (y_labels t).
Proof.
  intros annotations.
  destruct (prepare_chunk_active_labels annotations [ScopeFile] 1 10 0%nat 0 10
              ScopeFile) as (t & Ht & _ & Hcover); [done..| |].
  { intros a [->|[->|[]%elem_of_nil]%elem_of_cons]%elem_of_cons; done. }
  exists t. split; [done|]. by apply Hcover.
Defined.

(** ** Adding annotations *)

(** X10. Adding annotations only adds activity: every label of the target
    built from a table of annotations is still a label of the target built
    from a larger table, and every frame in which it was active is still
    active there. *)
Theorem prepare_chunk_monotone annotations annotations' metadata_scope step
    num_frames file start_time duration t t' :
  annotations ⊆ annotations' →
  prepare_chunk annotations metadata_scope step num_frames file
    start_time duration = Some t →
  prepare_chunk annotations' metadata_scope step num_frames file
    start_time duration = Some t' →
  ∀ j l, y_labels t !! j = Some l →
    ∃ j', y_labels t' !! j' = Some l
      ∧ ∀ f, entry (y_data t) f j = Some 1 → entry (y_data t') f j' = Some 1.
Proof.
  intros Hsub Ht Ht' j l Hj.
  destruct (metadata_scope !! file) as [sc|] eqn:Hsc;
    [|by rw /prepare_chunk Hsc in Ht].
  destruct (prepare_chunk_inv annotations metadata_scope step num_frames file
              start_time duration sc Hsc) as (y & Hy & Hwf & Hr & Hc & He).
  destruct (prepare_chunk_inv annotations' metadata_scope step num_frames file
              start_time duration sc Hsc) as (y' & Hy' & Hwf' & Hr' & Hc' & He').
  rw Hy in Ht. injection Ht as <-. rw Hy' in Ht'. injection Ht' as <-.
  simpl in *.
  set (chunk := {| seg_start := start_time;
                   seg_end := (start_time + duration)%Q |}) in *.
  assert (∀ a, a ∈ chunk_annotations annotations file chunk →
               a ∈ chunk_annotations annotations' file chunk) as Hinc.
  { intros a. rw !elem_of_chunk_annotations. intros (Ha & ?). split; [|done].
    by apply Hsub. }
  assert (l ∈ unique (label_idx sc <$> chunk_annotations annotations' file chunk))
    as Hl'.
  { apply list_elem_of_lookup_2 in Hj.
    apply elem_of_unique, list_elem_of_fmap in Hj as (a & -> & Ha).
    apply elem_of_unique, list_elem_of_fmap. exists a. split; [done|].
    by apply Hinc. }
  apply list_elem_of_lookup in Hl' as [j' Hj']. exists j'. split; [done|].
  intros f Hf.
  destruct (entry_in_range y f j 1 Hwf Hf) as [Hlt _]. rw Hr in Hlt.
  rw (He f j l Hlt Hj) in Hf. rw (He' f j' l Hlt Hj'). f_equal.
  case_decide as Hex; [|done]. rw decide_True //.
  apply Exists_exists in Hex as (a & Ha & Hcov). apply Exists_exists.
  exists a. split; [by apply Hinc|done].
Qed.

Lemma prepare_chunk_monotone_witness :
  let a1 := {| file_id := 0; start := 1 # 2; end_ := 5 # 2;
               file_label_idx := 7; database_label_idx := 70;
               global_label_idx := 700 |}%Q in
  let a2 := {| file_id := 0; start := 2; end_ := 4;
               file_label_idx := 3; database_label_idx := 30;
               global_label_idx := 300 |}%Q in
  ∃ t t', prepare_chunk [a1] [ScopeFile] 1 9 0 0 10 = Some t
    ∧ prepare_chunk [a2; a1] [ScopeFile] 1 9 0 0 10 = Some t'
    ∧ ∃ j', y_labels t' !! j' = Some 7
        ∧ ∀ f, entry (y_data t) f 0 = Some 1 → entry (y_data t') f j' = Some 1.
Proof.
  intros a1 a2.
  destruct (prepare_chunk [a1] [ScopeFile] 1 9 0%nat 0 10) as [t|] eqn:Ht;
    [|by vm_compute in Ht].
  destruct (prepare_chunk [a2; a1] [ScopeFile] 1 9 0%nat 0 10) as [t'|] eqn:Ht';
    [|by vm_compute in Ht'].
  exists t, t'. split; [done|]. split; [done|].
  apply (prepare_chunk_monotone [a1] [a2; a1] [ScopeFile] 1 9 0%nat 0 10 t t');
    [set_solver|done|done|].
  vm_compute in Ht. by injection Ht as <-.
Defined.

(** ** More on the speaker budget selector *)

Section Truncation.
Context {G : Type} `{RandomSource G} `{Argsort}.
Variable max_speakers_per_chunk : nat.
Import Collate.

(** The indices that truncation keeps. *)
Lemma kept_indices a :
  let kept := take max_speakers_per_chunk (argsort (uint64_neg (sum_axis0 a))) in
  NoDup kept ∧ ∀ j, j ∈ kept → (j < ncols a)%nat.
Proof.
  intros kept.
  pose proof (argsort_Permutation (uint64_neg (sum_axis0 a))) as Hp.
  rw /uint64_neg length_fmap length_sum_axis0 in Hp. split.
  - eapply sublist_NoDup; [|apply sublist_take]. rw /uint64_neg Hp.
    apply NoDup_seq.
  - intros j Hj%elem_of_take. destruct Hj as (i & Hi & _).
    apply list_elem_of_lookup_2 in Hi. rw Hp in Hi.
    apply elem_of_seq in Hi. lia.
Qed.

(** One sample with more labels than the budget. *)
Lemma collate_sample_truncates b (σ : store G) a l σ1 :
  heap σ !! data b = Some a → wf_ndarray a →
  (max_speakers_per_chunk < length (labels b))%nat →
  collate_sample max_speakers_per_chunk b σ = Some (l, σ1) →
  ∃ a', heap σ1 !! l = Some a'
    ∧ columns a' ≡ₚ
        column a <$> take max_speakers_per_chunk
                       (argsort (uint64_neg (sum_axis0 a))).
Proof.
  intros Ha Hwf Hgt. unfold collate_sample, eff_bind.
  rw decide_True //. unfold load, alloc. rw Ha. simpl.
  set (sel := select_columns _ a).
  unfold shuffle_in_place. simpl. rw lookup_insert_eq.
  pose proof (shuffle_columns_spec sel (rng σ)) as Hs.
  destruct (shuffle_columns sel (rng σ)) as [a' g']. simpl in Hs.
  destruct Hs as (_ & _ & _ & Hp); [by apply wf_select|].
  intros [= <- <-]. exists a'. split; [by rw /= lookup_insert_eq|].
  by rw Hp /sel columns_select.
Qed.

(** The batch loop: a sample with more labels than the budget gets a
    fresh array holding the kept columns of its own array. *)
Lemma collate_samples_truncated F batch (σ : store G) refs σ' :
  batch_ok F (heap σ) batch →
  eff_mapM (collate_sample max_speakers_per_chunk) batch σ = Some (refs, σ') →
  ∀ i b l, batch !! i = Some b → refs !! i = Some l →
    (max_speakers_per_chunk < length (labels b))%nat →
    ∃ a a', heap σ !! data b = Some a ∧ heap σ' !! l = Some a'
      ∧ columns a' ≡ₚ
          column a <$> take max_speakers_per_chunk
                         (argsort (uint64_neg (sum_axis0 a))).
Proof.
  revert σ refs. induction batch as [|b0 batch IH]; intros σ refs Hok Hm;
    [by intros []|].
  pose proof Hok as Hok0.
  apply Forall_cons in Hok0 as [(a0 & Ha0 & Hwf0 & HF0 & Hc0) Hrest].
  destruct (collate_sample_spec max_speakers_per_chunk b0 σ a0 Ha0 Hwf0 Hc0)
    as (l0 & a1 & g1 & Hstep & Hwf1 & Hr1 & Hc1 & Heq & Hne & _).
  set (σ1 := Store (<[l0 := a1]> (heap σ)) g1) in *.
  assert (batch_ok F (heap σ1) batch) as Hok1.
  { eapply Forall_impl; [done|]. intros b' (a' & Ha' & Hwf' & HF' & Hc').
    simpl. destruct (decide (data b' = l0)) as [Hl|Hl].
    - exists a1. rw Hl lookup_insert_eq.
      destruct (decide (length (labels b0) = max_speakers_per_chunk)) as [He|He].
      + destruct (Heq He) as [-> _]. rw Hl Ha0 in Ha'. injection Ha' as <-.
        split_and!; try done; congruence.
      + exfalso. apply (Hne He). rw -Hl. apply elem_of_dom. by eexists.
    - exists a'. by rw lookup_insert_ne. }
  simpl in Hm. unfold eff_bind in Hm. rw Hstep in Hm.
  destruct (eff_mapM _ batch σ1) as [[refs' σ'']|] eqn:Hm'; [|done].
  injection Hm as <- <-.
  destruct (collate_samples_spec max_speakers_per_chunk F batch σ1 Hok1)
    as (refs2 & σ2 & Hm2 & _ & _ & Hplace & _).
  rw Hm' in Hm2. injection Hm2 as <- <-.
  intros [|i] b l Hb Hl Hgt; simpl in Hb, Hl.
  - injection Hb as ->. injection Hl as ->.
    destruct (collate_sample_truncates b σ a0 l σ1 Ha0 Hwf0 Hgt Hstep)
      as (a1' & Ha1' & Hp).
    rw /= lookup_insert_eq in Ha1'. injection Ha1' as <-.
    destruct (Hplace l a1) as (a2 & Ha2 & _ & _ & _ & Hp2);
      [by rw /= lookup_insert_eq|done|].
    exists a0, a2. split; [done|]. split; [done|]. by rw Hp2.
  - destruct (IH σ1 refs' Hok1 Hm' i b l Hb Hl Hgt) as (a & a' & Ha & Ha' & Hp).
    exists a, a'. split; [|done]. simpl in Ha.
    destruct (decide (data b = l0)) as [Hd|Hd]; [|by rw lookup_insert_ne in Ha].
    exfalso.
    destruct (Forall_lookup_1 _ _ _ _ Hrest Hb) as (ab & Hab & _ & _ & Hcb).
    destruct (decide (length (labels b0) = max_speakers_per_chunk)) as [He|He].
    + destruct (Heq He) as [-> _]. rw Hd Ha0 in Hab. injection Hab as <-. lia.
    + apply (Hne He). rw -Hd. apply elem_of_dom. by eexists.
Qed.
End Truncation.

(** X11. Truncation keeps columns of the sample itself: when a sample has
    more labels than the budget, its collated target holds, in some order,
    [max_speakers_per_chunk] distinct columns of its own array, those that
    [np.argsort] ranks first, in whichever order it leaves equal keys. When
    every speaker of the sample has an active frame, these are the most
    talkative ones: no dropped column has more active frames than a kept
    one. *)
Theorem collate_y_truncation {G} `{RandomSource G} `{Argsort} max_speakers_per_chunk F
    batch (σ : store G) out σ' :
  batch_ok F (heap σ) batch →
  Collate.collate_y max_speakers_per_chunk batch σ = Some (out, σ') →
  ∀ i b, batch !! i = Some b →
    (max_speakers_per_chunk < length (Collate.labels b))%nat →
    ∃ a a', heap σ !! Collate.data b = Some a ∧ out !! i = Some a'
      ∧ let kept := take max_speakers_per_chunk
                      (argsort (uint64_neg (sum_axis0 a))) in
        NoDup kept ∧ length kept = max_speakers_per_chunk
        ∧ (∀ j, j ∈ kept → (j < ncols a)%nat)
        ∧ columns a' ≡ₚ column a <$> kept
        ∧ (Forall (λ s, 0 < s) (sum_axis0 a) →
           ∀ j k sj sk, j ∈ kept → (k < ncols a)%nat → k ∉ kept →
             sum_axis0 a !! j = Some sj → sum_axis0 a !! k = Some sk →
             sk ≤ sj).
Proof.
  intros Hok Hy i b Hb Hgt.
  assert (batch ≠ []) as Hne by (by intros ->).
  destruct (collate_y_Some max_speakers_per_chunk F batch σ Hne Hok)
    as (refs & out0 & σ0 & Hrefs & Hy0 & Hout).
  rw Hy in Hy0. injection Hy0 as <- <-.
  destruct (collate_samples_spec max_speakers_per_chunk F batch σ Hok)
    as (refs' & σ'' & Hrefs' & Hlen & _).
  rw Hrefs in Hrefs'. injection Hrefs' as <- <-.
  destruct (lookup_lt_is_Some_2 refs i) as [l Hl].
  { rw Hlen. by eapply lookup_lt_Some. }
  destruct (collate_samples_truncated max_speakers_per_chunk F batch σ refs σ'
              Hok Hrefs i b l Hb Hl Hgt) as (a & a' & Ha & Ha' & Hp).
  destruct (Forall2_lookup_l _ _ _ _ _ Hout Hl) as (a'' & Ho & Hla).
  rw Ha' in Hla. injection Hla as <-.
  destruct (Forall_lookup_1 _ _ _ _ Hok Hb) as (a0 & Ha0 & _ & _ & Hc0).
  rw Ha in Ha0. injection Ha0 as <-.
  exists a, a'. split; [done|]. split; [done|].
  destruct (kept_indices max_speakers_per_chunk a) as [Hnd Hin].
  pose proof (argsort_Permutation (uint64_neg (sum_axis0 a))) as Hperm.
  rw /uint64_neg length_fmap length_sum_axis0 in Hperm.
  fold (uint64_neg (sum_axis0 a)) in Hperm.
  split; [done|]. split.
  { rw length_take length_argsort /uint64_neg length_fmap length_sum_axis0.
    lia. }
  split; [done|]. split; [done|].
  intros Hpos j k sj sk Hj Hk Hnk Hsj Hsk.
  assert (k ∈ drop max_speakers_per_chunk (argsort (uint64_neg (sum_axis0 a))))
    as Hdrop.
  { assert (k ∈ argsort (uint64_neg (sum_axis0 a))) as Hkin.
    { rw Hperm. apply elem_of_seq. lia. }
    rw -(take_drop max_speakers_per_chunk (argsort _)) in Hkin.
    by apply elem_of_app in Hkin as [?|?]. }
  destruct (truncation_when_all_active a max_speakers_per_chunk j k Hpos Hj Hdrop)
    as (sj' & sk' & Hsj' & Hsk' & Hle).
  congruence.
Qed.

Lemma collate_y_truncation_witness :
  let a := activity [2; 1; 3]%nat 3 in
  let σ : store tape := Store {[ 0%nat := a ]} [1; 0; 2]%nat in
  let batch := [ {| Collate.data := 0%nat; Collate.labels := [4; 5; 6] |} ] in
  ∃ out σ' a',
    Collate.collate_y 2 batch σ = Some (out, σ') ∧ out !! 0%nat = Some a'
    ∧ columns a' ≡ₚ column a <$> take 2 (argsort (uint64_neg (sum_axis0 a))).
Proof.
  intros a σ batch.
  destruct (Collate.collate_y 2 batch σ) as [[out σ']|] eqn:Hy;
    [|by vm_compute in Hy].
  assert (batch_ok 3 (heap σ) batch) as Hok.
  { repeat constructor; eexists; (split; [by vm_compute|]); solve_shape. }
  destruct (collate_y_truncation 2 3 batch σ out σ' Hok Hy 0%nat
              {| Collate.data := 0%nat; Collate.labels := [4; 5; 6] |}
              eq_refl ltac:(simpl; lia))
    as (a0 & a' & Ha & Ho & _ & _ & _ & Hp & _).
  assert (a0 = a) as -> by (vm_compute in Ha; by injection Ha as <-).
  by exists out, σ', a'.
Defined.

(** What [collate_y] returns, sample by sample: a well-formed array of
    the collated shape whose columns come from the sample's own array or
    are all-zero. *)
Lemma collate_y_columns {G} `{RandomSource G} `{Argsort} max_speakers_per_chunk F batch
    (σ : store G) out σ' :
  batch_ok F (heap σ) batch →
  Collate.collate_y max_speakers_per_chunk batch σ = Some (out, σ') →
  length out = length batch
  ∧ ∀ i b, batch !! i = Some b →
      ∃ a a', heap σ !! Collate.data b = Some a ∧ out !! i = Some a'
        ∧ wf_ndarray a ∧ wf_ndarray a'
        ∧ nrows a' = F ∧ ncols a' = max_speakers_per_chunk
        ∧ ∀ c, c ∈ columns a' → c ∈ columns a ∨ c = replicate F 0.
Proof.
  intros Hok Hy.
  assert (batch ≠ []) as Hne by (by intros ->).
  destruct (collate_y_Some max_speakers_per_chunk F batch σ Hne Hok)
    as (refs & out0 & σ0 & Hrefs & Hy0 & Hout).
  rw Hy in Hy0. injection Hy0 as <- <-.
  destruct (collate_samples_spec max_speakers_per_chunk F batch σ Hok)
    as (refs' & σ'' & Hrefs' & Hlen & _ & Hplace & Hres).
  rw Hrefs in Hrefs'. injection Hrefs' as <- <-.
  split; [by rw -(Forall2_length _ _ _ Hout)|]. intros i b Hb.
  destruct (lookup_lt_is_Some_2 refs i) as [l Hl].
  { rw Hlen. by eapply lookup_lt_Some. }
  destruct (Hres i b l Hb Hl)
    as (a & a' & Ha & Ha' & Hwf' & Hr' & Hc' & Heq & Hlt).
  destruct (Forall2_lookup_l _ _ _ _ _ Hout Hl) as (a'' & Ho & Hla).
  rw Ha' in Hla. injection Hla as <-.
  destruct (Forall_lookup_1 _ _ _ _ Hok Hb) as (a0 & Ha0 & Hwf & HF & Hc).
  rw Ha in Ha0. injection Ha0 as <-.
  exists a, a'. split_and!; try done.
  intros c Hin.
  destruct (decide (max_speakers_per_chunk < length (Collate.labels b))%nat)
    as [Hgt|Hle];
    [|destruct (decide (length (Collate.labels b) < max_speakers_per_chunk)%nat)
        as [Hless|Hge]].
  - destruct (collate_samples_truncated max_speakers_per_chunk F batch σ refs
                σ' Hok Hrefs i b l Hb Hl Hgt) as (a1 & a1' & Ha1 & Ha1' & Hp).
    rw Ha in Ha1. injection Ha1 as <-. rw Ha' in Ha1'. injection Ha1' as <-.
    rw Hp in Hin. apply list_elem_of_fmap in Hin as (j & -> & Hj).
    left. apply elem_of_columns. exists j. split; [|done].
    by apply (kept_indices max_speakers_per_chunk a).
  - rw (Hlt Hless) in Hin. apply elem_of_app in Hin as [Hin|Hin]; [by left|].
    right. by apply elem_of_replicate in Hin as [-> _].
  - assert (l = Collate.data b) as -> by (apply Heq; lia).
    destruct (Hplace _ _ Ha Hwf) as (a2 & Ha2 & _ & _ & _ & Hp).
    rw Ha' in Ha2. injection Ha2 as <-. left. by rw -Hp.
Qed.

(** Columns taken from a binary matrix, or all-zero, make a binary
    matrix. *)
Lemma binary_columns F a a' :
  wf_ndarray a → wf_ndarray a' →
  (∀ c, c ∈ columns a' → c ∈ columns a ∨ c = replicate F 0) →
  (∀ f j v, entry a f j = Some v → binary v) →
  ∀ f j v, entry a' f j = Some v → binary v.
Proof.
  intros Hwf Hwf' Hcols Hbin f j v Hv.
  destruct (entry_in_range a' f j v Hwf' Hv) as [Hf Hj].
  rw -column_lookup // in Hv.
  destruct (Hcols (column a' j)) as [Hin| Hz].
  - apply elem_of_columns. by exists j.
  - apply elem_of_columns in Hin as (k & Hk & Hcol).
    rw Hcol column_lookup // in Hv. by eapply Hbin.
  - rw Hz in Hv. apply lookup_replicate in Hv as [-> _]. by left.
Qed.

(** X12. The speaker budget selector never invents or mixes activity:
    every column of a sample's collated target is a column of that
    sample's own array or an all-zero column. A binary target therefore
    stays binary. *)
Theorem collate_y_columns_from_input {G} `{RandomSource G} `{Argsort}
    max_speakers_per_chunk F batch (σ : store G) out σ' :
  batch_ok F (heap σ) batch →
  Collate.collate_y max_speakers_per_chunk batch σ = Some (out, σ') →
  ∀ i b, batch !! i = Some b →
    ∃ a a', heap σ !! Collate.data b = Some a ∧ out !! i = Some a'
      ∧ (∀ c, c ∈ columns a' → c ∈ columns a ∨ c = replicate F 0)
      ∧ ((∀ f j v, entry a f j = Some v → binary v) →
         ∀ f j v, entry a' f j = Some v → binary v).
Proof.
  intros Hok Hy i b Hb.
  destruct (collate_y_columns max_speakers_per_chunk F batch σ out σ' Hok Hy)
    as [_ Hall].
  destruct (Hall i b Hb) as (a & a' & Ha & Ho & Hwf & Hwf' & _ & _ & Hcols).
  exists a, a'. split_and!; try done. by apply (binary_columns F).
Qed.

Lemma collate_y_columns_from_input_witness :
  let σ : store tape :=
    Store {[ 0%nat := NdArray 2 1 [[1]; [0]];
             1%nat := activity [2; 1; 1]%nat 2 ]} [1; 0; 2]%nat in
  let batch := [ {| Collate.data := 0%nat; Collate.labels := [7] |};
                 {| Collate.data := 1%nat; Collate.labels := [4; 5; 6] |} ] in
  ∃ out σ',
    Collate.collate_y 2 batch σ = Some (out, σ')
    ∧ ∀ i a', out !! i = Some a' → ∀ f j v, entry a' f j = Some v → binary v.
Proof.
  intros σ batch.
  destruct (Collate.collate_y 2 batch σ) as [[out σ']|] eqn:Hy;
    [|by vm_compute in Hy].
  assert (batch_ok 2 (heap σ) batch) as Hok.
  { repeat constructor; eexists; (split; [by vm_compute|]); solve_shape. }
  exists out, σ'. split; [done|]. intros i a' Ho.
  assert (is_Some (batch !! i)) as [b Hb].
  { apply lookup_lt_is_Some. apply lookup_lt_Some in Ho.
    vm_compute in Hy. injection Hy as <- <-. simpl in *. lia. }
  destruct (collate_y_columns_from_input 2 2 batch σ out σ' Hok Hy i b Hb)
    as (a & a2 & Ha & Ho' & _ & Hbin).
  rw Ho in Ho'. injection Ho' as <-. apply Hbin.
  destruct i as [|[|i]]; simplify_eq/=; vm_compute in Ha; injection Ha as <-;
    intros [|[|f]] [|[|[|j]]] v Hv; vm_compute in Hv; simplify_eq; solve_shape.
Defined.

(** ** Speakers per frame *)

Section FrameCounts.
Context {A B : Type}.

Lemma length_filter_fmap (h : A → B) (P : B → Prop) `{∀ x, Decision (P x)}
    (l : list A) :
  length (filter P (h <$> l)) = length (filter (λ x, P (h x)) l).
Proof.
  induction l as [|x l IH]; [done|]. rw fmap_cons !filter_cons.
  case_decide; simpl; by rw IH.
Qed.

Lemma length_filter_ext_in (P Q : A → Prop) `{∀ x, Decision (P x)}
    `{∀ x, Decision (Q x)} (l : list A) :
  (∀ x, x ∈ l → P x ↔ Q x) →
  length (filter P l) = length (filter Q l).
Proof.
  induction l as [|x l IH]; intros Hext; [done|]. rw !filter_cons.
  assert (P x ↔ Q x) as Hx by (apply Hext; by left).
  assert (length (filter P l) = length (filter Q l)) as IH'.
  { apply IH. intros y Hy. apply Hext. by right. }
  destruct (decide (P x)), (decide (Q x)); simpl; try tauto; by rw ?IH'.
Qed.

Lemma length_filter_submseteq (P : A → Prop) `{∀ x, Decision (P x)}
    (l k : list A) :
  l ⊆+ k → (length (filter P l) ≤ length (filter P k))%nat.
Proof.
  induction 1 as [|x l k _ IH|x y l|x l k _ IH|l1 l2 l3 _ IH1 _ IH2];
    rw ?filter_cons; repeat case_decide; simpl; lia.
Qed.
End FrameCounts.

Lemma max_list_le (l k : list nat) :
  Forall2 le l k → (max_list l ≤ max_list k)%nat.
Proof. induction 1; simpl; lia. Qed.

(** The speakers active in a frame, counted along the row or across the
    columns. *)
Lemma active_in_frame a f r :
  wf_ndarray a → rows a !! f = Some r →
  length (filter (λ v : Z, v ≠ 0%Z) r)
  = length (filter (λ c : list Z, c !!! f ≠ 0%Z) (columns a)).
Proof.
  intros [Hl Hr] Hf.
  eapply Forall_lookup_1 in Hr as Hlen; [|done]. simpl in Hlen.
  rw /columns /= length_filter_fmap.
  rw -{1}(fmap_lookup_total_seq r) length_filter_fmap Hlen.
  apply length_filter_ext_in. intros j _.
  rw /column list_lookup_total_fmap; [by eapply lookup_lt_Some|].
  by rw (list_lookup_total_correct _ _ _ Hf).
Qed.

Section CollateCases.
Context {G : Type} `{RandomSource G} `{Argsort}.
Variable max_speakers_per_chunk : nat.

(** The columns of a collated target in each of the three cases of
    [collate_y]. *)
Lemma collate_y_cases F batch (σ : store G) out σ' :
  batch_ok F (heap σ) batch →
  Collate.collate_y max_speakers_per_chunk batch σ = Some (out, σ') →
  ∀ i b, batch !! i = Some b →
    ∃ a a', heap σ !! Collate.data b = Some a ∧ out !! i = Some a'
      ∧ wf_ndarray a ∧ nrows a = F ∧ wf_ndarray a' ∧ nrows a' = F
      ∧ (length (Collate.labels b) = max_speakers_per_chunk →
           columns a' ≡ₚ columns a)
      ∧ ((length (Collate.labels b) < max_speakers_per_chunk)%nat →
           columns a' ≡ₚ
             columns a ++ zero_columns F
               (max_speakers_per_chunk - length (Collate.labels b)))
      ∧ ((max_speakers_per_chunk < length (Collate.labels b))%nat →
           columns a' ≡ₚ
             column a <$> take max_speakers_per_chunk
                            (argsort (uint64_neg (sum_axis0 a)))).
Proof.
  intros Hok Hy i b Hb.
  assert (batch ≠ []) as Hne by (by intros ->).
  destruct (collate_y_Some max_speakers_per_chunk F batch σ Hne Hok)
    as (refs & out0 & σ0 & Hrefs & Hy0 & Hout).
  rw Hy in Hy0. injection Hy0 as <- <-.
  destruct (collate_samples_spec max_speakers_per_chunk F batch σ Hok)
    as (refs' & σ'' & Hrefs' & Hlen & _ & Hplace & Hres).
  rw Hrefs in Hrefs'. injection Hrefs' as <- <-.
  destruct (lookup_lt_is_Some_2 refs i) as [l Hl].
  { rw Hlen. by eapply lookup_lt_Some. }
  destruct (Hres i b l Hb Hl)
    as (a & a' & Ha & Ha' & Hwf' & Hr' & Hc' & Heq & Hlt).
  destruct (Forall2_lookup_l _ _ _ _ _ Hout Hl) as (a'' & Ho & Hla).
  rw Ha' in Hla. injection Hla as <-.
  destruct (Forall_lookup_1 _ _ _ _ Hok Hb) as (a0 & Ha0 & Hwf & HF & Hc).
  rw Ha in Ha0. injection Ha0 as <-.
  exists a, a'. split_and!; try done.
  - intros He. assert (l = Collate.data b) as -> by (by apply Heq).
    destruct (Hplace _ _ Ha Hwf) as (a2 & Ha2 & _ & _ & _ & Hp).
    rw Ha' in Ha2. by injection Ha2 as <-.
  - intros Hgt.
    destruct (collate_samples_truncated max_speakers_per_chunk F batch σ refs
                σ' Hok Hrefs i b l Hb Hl Hgt) as (a1 & a1' & Ha1 & Ha1' & Hp).
    rw Ha in Ha1. injection Ha1 as <-. rw Ha' in Ha1'. by injection Ha1' as <-.
Qed.
End CollateCases.

(** X13. The speaker budget selector keeps the overlap of speakers: when a
    sample has no more labels than the budget, every frame of its collated
    target has as many active speakers as the same frame of its input;
    truncation can only lower that number. The largest number of speakers
    active in one frame therefore never grows. *)
Theorem collate_y_frame_counts {G} `{RandomSource G} `{Argsort} max_speakers_per_chunk F
    batch (σ : store G) out σ' :
  batch_ok F (heap σ) batch →
  Collate.collate_y max_speakers_per_chunk batch σ = Some (out, σ') →
  ∀ i b, batch !! i = Some b →
    ∃ a a', heap σ !! Collate.data b = Some a ∧ out !! i = Some a'
      ∧ (∀ f r, rows a !! f = Some r →
           ∃ r', rows a' !! f = Some r'
             ∧ (length (filter (λ v : Z, v ≠ 0%Z) r')
                ≤ length (filter (λ v : Z, v ≠ 0%Z) r))%nat
             ∧ ((length (Collate.labels b) ≤ max_speakers_per_chunk)%nat →
                length (filter (λ v : Z, v ≠ 0%Z) r')
                = length (filter (λ v : Z, v ≠ 0%Z) r)))
      ∧ (concurrent_speakers a' ≤ concurrent_speakers a)%nat
      ∧ ((length (Collate.labels b) ≤ max_speakers_per_chunk)%nat →
         concurrent_speakers a' = concurrent_speakers a).
Proof.
  intros Hok Hy i b Hb.
  destruct (collate_y_cases max_speakers_per_chunk F batch σ out σ' Hok Hy i b Hb)
    as (a & a' & Ha & Ho & Hwf & HF & Hwf' & HF' & Heq & Hlt & Hgt).
  exists a, a'. split; [done|]. split; [done|].
  assert (∀ f r r', rows a !! f = Some r → rows a' !! f = Some r' →
            (length (filter (λ v : Z, v ≠ 0%Z) r')
             ≤ length (filter (λ v : Z, v ≠ 0%Z) r))%nat
            ∧ ((length (Collate.labels b) ≤ max_speakers_per_chunk)%nat →
               length (filter (λ v : Z, v ≠ 0%Z) r')
               = length (filter (λ v : Z, v ≠ 0%Z) r))) as Hframe.
  { intros f r r' Hr Hr'.
    rw (active_in_frame a f r Hwf Hr) (active_in_frame a' f r' Hwf' Hr').
    assert (f < F)%nat as Hf.
    { apply lookup_lt_Some in Hr. destruct Hwf as [Hl _]. lia. }
    assert (length (filter (λ c : list Z, c !!! f ≠ 0%Z)
                      (zero_columns F (max_speakers_per_chunk
                                       - length (Collate.labels b)))) = 0%nat)
      as Hzero.
    { unfold zero_columns.
      generalize (max_speakers_per_chunk - length (Collate.labels b))%nat.
      intros k. induction k as [|k IH]; [done|]. simpl.
      rw filter_cons_False; [|done]. rw lookup_total_replicate_2 //.
      by intros ?. }
    destruct (decide (max_speakers_per_chunk < length (Collate.labels b))%nat)
      as [Hmore|Hle];
      [|destruct (decide (length (Collate.labels b) < max_speakers_per_chunk)%nat)
          as [Hless|Hge]].
    - split; [|lia]. rw (Hgt Hmore). apply length_filter_submseteq.
      unfold columns. simpl. apply fmap_submseteq.
      destruct (kept_indices max_speakers_per_chunk a) as [Hnd Hin].
      apply NoDup_submseteq; [done|]. intros j Hj. apply elem_of_seq.
      specialize (Hin j Hj). lia.
    - rw (Hlt Hless) filter_app length_app Hzero. lia.
    - rw Heq; [lia|]. done. }
  assert (Forall2 (λ r' r,
            (length (filter (λ v : Z, v ≠ 0%Z) r')
             ≤ length (filter (λ v : Z, v ≠ 0%Z) r))%nat
            ∧ ((length (Collate.labels b) ≤ max_speakers_per_chunk)%nat →
               length (filter (λ v : Z, v ≠ 0%Z) r')
               = length (filter (λ v : Z, v ≠ 0%Z) r))) (rows a') (rows a)) as Hrows.
  { apply Forall2_same_length_lookup_2.
    - destruct Hwf as [Hl _], Hwf' as [Hl' _]. lia.
    - intros f r' r Hr' Hr. by apply (Hframe f). }
  split_and!.
  - intros f r Hr. destruct (lookup_lt_is_Some_2 (rows a') f) as [r' Hr'].
    { apply lookup_lt_Some in Hr. destruct Hwf as [Hl _], Hwf' as [Hl' _]. lia. }
    exists r'. split; [done|]. by apply (Hframe f).
  - unfold concurrent_speakers. apply max_list_le.
    apply Forall2_fmap. eapply Forall2_impl; [done|]. by intros r' r [? _].
  - intros Hle. unfold concurrent_speakers. f_equal.
    apply list_eq_Forall2, Forall2_fmap.
    eapply Forall2_impl; [done|]. intros r' r [_ Heq']. by apply Heq'.
Qed.

Lemma collate_y_frame_counts_witness :
  let σ : store tape :=
    Store {[ 0%nat := NdArray 2 1 [[1]; [0]];
             1%nat := activity [2; 1; 1]%nat 2 ]} [1; 0; 2]%nat in
  let batch := [ {| Collate.data := 0%nat; Collate.labels := [7] |};
                 {| Collate.data := 1%nat; Collate.labels := [4; 5; 6] |} ] in
  ∃ out σ' a',
    Collate.collate_y 2 batch σ = Some (out, σ') ∧ out !! 1%nat = Some a'
    ∧ (concurrent_speakers a' ≤ 3)%nat.
Proof.
  intros σ batch.
  destruct (Collate.collate_y 2 batch σ) as [[out σ']|] eqn:Hy;
    [|by vm_compute in Hy].
  assert (batch_ok 2 (heap σ) batch) as Hok.
  { repeat constructor; eexists; (split; [by vm_compute|]); solve_shape. }
  destruct (collate_y_frame_counts 2 2 batch σ out σ' Hok Hy 1%nat
              {| Collate.data := 1%nat; Collate.labels := [4; 5; 6] |} eq_refl)
    as (a & a' & Ha & Ho & _ & Hle & _).
  exists out, σ', a'. split; [done|]. split; [done|].
  vm_compute in Ha. injection Ha as <-. exact Hle.
Defined.

(** ** Classes of the specification *)

(** X14. The specification names one class per speaker of the budget,
    [speaker#1], [speaker#2], ..., all different; [setup_loss_func] builds
    the powerset over that many classes, and this is the number of columns
    of every target that [collate_y] returns. *)
Theorem classes_match_collated_targets {G} `{RandomSource G} `{Argsort}
    max_speakers_per_chunk max_speakers_per_frame F batch (σ : store G)
    out σ' :
  batch_ok F (heap σ) batch →
  Collate.collate_y max_speakers_per_chunk batch σ = Some (out, σ') →
  NoDup (CollateFn.classes max_speakers_per_chunk)
  ∧ (∀ i, (i < max_speakers_per_chunk)%nat →
       CollateFn.classes max_speakers_per_chunk !! i
       = Some ("speaker#"%string +:+ pretty.pretty (i + 1)%nat))
  ∧ CollateFn.setup_loss_func max_speakers_per_chunk max_speakers_per_frame
    = (max_speakers_per_chunk, max_speakers_per_frame)
  ∧ Forall (λ a, ncols a
                 = (CollateFn.setup_loss_func max_speakers_per_chunk
                      max_speakers_per_frame).1) out.
Proof.
  intros Hok Hy.
  assert (length (CollateFn.classes max_speakers_per_chunk)
          = max_speakers_per_chunk) as Hlen.
  { by rw /CollateFn.classes length_fmap length_seq. }
  split_and!.
  - apply NoDup_fmap_2_strong; [|apply NoDup_seq].
    intros i j _ _ Heq. apply (inj _) in Heq. apply (inj _) in Heq. lia.
  - intros i Hi. by rw /CollateFn.classes list_lookup_fmap lookup_seq_lt.
  - by rw /CollateFn.setup_loss_func Hlen.
  - destruct (collate_y_shapes max_speakers_per_chunk F batch σ out σ' Hok Hy)
      as [_ Hshape].
    eapply Forall_impl; [done|]. intros a [_ Hc].
    by rw /CollateFn.setup_loss_func Hlen.
Qed.

Lemma classes_match_collated_targets_witness :
  let σ : store tape :=
    Store {[ 0%nat := NdArray 2 1 [[1]; [0]] ]} [1; 0; 2]%nat in
  let batch := [ {| Collate.data := 0%nat; Collate.labels := [7] |} ] in
  CollateFn.classes 3 = ["speaker#1"; "speaker#2"; "speaker#3"]%string
  ∧ ∃ out σ', Collate.collate_y 3 batch σ = Some (out, σ')
      ∧ Forall (λ a, ncols a = 3%nat) out.
Proof.
  intros σ batch. split; [by vm_compute|].
  destruct (Collate.collate_y 3 batch σ) as [[out σ']|] eqn:Hy;
    [|by vm_compute in Hy].
  assert (batch_ok 2 (heap σ) batch) as Hok.
  { repeat constructor; eexists; (split; [by vm_compute|]); solve_shape. }
  exists out, σ'. split; [done|].
  by destruct (classes_match_collated_targets 3 2 2 batch σ out σ' Hok Hy)
    as (_ & _ & _ & Hcols).
Defined.

(** ** The batch and its guide *)

Section Squeeze.
Import CollateFn.

Lemma data4_unsqueeze1 (ys : list ndarray) :
  data4 (type_int8 (unsqueeze1 ys))
  = (λ a, [fmap (M := list) (fmap (M := list) int8_wrap) (rows a)]) <$> ys.
Proof.
  unfold type_int8, tmap4, unsqueeze1.
  destruct ys as [|a0 ys]; [done|]. simpl. f_equal.
  induction ys as [|a ys IH]; simpl; [done|by f_equal].
Qed.

Lemma unsqueeze1_shape F S (ys : list ndarray) :
  ys ≠ [] → Forall (λ a, wf_ndarray a ∧ nrows a = F ∧ ncols a = S) ys →
  has_shape4 (length ys) 1 F S (type_int8 (unsqueeze1 ys)).
Proof.
  intros Hne Hall. split.
  - destruct ys as [|a0 ys]; [done|].
    apply Forall_cons in Hall as [(_ & <- & <-) _]. done.
  - rw data4_unsqueeze1. split; [by rw length_fmap|].
    apply Forall_fmap. eapply Forall_impl; [done|].
    intros a ([Hl Hr] & HF & HS). simpl. split; [done|].
    constructor; [|constructor]. split; [by rw length_fmap -HF|].
    apply Forall_fmap. eapply Forall_impl; [done|]. intros r Hlen. simpl in *.
    by rw length_fmap -HS.
Qed.

Lemma get4_unsqueeze1 (ys : list ndarray) b f s :
  get4 (type_int8 (unsqueeze1 ys)) b 0 f s
  = int8_wrap <$> (a ← ys !! b; entry a f s).
Proof.
  rw /get4 data4_unsqueeze1 list_lookup_fmap.
  destruct (ys !! b) as [a|]; [|done]. simpl.
  rw /entry list_lookup_fmap. destruct (rows a !! f) as [r|]; [|done]. simpl.
  by rw list_lookup_fmap.
Qed.

Lemma squeeze1_shape {A} B F S (t : tensor4 A) :
  has_shape4 B 1 F S t → has_shape3 B F S (squeeze1 t).
Proof.
  intros [_ [Hl Hall]]. split; [by rw /squeeze1 length_fmap|].
  apply Forall_fmap. eapply Forall_impl; [done|].
  intros chan [Hlen Hchan]. simpl.
  destruct chan as [|x [|? ?]]; simplify_eq/=.
  by apply Forall_cons in Hchan as [? _].
Qed.

Lemma get3_squeeze1 {A} B F S (t : tensor4 A) b f s :
  has_shape4 B 1 F S t → get3 (squeeze1 t) b f s = get4 t b 0 f s.
Proof.
  intros [_ [Hl Hall]]. rw /get3 /get4 /squeeze1 list_lookup_fmap.
  destruct (data4 t !! b) as [chan|] eqn:Hb; [|done]. simpl.
  eapply Forall_lookup_1 in Hall as [Hlen _]; [|done].
  by destruct chan as [|x [|? ?]]; simplify_eq/=.
Qed.
End Squeeze.

Section CollateFnGuide.
Import CollateFn.
Context {G T G' : Type} `{RandomSource G} `{UniformSource T}
  `{RandomSource G'} `{Argsort}.
Variable max_speakers_per_chunk : nat.
Variable one_of : list (Q * strategy) → Eff G' (Q * strategy).

(** The strategies of the task never fail on chunks of ten frames or
    more. *)
Lemma guidance_randomizes B C F S ps (targets : tensor4 Z) (g : G') :
  has_shape4 B C F S targets → ps ∈ guidance → (10 ≤ F)%nat →
  is_Some (randomize_parameters ps.2 targets g).
Proof.
  intros Ht Hst HF. unfold guidance in Hst.
  repeat (apply elem_of_cons in Hst as [->|Hst]);
    [..|by apply elem_of_nil in Hst]; cbn [snd].
  - by rw (randomize_no_guide B C F S).
  - by rw (randomize_no_guide B C F S).
  - destruct (randomize_first_half B C F S targets g Ht) as (gd & -> & _).
    by eexists.
  - unfold randomize_parameters. destruct Ht as [-> _].
    apply random_frames_is_Some; lia.
Qed.

(** X15. [collate_fn] draws the guide from the collated target: the guide
    of a batch has the shape of the collated target, and each of its
    entries is 0 or 2 x target - 1 for the entry of the collated target at
    the same sample, frame and speaker. With chunks of at least ten
    frames, none of the strategies of the task can fail, whichever one
    [OneOf] picks. *)
Theorem collate_fn_guide F batch (σ : store G) (u : T) (g : G') :
  batch_ok F (heap σ) batch →
  (∀ b a, b ∈ batch → heap σ !! Collate.data b = Some a →
          ∀ f j v, entry a f j = Some v → binary v) →
  (∀ c σ' s', collate_fn max_speakers_per_chunk one_of batch (σ, (u, g))
              = Some (c, (σ', s')) →
     Collate.collate_y max_speakers_per_chunk batch σ
     = Some (collated_y c, σ')
     ∧ has_shape3 (length batch) F max_speakers_per_chunk (guide c)
     ∧ ∀ b f s t, (a ← collated_y c !! b; entry a f s) = Some t →
         ∃ v, get3 (guide c) b f s = Some v ∧ (v = 0 ∨ v = 2 * t - 1))
  ∧ (batch ≠ [] → (10 ≤ F)%nat →
     (∀ g0, ∃ ps g1, one_of guidance g0 = Some (ps, g1) ∧ ps ∈ guidance) →
     is_Some (collate_fn max_speakers_per_chunk one_of batch (σ, (u, g)))).
Proof.
  intros Hok Hbin.
  (* what the collated target is, whenever there is one *)
  assert (∀ out σ',
            Collate.collate_y max_speakers_per_chunk batch σ = Some (out, σ') →
            length out = length batch
            ∧ has_shape4 (length batch) 1 F max_speakers_per_chunk
                (type_int8 (unsqueeze1 out))
            ∧ ∀ b f s t, (a ← out !! b; entry a f s) = Some t →
                binary t
                ∧ get4 (type_int8 (unsqueeze1 out)) b 0 f s = Some t)
    as Htargets.
  { intros out σ' Hy.
    destruct (collate_y_columns max_speakers_per_chunk F batch σ out σ' Hok Hy)
      as [Hlen Hall].
    assert (∀ i a', out !! i = Some a' →
              (wf_ndarray a' ∧ nrows a' = F ∧ ncols a' = max_speakers_per_chunk)
              ∧ ∀ f j v, entry a' f j = Some v → binary v) as Hout.
    { intros i a' Ho.
      destruct (lookup_lt_is_Some_2 batch i) as [b Hb].
      { rw -Hlen. by eapply lookup_lt_Some. }
      destruct (Hall i b Hb)
        as (a & a2 & Ha & Ho' & Hwf & Hwf' & Hr & Hc & Hcols).
      rw Ho in Ho'. injection Ho' as <-. split; [done|].
      apply (binary_columns F a); try done.
      apply (Hbin b); [by eapply list_elem_of_lookup_2|done]. }
    split; [done|]. split.
    - rw -Hlen. apply unsqueeze1_shape.
      + intros ->. destruct batch; [done|]. simpl in Hlen. lia.
      + apply Forall_lookup_2. intros i a' Ho. by apply (Hout i).
    - intros b f s t Ht.
      destruct (out !! b) as [a'|] eqn:Ho; [|done]. simpl in Ht.
      destruct (Hout b a' Ho) as [_ Hb]. pose proof (Hb f s t Ht) as Hbt.
      split; [done|]. rw get4_unsqueeze1 Ho /= Ht /=.
      by destruct Hbt as [-> | ->]. }
  split.
  - intros c σ' s'. unfold collate_fn.
    destruct (Collate.collate_y _ batch σ) as [[out σ1]|] eqn:Hy; [|done].
    destruct (Htargets out σ1 eq_refl) as (Hlen & Ht & Hget).
    destruct (one_of guidance g) as [[[p st] g1]|]; [|done].
    destruct (Guide.guide p st _ (u, g1)) as [[guides s2]|] eqn:Hg; [|done].
    intros [= <- <- <-]. simpl. split; [done|].
    destruct (guide_inv p st _ _ _ _ _ u g1 guides s2 Ht Hg)
      as (Hsh & Hother & guided & g2 & _ & _ & _ & Hsel).
    split; [by apply squeeze1_shape|].
    intros b f s tv Hbt. destruct (Hget b f s tv Hbt) as [Hbin_t Hget4].
    rw (get3_squeeze1 _ _ _ _ _ _ _ Hsh).
    destruct (decide
                (b ∈ selected_samples (bernoulli p (length batch) u).1))
      as [Hin|Hout].
    + apply list_elem_of_lookup in Hin as [j Hj].
      destruct (Hsel j b 0%nat f s tv Hj Hget4) as (m & _ & ->).
      eexists. split; [done|].
      destruct (guide_entry_cases tv m Hbin_t) as (_ & Hz & Hone).
      destruct m; [right; by apply Hone|left; by apply Hz].
    + exists tv. split; [by rw Hother|].
      destruct Hbin_t as [-> | ->]; [by left|by right].
  - intros Hne HF Hone.
    destruct (collate_y_Some max_speakers_per_chunk F batch σ Hne Hok)
      as (refs & out & σ' & _ & Hy & _).
    destruct (Htargets out σ' Hy) as (Hlen & Ht & _).
    destruct (Hone g) as ([p st] & g1 & Hst & Hin).
    destruct (guide_is_Some p st _ _ _ _ (type_int8 (unsqueeze1 out)) u g1 Ht)
      as [[guides s2] Hg].
    { eapply (guidance_randomizes _ 1 F max_speakers_per_chunk (p, st));
        [|done..].
      apply (select_samples_shape (length batch)); [done|].
      apply length_bernoulli. }
    unfold collate_fn. rw Hy Hst Hg. by eexists.
Qed.
End CollateFnGuide.

Lemma collate_fn_guide_witness :
  let σ : store tape :=
    Store {[ 0%nat := NdArray 2 1 [[1]; [0]];
             1%nat := activity [2; 1; 1]%nat 2 ]} [1; 0; 2]%nat in
  let batch := [ {| Collate.data := 0%nat; Collate.labels := [7] |};
                 {| Collate.data := 1%nat; Collate.labels := [4; 5; 6] |} ] in
  let one_of (l : list (Q * strategy)) : Eff tape (Q * strategy) :=
    λ g, match l !! (tape_randbelow g (length l)).1 with
         | Some st => Some (st, (tape_randbelow g (length l)).2)
         | None => None
         end in
  let s : percent_tape * tape := ([35; 80]%nat, [2; 1]%nat) in
  ∃ c σ' s',
    CollateFn.collate_fn 2 one_of batch (σ, s) = Some (c, (σ', s'))
    ∧ ∀ b f s t, (a ← CollateFn.collated_y c !! b; entry a f s) = Some t →
        ∃ v, get3 (CollateFn.guide c) b f s = Some v ∧ (v = 0 ∨ v = 2 * t - 1).
Proof.
  intros σ batch one_of s.
  destruct (CollateFn.collate_fn 2 one_of batch (σ, s))
    as [[c [σ' s']]|] eqn:Hc; [|by vm_compute in Hc].
  assert (batch_ok 2 (heap σ) batch) as Hok.
  { repeat constructor; eexists; (split; [by vm_compute|]); solve_shape. }
  destruct (collate_fn_guide 2 one_of 2 batch σ [35; 80]%nat [2; 1]%nat Hok)
    as [Hguide _].
  { intros b a [->|[->|[]%elem_of_nil]%elem_of_cons]%elem_of_cons Ha;
      vm_compute in Ha; injection Ha as <-;
      intros [|[|f]] [|[|[|j]]] v Hv; vm_compute in Hv; simplify_eq;
      solve_shape. }
  exists c, σ', s'. split; [done|]. by apply (Hguide c σ' s').
Defined.

(** ** Decoding the guide in the guide loss *)

Section GuideDecoding.
Import CollateFn.

Lemma get3_tmap3 {A A'} (h : A → A') (t : tensor3 A) b c f :
  get3 (tmap3 h t) b c f = h <$> get3 t b c f.
Proof.
  rw /get3 /tmap3 list_lookup_fmap. destruct (t !! b) as [x|]; [|done]. simpl.
  rw list_lookup_fmap. destruct (x !! c) as [y|]; [|done]. simpl.
  by rw list_lookup_fmap.
Qed.

Lemma get3_range {A} B C F (t : tensor3 A) b c f x :
  has_shape3 B C F t → get3 t b c f = Some x → (b < B ∧ c < C ∧ f < F)%nat.
Proof.
  unfold get3. intros Ht Hx.
  destruct (t !! b) as [x1|] eqn:H1; simplify_eq/=.
  destruct (x1 !! c) as [x2|] eqn:H2; simplify_eq/=.
  destruct (shaped_lookup_Some _ _ _ _ _ Ht H1) as [Hb Ht1].
  destruct (shaped_lookup_Some _ _ _ _ _ Ht1 H2) as [Hc Ht2].
  apply lookup_lt_Some in Hx. simpl in Ht2. lia.
Qed.

Lemma get4_in_range {A} B C F S (t : tensor4 A) b c f s :
  has_shape4 B C F S t → (b < B)%nat → (c < C)%nat → (f < F)%nat →
  (s < S)%nat → is_Some (get4 t b c f s).
Proof.
  intros [_ Ht] Hb Hc Hf Hs. unfold get4.
  destruct (shaped_lookup _ _ _ _ Ht Hb) as (x1 & -> & Ht1). simpl.
  destruct (shaped_lookup _ _ _ _ Ht1 Hc) as (x2 & -> & Ht2). simpl.
  destruct (shaped_lookup _ _ _ _ Ht2 Hf) as (x3 & -> & Ht3). simpl.
  apply lookup_lt_is_Some_2. simpl in Ht3. lia.
Qed.

(** The frame of a guide: all its entries are set when the frame is
    guided, none when it is not. *)
Lemma guide_frame B F S guided (targets : tensor4 Z) guides b f m :
  has_shape4 B 1 F S targets → binary4 targets → has_shape3 B 1 F guided →
  apply_transform guided targets = Some guides →
  get3 guided b 0 f = Some m →
  ∃ chan row, squeeze1 guides !! b = Some chan ∧ chan !! f = Some row
    ∧ length row = S ∧ Forall (λ v, v ≠ 0 ↔ m = true) row.
Proof.
  intros Ht Hbin Hg Ha Hm.
  destruct (apply_transform_shape B 1 F S guided targets Ht Hg)
    as (guides' & Ha' & Hsh).
  rw Ha in Ha'. injection Ha' as <-.
  destruct (get3_range _ _ _ _ _ _ _ _ Hg Hm) as (Hb & _ & Hf).
  pose proof (squeeze1_shape _ _ _ _ Hsh) as Hsq.
  destruct (shaped_lookup _ _ _ _ Hsq Hb) as (chan & Hchan & Hsq1).
  destruct (shaped_lookup _ _ _ _ Hsq1 Hf) as (row & Hrow & Hlen).
  exists chan, row. split_and!; try done.
  apply Forall_lookup_2. intros s v Hv.
  assert (get4 guides b 0 f s = Some v) as Hget.
  { rw -(get3_squeeze1 _ _ _ _ _ _ _ Hsh) /get3 Hchan /= Hrow /=. done. }
  destruct (get4_in_range B 1 F S targets b 0%nat f s Ht) as [t Htg];
    [lia..| |].
  { apply lookup_lt_Some in Hv. simpl in Hlen. lia. }
  rw (apply_transform_get _ _ _ _ _ _ _ _ _ Ha Htg Hm) in Hget.
  injection Hget as <-.
  destruct (guide_entry_cases t m (binary4_get _ _ _ _ _ _ Hbin Htg))
    as (_ & Hz & _).
  destruct m; split; try done; intros; naive_solver.
Qed.

Context {Prediction : Type}.
Variable to_powerset : tensor3 Q → tensor3 Q.
Variable permutate : ∀ A, tensor3 Q → tensor3 A → option (tensor3 Q) → tensor3 A.
Variable nll_loss : Prediction → list (list nat) → option (tensor3 Q) → Q.

(** X16. The guide loss reads the guide back correctly. For a guide built
    by the guide transform from binary targets with at least one speaker,
    the frame weight of the guide loss is 1 on the guided frames and 0 on
    the others, and the target it decodes from the guide is the original
    target on every guided frame (and 1/2 on the frames that the weight
    masks). *)
Theorem guide_loss_decodes_guide B F S guided (targets : tensor4 Z) guides
    (soft : Prediction) (hard : tensor3 Q) :
  has_shape4 B 1 F S targets → binary4 targets → has_shape3 B 1 F guided →
  (0 < S)%nat →
  apply_transform guided targets = Some guides →
  Loss.any_nonzero (squeeze1 guides) = true →
  ∃ decoded weight,
    Loss.guide_loss to_powerset permutate nll_loss soft hard (squeeze1 guides)
    = nll_loss soft
        (Loss.argmax (to_powerset (permutate Q hard decoded (Some weight))))
        (Some weight)
    ∧ (∀ b f m, get3 guided b 0 f = Some m →
         get3 weight b f 0 = Some (if m then 1 else 0)%Q)
    ∧ (∀ b f s t m, get4 targets b 0 f s = Some t →
         get3 guided b 0 f = Some m →
         ∃ q, get3 decoded b f s = Some q
           ∧ (q == if m then inject_Z t else 1 # 2)%Q).
Proof.
  intros Ht Hbin Hg HS Ha Hany.
  eexists _, _. split; [by rw /Loss.guide_loss /Loss.segmentation_loss Hany|].
  split.
  - intros b f m Hm.
    destruct (guide_frame B F S guided targets guides b f m Ht Hbin Hg Ha Hm)
      as (chan & row & Hchan & Hrow & Hlen & Hall).
    rw /get3 /Loss.guided_weight list_lookup_fmap Hchan /=.
    rw list_lookup_fmap Hrow /=. f_equal.
    destruct m.
    + rw bool_decide_eq_true_2 //.
      destruct (lookup_lt_is_Some_2 row 0) as [v Hv]; [lia|].
      apply Exists_exists. exists v.
      split; [by eapply list_elem_of_lookup_2|].
      by apply (Forall_lookup_1 _ _ _ _ Hall Hv).
    + rw bool_decide_eq_false_2 //. rw -Forall_Exists_neg.
      eapply Forall_impl; [done|]. intros v Hv Hne. simpl in *.
      by apply Hv in Hne.
  - intros b f s t m Htg Hm.
    destruct (apply_transform_shape B 1 F S guided targets Ht Hg)
      as (guides' & Ha' & Hsh).
    rw Ha in Ha'. injection Ha' as <-.
    rw get3_tmap3 (get3_squeeze1 _ _ _ _ _ _ _ Hsh).
    rw (apply_transform_get _ _ _ _ _ _ _ _ _ Ha Htg Hm) /=.
    eexists. split; [done|].
    by destruct (binary4_get _ _ _ _ _ _ Hbin Htg) as [-> | ->], m.
Qed.
End GuideDecoding.

Lemma guide_loss_decodes_guide_witness :
  let targets := Tensor4 (1, 1, 2, 2)%nat [[[[1; 0]; [0; 1]]]] in
  let guided := [[[true; false]]] in
  ∃ guides, apply_transform guided targets = Some guides
    ∧ ∃ decoded weight,
        Loss.guide_loss (Prediction := nat) (λ t, t) (λ _ _ c _, c)
          (λ _ _ w, match w with Some _ => 5%Q | None => 3%Q end) 0%nat []
          (CollateFn.squeeze1 guides)
        = 5%Q
        ∧ get3 weight 0 0 0 = Some 1%Q ∧ get3 weight 0 1 0 = Some 0%Q
        ∧ ∃ q, get3 decoded 0 0 0 = Some q ∧ (q == 1)%Q.
Proof.
  intros targets guided.
  destruct (apply_transform guided targets) as [guides|] eqn:Ha;
    [|by vm_compute in Ha].
  exists guides. split; [done|].
  destruct (guide_loss_decodes_guide (λ t, t) (λ _ _ c _, c)
              (λ _ _ w, match w with Some _ => 5%Q | None => 3%Q end)
              1 2 2 guided targets guides 0%nat [])
    as (decoded & weight & Hloss & Hw & Hd); [solve_shape..|lia|done| |].
  { vm_compute in Ha. by injection Ha as <-. }
  exists decoded, weight. split; [done|].
  split; [by apply (Hw 0%nat 0%nat true)|].
  split; [by apply (Hw 0%nat 1%nat false)|].
  by apply (Hd 0%nat 0%nat 0%nat 1 true).
Defined.

(** ** The guide of a filtered batch *)

Section GuideUnfiltered.
Import Loss.
Variable max_speakers_per_chunk : nat.
Variable freedom : Q.
Context {Waveform Prediction : Type}.
Variable model : list Waveform → tensor3 Z → Prediction.
Variable to_multilabel : Prediction → tensor3 Q.
Variable to_powerset : tensor3 Q → tensor3 Q.
Variable permutate : ∀ A, tensor3 Q → tensor3 A → option (tensor3 Q) → tensor3 A.
Variable nll_loss : Prediction → list (list nat) → option (tensor3 Q) → Q.

(** X17. [training_step] filters the waveforms and the targets of a batch
    but not its guide: the step on a batch is the step on the batch of the
    surviving waveforms and targets together with the whole guide. When a
    sample is dropped, the model is therefore called with fewer waveforms
    than the guide has samples. *)
Theorem training_step_guide_unfiltered (batch : batch Waveform) :
  length (X batch) = length (y batch) →
  let keep := keep max_speakers_per_chunk (y batch) in
  training_step max_speakers_per_chunk freedom model to_multilabel to_powerset
    permutate nll_loss batch
  = training_step max_speakers_per_chunk freedom model to_multilabel
      to_powerset permutate nll_loss
      {| X := select keep (X batch); y := select keep (y batch);
         guide := guide batch |}
  ∧ (length (guide batch) = length (y batch) →
     Exists (λ a, max_speakers_per_chunk < num_speakers a)%nat (y batch) →
     (length (select keep (X batch)) < length (guide batch))%nat).
Proof.
  intros Hlen keep0. split.
  - unfold training_step. simpl. fold keep0.
    rw (keep_select max_speakers_per_chunk (y batch)). fold keep0.
    assert (length keep0 = length (y batch)) as Hk by (by rw /keep0 length_fmap).
    destruct (any_kept keep0) eqn:Hany; simpl.
    + assert (select keep0 (y batch) ≠ []) as Hne.
      { intros Hnil. by rw (select_nil_any_kept _ _ Hk Hnil) in Hany. }
      assert (any_kept (replicate (length (select keep0 (y batch))) true) = true)
        as ->.
      { apply bool_decide_eq_true. destruct (select keep0 (y batch)); [done|].
        by left. }
      simpl. rw select_all.
      rw -(length_select keep0 (X batch) (y batch) Hlen) select_all. done.
    + assert (select keep0 (y batch) = []) as ->; [|done].
      apply any_kept_false in Hany. unfold select.
      assert (filter (λ p : bool * ndarray, p.1 = true) (zip keep0 (y batch)) = [])
        as ->; [|done].
      clear Hk. revert Hany. generalize (y batch). generalize keep0.
      intros ks. induction ks as [|k ks IH]; intros [|a ys] Hall; try done.
      apply Forall_cons in Hall as [-> Hall]. simpl.
      rw filter_cons_False /=; [by intros ?|]. by apply IH.
  - intros Hg Hex. rw Hg -Hlen. apply length_select_lt.
    + by rw /keep0 length_fmap.
    + unfold keep0, keep. apply Exists_fmap. eapply Exists_impl; [done|].
      intros a Ha. cbv beta in Ha |- *. apply bool_decide_eq_false. lia.
Qed.
End GuideUnfiltered.

Lemma training_step_guide_unfiltered_witness :
  let batch : Loss.batch nat :=
    {| Loss.X := [7; 8]%nat;
       Loss.y := [NdArray 2 2 [[1; 0]; [0; 1]]; NdArray 1 1 [[1]]];
       Loss.guide := [[[1; -1]; [0; 0]]; [[1]]] |} in
  (length (Loss.select (Loss.keep 1 (Loss.y batch)) (Loss.X batch))
   < length (Loss.guide batch))%nat.
Proof.
  intros batch.
  destruct (training_step_guide_unfiltered 1 (1 # 4) (λ w _, w) (λ _, [])
              (λ t, t) (λ _ _ c _, c)
              (λ _ _ w, match w with Some _ => 5%Q | None => 3%Q end) batch)
    as [_ Hlt]; [done|].
  apply Hlt; [done|]. apply Exists_cons_hd. by vm_compute.
Defined.

(** ** The plot of the first validation batch *)

Section ValidationPlot.
Import Validation.

(** The number of plotted samples is between 1 and 9 for a positive batch
    size. *)
Lemma num_samples_cases batch_size :
  (0 < batch_size)%nat →
  (batch_size `min` 9)%nat ∈ [1; 2; 3; 4; 5; 6; 7; 8; 9]%nat.
Proof.
  intros Hpos. destruct (decide (9 ≤ batch_size)%nat) as [Hge|Hlt].
  - rw Nat.min_r; [done|]. set_solver.
  - rw Nat.min_l; [lia|].
    do 9 (destruct batch_size as [|batch_size]; [try lia; set_solver|]). lia.
Qed.

(** X18. For every positive batch size the grid of the validation plot has
    room for the plotted samples: at most three rows and columns, at least
    [min(batch_size, 9)] cells, and the axes of every plotted sample lie
    inside the figure of [2 * nrows] by [ncols] axes. The plot fails only
    when the batch holds fewer samples than [min(batch_size, 9)], and a
    batch size of zero divides by zero. *)
Theorem validation_plot_grid batch_size batch_len :
  (batch_size = 0%nat → plot_samples batch_size batch_len = None)
  ∧ ((0 < batch_size)%nat →
     ∃ num_samples nrows ncols,
       plot_grid batch_size = Some (num_samples, nrows, ncols)
       ∧ num_samples = (batch_size `min` 9)%nat
       ∧ (0 < ncols ≤ nrows)%nat ∧ (nrows ≤ 3)%nat
       ∧ (num_samples ≤ nrows * ncols)%nat
       ∧ (∀ sample_idx, (sample_idx < num_samples)%nat →
            in_grid nrows ncols (sample_axes nrows ncols sample_idx).1 = true
            ∧ in_grid nrows ncols (sample_axes nrows ncols sample_idx).2 = true)
       ∧ (is_Some (plot_samples batch_size batch_len)
          ↔ (num_samples ≤ batch_len)%nat)).
Proof.
  split; [by intros ->|]. intros Hpos.
  pose proof (num_samples_cases batch_size Hpos) as Hn.
  unfold plot_samples, plot_grid.
  set (num_samples := (batch_size `min` 9)%nat) in *. clearbody num_samples.
  assert (∃ nrows ncols,
            ceil_div num_samples (ceil_sqrt num_samples) = Some ncols
            ∧ nrows = ceil_sqrt num_samples
            ∧ (0 < ncols ≤ nrows)%nat ∧ (nrows ≤ 3)%nat
            ∧ (num_samples ≤ nrows * ncols)%nat
            ∧ ∀ sample_idx, (sample_idx < num_samples)%nat →
                in_grid nrows ncols (sample_axes nrows ncols sample_idx).1 = true
                ∧ in_grid nrows ncols (sample_axes nrows ncols sample_idx).2
                  = true)
    as (nrows & ncols & Hdiv & Hrows & Hle & H3 & Hroom & Hin).
  { repeat (apply elem_of_cons in Hn as [->|Hn]);
      [..|by apply elem_of_nil in Hn];
      eexists _, _; (split; [by vm_compute|]);
      (split; [by vm_compute|]); (split; [lia|]); (split; [lia|]);
      (split; [lia|]);
      intros idx Hidx;
      do 9 (destruct idx as [|idx]; [first [by vm_compute|lia]|]); lia. }
  exists num_samples, nrows, ncols. rw -Hrows in Hdiv |- *. rw Hdiv.
  split_and!; try done; try lia.
  change (is_Some (mapM (λ sample_idx,
            let '(ax_ref, ax_hyp) := sample_axes nrows ncols sample_idx in
            if in_grid nrows ncols ax_ref
               && bool_decide (sample_idx < batch_len)%nat
               && in_grid nrows ncols ax_hyp
            then Some (ax_ref, ax_hyp) else None) (seq 0 num_samples))
          ↔ (num_samples ≤ batch_len)%nat).
  rw mapM_is_Some Forall_forall. split.
  - intros Hall. destruct num_samples as [|n]; [lia|].
    destruct (Hall n) as [x Hx]; [apply elem_of_seq; lia|].
    cbv beta delta [compose] in Hx.
    destruct (sample_axes nrows ncols n) as [ax_ref ax_hyp].
    destruct (decide (n < batch_len)%nat) as [|Hge]; [lia|].
    rw (bool_decide_eq_false_2 _ Hge) andb_false_r in Hx. done.
  - intros Hlen idx Hidx%elem_of_seq. cbv beta delta [compose].
    destruct (Hin idx) as [Href Hhyp]; [lia|].
    destruct (sample_axes nrows ncols idx) as [ax_ref ax_hyp].
    cbn [fst snd] in Href, Hhyp.
    rw Href Hhyp bool_decide_eq_true_2; [lia|]. by eexists.
Qed.

Lemma validation_plot_grid_witness :
  plot_grid 32 = Some (9, 3, 3)%nat
  ∧ (is_Some (plot_samples 32 7) ↔ (9 ≤ 7)%nat).
Proof.
  destruct (validation_plot_grid 32 7) as [_ Hplot].
  destruct Hplot as (n & nrows & ncols & Hg & -> & _ & _ & _ & _ & Hiff); [lia|].
  split; [by vm_compute|]. exact Hiff.
Defined.

(** X19. The plotted samples get axes of their own exactly when the grid
    is square. With 2, 5 or 6 plotted samples the grid has fewer columns
    than rows, and sample number [ncols] is then drawn on the axes of
    sample 0, since the row of a sample is computed from [nrows] and its
    column from [ncols]. *)
Theorem validation_plot_shared_axes batch_size :
  (0 < batch_size)%nat →
  ∃ num_samples nrows ncols,
    plot_grid batch_size = Some (num_samples, nrows, ncols)
    ∧ (NoDup ((λ sample_idx, (sample_axes nrows ncols sample_idx).1)
                <$> seq 0 num_samples)
       ↔ nrows = ncols)
    ∧ (nrows = ncols ↔ (batch_size `min` 9)%nat ∉ [2; 5; 6]%nat)
    ∧ (nrows ≠ ncols →
       (0 < ncols < num_samples)%nat
       ∧ sample_axes nrows ncols ncols = sample_axes nrows ncols 0).
Proof.
  intros Hpos. pose proof (num_samples_cases batch_size Hpos) as Hn.
  unfold plot_grid.
  set (num_samples := (batch_size `min` 9)%nat) in *. clearbody num_samples.
  repeat (apply elem_of_cons in Hn as [->|Hn]);
    [..|by apply elem_of_nil in Hn];
    eexists _, _, _; (split; [by vm_compute|]); split_and!;
    try (split; [done|]; intros _; apply (bool_decide_unpack _); by vm_compute);
    try (split; [intros Hnd; apply (bool_decide_pack _) in Hnd;
                 by vm_compute in Hnd|done]);
    try (split; [intros ?; set_solver|done]);
    try (split; [done|intros Hnot; exfalso; apply Hnot; set_solver]);
    try done; intros _; (split; [lia|by vm_compute]).
Qed.

Lemma validation_plot_shared_axes_witness :
  ∃ nrows ncols, plot_grid 6 = Some (6, nrows, ncols)%nat
    ∧ sample_axes nrows ncols 2 = sample_axes nrows ncols 0.
Proof.
  destruct (validation_plot_shared_axes 6)
    as (n & nrows & ncols & Hg & _ & _ & Hshared); [lia|].
  vm_compute in Hg. injection Hg as <- <- <-. exists 3%nat, 2%nat.
  split; [by vm_compute|]. by apply Hshared.
Defined.
End ValidationPlot.

(** ** Clustering pipelines *)

Section ClusteringDistances.
Import Clustering.

Lemma clip_unit (x : Q) :
  (0 <= clip x 0 1)%Q ∧ (clip x 0 1 <= 1)%Q
  ∧ ((0 <= x)%Q ∧ (x <= 1)%Q → clip x 0 1 == x)%Q
  ∧ ((x < 0)%Q → clip x 0 1 == 0)%Q
  ∧ ((1 < x)%Q → clip x 0 1 == 1)%Q.
Proof.
  unfold clip.
  destruct (Qlt_le_dec x 0) as [Hneg|Hpos].
  - assert (Qmax x 0 == 0)%Q as Hm by (apply Q.max_r; lra).
    assert (Qmin (Qmax x 0) 1 == 0)%Q as Hc by (rw Hm; apply Q.min_l; lra).
    rw Hc. split_and!; intros; lra.
  - assert (Qmax x 0 == x)%Q as Hm by (apply Q.max_l; lra).
    destruct (Qlt_le_dec 1 x) as [Hbig|Hsmall].
    + assert (Qmin (Qmax x 0) 1 == 1)%Q as Hc by (rw Hm; apply Q.min_r; lra).
      rw Hc. split_and!; intros; lra.
    + assert (Qmin (Qmax x 0) 1 == x)%Q as Hc by (rw Hm; apply Q.min_l; lra).
      rw Hc. split_and!; intros; lra.
Qed.

(** X20. [DBSCAN] and [OPTICS] always hand their clusterer a matrix of the
    shape of the affinity matrix whose entries are distances between 0 and
    1; a larger affinity never gives a larger distance; an entry is the
    distance [1 - affinity] that [AgglomerativeClustering] uses whenever
    the affinity lies between 0 and 1, it is 1 for an affinity of at most
    0 and 0 for an affinity of at least 1. *)
Theorem clustering_distances m (affinity : list (list Q)) :
  m = DBSCAN ∨ m = OPTICS →
  let distance := clusterer_input m affinity in
  let agglomerative := clusterer_input AgglomerativeClustering affinity in
  (∀ i j a, (row ← affinity !! i; row !! j) = Some a →
     ∃ d d', (row ← distance !! i; row !! j) = Some d
       ∧ (row ← agglomerative !! i; row !! j) = Some d'
       ∧ (0 <= d)%Q ∧ (d <= 1)%Q ∧ (d' == 1 - a)%Q
       ∧ ((0 <= a)%Q ∧ (a <= 1)%Q → (d == d')%Q)
       ∧ ((a <= 0)%Q → (d == 1)%Q) ∧ ((1 <= a)%Q → (d == 0)%Q))
  ∧ (∀ i j, (row ← distance !! i; row !! j) = None
            ↔ (row ← affinity !! i; row !! j) = None)
  ∧ (∀ i j i' j' a b d e,
       (row ← affinity !! i; row !! j) = Some a →
       (row ← affinity !! i'; row !! j') = Some b →
       (row ← distance !! i; row !! j) = Some d →
       (row ← distance !! i'; row !! j') = Some e →
       (a <= b)%Q → (e <= d)%Q).
Proof.
  intros Hm distance agglomerative.
  assert (∀ i j, (row ← distance !! i; row !! j)
                 = (λ a, clip (1 - a) 0 1)
                     <$> (row ← affinity !! i; row !! j)) as Hd.
  { intros i j. unfold distance. destruct Hm as [-> | ->]; simpl;
      rw list_lookup_fmap; destruct (affinity !! i) as [row|]; simpl; try done;
      by rw list_lookup_fmap. }
  assert (∀ i j, (row ← agglomerative !! i; row !! j)
                 = (λ a, 1 - a)%Q <$> (row ← affinity !! i; row !! j)) as Ha.
  { intros i j. unfold agglomerative. simpl.
    rw list_lookup_fmap; destruct (affinity !! i) as [row|]; simpl; try done;
      by rw list_lookup_fmap. }
  split_and!.
  - intros i j a Hij. exists (clip (1 - a) 0 1), (1 - a)%Q.
    rw Hd Ha Hij /=.
    destruct (clip_unit (1 - a)) as (H0 & H1 & Hin & Hneg & Hbig).
    split_and!; try done.
    + intros [? ?]. apply Hin. split; lra.
    + intros Hle. destruct (Qlt_le_dec 1 (1 - a)); [by apply Hbig|].
      rw Hin; [split; lra|]. lra.
    + intros Hge. destruct (Qlt_le_dec (1 - a) 0); [by apply Hneg|].
      rw Hin; [split; lra|]. lra.
  - intros i j. rw Hd. by destruct (_ ← affinity !! i; _).
  - intros i j i' j' a b d e Hij Hij' Hdij Hdij' Hab.
    rw Hd Hij /= in Hdij. rw Hd Hij' /= in Hdij'.
    injection Hdij as <-. injection Hdij' as <-.
    destruct (clip_unit (1 - a)) as (H0 & H1 & Hin & Hneg & Hbig).
    destruct (clip_unit (1 - b)) as (H0' & H1' & Hin' & Hneg' & Hbig').
    destruct (Qlt_le_dec (1 - b) 0); [rw Hneg'; [done|done]|].
    destruct (Qlt_le_dec 1 (1 - a)); [rw Hbig; done|].
    rw Hin; [split; lra|]. 
    destruct (Qlt_le_dec 1 (1 - b)); [lra|]. rw Hin'; [split; lra|]. lra.
Qed.

Lemma clustering_distances_witness :
  let affinity := [[1; 1 # 4; -(1 # 2)]; [1 # 4; 1; 3 # 2]]%Q in
  ∃ d, (row ← clusterer_input DBSCAN affinity !! 0%nat; row !! 2%nat) = Some d
    ∧ (0 <= d)%Q ∧ (d <= 1)%Q.
Proof.
  intros affinity.
  destruct (clustering_distances DBSCAN affinity ltac:(by left)) as [Hentry _].
  destruct (Hentry 0%nat 2%nat (-(1 # 2))%Q eq_refl)
    as (d & d' & Hd & _ & H0 & H1 & _).
  by exists d.
Defined.
End ClusteringDistances.
